(** * Accessibility remediation pipeline of the browser extension (content.js)

    A shallow embedding of the content script: the link classifier, the
    inference client, the capture renderer and the two-phase orchestrator,
    each definition translated from the function of the same name. *)

From Stdlib Require Import ZArith QArith Qminmax Lia Lqa Bool.
From Stdlib Require Import Ascii String DecimalString.
From stdpp Require Import base option list gmap strings.

Local Open Scope string_scope.
Local Open Scope list_scope.
Local Set Warnings "-register-all".

(** ** JavaScript strings

    Strings are modelled as [string] (one [ascii] per UTF-16 code unit), which
    is exact for ASCII text: [toLowerCase] folds A-Z, and the white space of
    [trim] and of the regular expression [\s] is the ASCII white space. *)
Module JSString.

Definition is_white_space (c : ascii) : bool :=
  match nat_of_ascii c with
  | 9%nat | 10%nat | 11%nat | 12%nat | 13%nat | 32%nat => true
  | _ => false
  end.

Definition lower_char (c : ascii) : ascii :=
  let n := nat_of_ascii c in
  if (65 <=? n)%nat && (n <=? 90)%nat then ascii_of_nat (n + 32) else c.

Fixpoint toLowerCase (s : string) : string :=
  match s with
  | EmptyString => EmptyString
  | String c r => String (lower_char c) (toLowerCase r)
  end.

Fixpoint trimStart (s : string) : string :=
  match s with
  | EmptyString => EmptyString
  | String c r => if is_white_space c then trimStart r else s
  end.

Fixpoint trimEnd (s : string) : string :=
  match s with
  | EmptyString => EmptyString
  | String c r =>
      match trimEnd r with
      | EmptyString => if is_white_space c then EmptyString else String c EmptyString
      | r' => String c r'
      end
  end.

Definition trim (s : string) : string := trimEnd (trimStart s).

(** [s.includes(pat)] *)
Fixpoint includes (s pat : string) : bool :=
  String.prefix pat s ||
  match s with
  | EmptyString => false
  | String _ r => includes r pat
  end.

(** [s.startsWith(pat)] *)
Definition startsWith (s pat : string) : bool := String.prefix pat s.

(** [s.split(/\s+/)]: [sep] tells that the scan is inside a run of white
    space, [cur] is the piece read so far. *)
Fixpoint split_ws_from (sep : bool) (cur s : string) : list string :=
  match s with
  | EmptyString => [cur]
  | String c r =>
      if is_white_space c
      then (if sep then split_ws_from true EmptyString r
            else cur :: split_ws_from true EmptyString r)
      else split_ws_from false (cur +:+ String c EmptyString) r
  end.

Definition split_ws (s : string) : list string := split_ws_from false EmptyString s.

(** Truthiness of a string: only the empty string is falsy. *)
Definition truthy (s : string) : bool :=
  match s with EmptyString => false | _ => true end.

(** [a || b] on strings. *)
Definition or_else (a b : string) : string := if truthy a then a else b.

(** [s.replace(pat, '')] with a string pattern: the first occurrence of [pat]
    is removed. *)
Fixpoint remove_first (s pat : string) : string :=
  if String.prefix pat s then
    String.substring (String.length pat) (String.length s - String.length pat) s
  else
    match s with
    | EmptyString => EmptyString
    | String c r => String c (remove_first r pat)
    end.

End JSString.
Import JSString.

(** ** The host document

    An element is a record of the properties the content script reads and
    writes. [nid] is the identity of the element object, [parent] its
    [parentElement], [connected] tells whether it is in the document.
    [textContent] and [innerText] are stored per element as the host reports
    them; writing [textContent] sets both. A document is the list of its
    element objects in document order, which is the order of
    [querySelectorAll]; an element that was removed stays in the list,
    disconnected, because the tasks that hold it can still write to it. *)
Module Dom.

Record Rect := mkRect { left : Q; top : Q; width : Q; height : Q }.

Record Element := mkElement {
  nid : nat;
  connected : bool;
  parent : option nat;
  tagName : string;
  id : string;
  type : string;
  value : string;
  placeholder : string;
  required : bool;
  attributes : gmap string string;
  textContent : string;
  innerText : string;
  classList : list string;
  style : gmap string string;
  src : string;
  naturalWidth : Z;
  naturalHeight : Z;
  rect : Rect
}.

Definition with_attributes (f : gmap string string -> gmap string string) (e : Element) : Element :=
  mkElement (nid e) (connected e) (parent e) (tagName e) (id e) (type e) (value e)
    (placeholder e) (required e) (f (attributes e)) (textContent e) (innerText e)
    (classList e) (style e) (src e) (naturalWidth e) (naturalHeight e) (rect e).

Definition with_textContent (t : string) (e : Element) : Element :=
  mkElement (nid e) (connected e) (parent e) (tagName e) (id e) (type e) (value e)
    (placeholder e) (required e) (attributes e) t t (classList e) (style e) (src e)
    (naturalWidth e) (naturalHeight e) (rect e).

Definition with_classList (f : list string -> list string) (e : Element) : Element :=
  mkElement (nid e) (connected e) (parent e) (tagName e) (id e) (type e) (value e)
    (placeholder e) (required e) (attributes e) (textContent e) (innerText e)
    (f (classList e)) (style e) (src e) (naturalWidth e) (naturalHeight e) (rect e).

Definition with_style (f : gmap string string -> gmap string string) (e : Element) : Element :=
  mkElement (nid e) (connected e) (parent e) (tagName e) (id e) (type e) (value e)
    (placeholder e) (required e) (attributes e) (textContent e) (innerText e)
    (classList e) (f (style e)) (src e) (naturalWidth e) (naturalHeight e) (rect e).

Definition with_id (i : string) (e : Element) : Element :=
  mkElement (nid e) (connected e) (parent e) (tagName e) i (type e) (value e)
    (placeholder e) (required e) (attributes e) (textContent e) (innerText e)
    (classList e) (style e) (src e) (naturalWidth e) (naturalHeight e) (rect e).

Definition detached (e : Element) : Element :=
  mkElement (nid e) false (parent e) (tagName e) (id e) (type e) (value e)
    (placeholder e) (required e) (attributes e) (textContent e) (innerText e)
    (classList e) (style e) (src e) (naturalWidth e) (naturalHeight e) (rect e).

Definition with_parent (p : option nat) (e : Element) : Element :=
  mkElement (nid e) (connected e) p (tagName e) (id e) (type e) (value e)
    (placeholder e) (required e) (attributes e) (textContent e) (innerText e)
    (classList e) (style e) (src e) (naturalWidth e) (naturalHeight e) (rect e).

(** [el.getAttribute(name)]: [None] is [null]. *)
Definition getAttribute (e : Element) (name : string) : option string :=
  attributes e !! name.

Definition setAttribute (name v : string) (e : Element) : Element :=
  with_attributes (insert name v) e.

Definition removeAttribute (name : string) (e : Element) : Element :=
  with_attributes (delete name) e.

Definition hasAttribute (e : Element) (name : string) : bool :=
  bool_decide (is_Some (attributes e !! name)).

(** [a || ''] for an attribute that may be [null]. *)
Definition attr_or_empty (a : option string) : string := default "" a.

(** Truthiness of an attribute value: [null] and [''] are falsy. *)
Definition attr_truthy (a : option string) : bool :=
  match a with Some s => truthy s | None => false end.

Definition setStyle (prop v : string) (e : Element) : Element :=
  with_style (insert prop v) e.

Definition classList_add (c : string) (e : Element) : Element :=
  with_classList (fun l => if bool_decide (c ∈ l) then l else l ++ [c]) e.

Definition classList_remove (cs : list string) (e : Element) : Element :=
  with_classList (filter (fun c => c ∉ cs)) e.

Definition Document := list Element.

Definition getElement (doc : Document) (n : nat) : option Element :=
  List.find (fun e => Nat.eqb (nid e) n) doc.

(** A mutation of the element with identity [n]. *)
Definition update (n : nat) (f : Element -> Element) (doc : Document) : Document :=
  List.map (fun e => if Nat.eqb (nid e) n then f e else e) doc.

(** [document.querySelectorAll(sel)], for a selector given as a predicate. *)
Definition querySelectorAll (sel : Element -> bool) (doc : Document) : list Element :=
  List.filter (fun e => connected e && sel e) doc.

(** [document.querySelector(sel)] *)
Definition querySelector (sel : Element -> bool) (doc : Document) : option Element :=
  List.find (fun e => connected e && sel e) doc.

Definition has_tag (tags : list string) (e : Element) : bool :=
  existsb (String.eqb (tagName e)) tags.

Definition has_class (cs : list string) (e : Element) : bool :=
  existsb (fun c => bool_decide (c ∈ classList e)) cs.

(** An id that can be written as it is between the double quotes of an
    attribute selector: it has no double quote, no backslash and no line
    break. *)
Definition writable_in_selector (i : string) : bool :=
  forallb (fun c => negb (bool_decide (nat_of_ascii c ∈ [34; 92; 10; 12; 13]%nat)))
          (list_ascii_of_string i).

(** The selector [label[for="target"]], for a target that is
    [writable_in_selector]. For another target the selector the code builds
    is not this one: [querySelector] may throw a [SyntaxError] or look for
    another value, which this predicate does not describe. *)
Definition sel_label_for (target : string) (e : Element) : bool :=
  String.eqb (tagName e) "LABEL" && bool_decide (getAttribute e "for" = Some target).

(** The selector [[data-ai-generated="true"]]. *)
Definition sel_ai_generated (e : Element) : bool :=
  bool_decide (getAttribute e "data-ai-generated" = Some "true").

(** [document.getElementById(i)] *)
Definition getElementById (doc : Document) (i : string) : option Element :=
  List.find (fun e => connected e && String.eqb (id e) i) doc.

(** [parent.insertBefore(new, ref)]: [new] is placed just before [ref] in
    document order. *)
Fixpoint insertBefore (new : Element) (ref : nat) (doc : Document) : Document :=
  match doc with
  | [] => []
  | e :: r => if Nat.eqb (nid e) ref then new :: e :: r else e :: insertBefore new ref r
  end.

(** An identity no element of the document has, for [createElement]. *)
Definition fresh_nid (doc : Document) : nat :=
  S (List.fold_right (fun e m => Nat.max (nid e) m) 0%nat doc).

(** [el.closest(tag)]: the nearest inclusive ancestor with that tag name;
    the walk is bounded by the size of the document. *)
Fixpoint closest_from (fuel : nat) (doc : Document) (tag : string) (e : Element) : option Element :=
  if String.eqb (tagName e) tag then Some e
  else match fuel with
       | O => None
       | S k =>
           match parent e with
           | None => None
           | Some p =>
               match getElement doc p with
               | None => None
               | Some pe => closest_from k doc tag pe
               end
           end
       end.

Definition closest (doc : Document) (tag : string) (e : Element) : option Element :=
  closest_from (List.length doc) doc tag e.

(** [e] lies strictly below the element [root]. *)
Fixpoint below_from (fuel : nat) (doc : Document) (root : nat) (e : Element) : bool :=
  match fuel with
  | O => false
  | S k =>
      match parent e with
      | None => false
      | Some p =>
          Nat.eqb p root ||
          match getElement doc p with
          | None => false
          | Some pe => below_from k doc root pe
          end
      end
  end.

Definition below (doc : Document) (root : nat) (e : Element) : bool :=
  below_from (List.length doc) doc root e.

(** [el.remove()]: the element leaves its parent, and it and its subtree
    are no longer in the document. The text stored for the ancestors of
    [el] is not computed again. *)
Definition remove (n : nat) (doc : Document) : Document :=
  List.map (fun e => if Nat.eqb (nid e) n then detached (with_parent None e)
                     else if below doc n e then detached e else e) doc.

(** [el.textContent = t]: the children of [el] are replaced by one text.
    The text stored for the ancestors of [el] is not computed again: the
    model gives the text of the element that is written and of the elements
    that do not contain it. *)
Definition set_textContent (n : nat) (t : string) (doc : Document) : Document :=
  List.map (fun e => if Nat.eqb (nid e) n then with_textContent t e
                     else if bool_decide (parent e = Some n) then detached (with_parent None e)
                     else if below doc n e then detached e else e) doc.

End Dom.
Import Dom.

(** ** Issue classifier: links *)
Module LinkClassifier.

Definition vaguePatterns : list string :=
  [ "click here"; "here"; "read more"; "learn more"; "more"; "continue";
    "go"; "view"; "see"; "check"; "find out"; "discover"; "explore";
    "download"; "get"; "try"; "start"; "begin"; "next"; "previous";
    "back"; "forward"; "submit"; "send"; "contact"; "call"; "email";
    "link"; "button"; "this"; "that"; "it"; "details"; "info";
    "page"; "site"; "website"; "portal"; "platform"; "tool" ].

Definition descriptiveWords : list string :=
  [ "home"; "about"; "contact"; "products"; "services"; "blog"; "news";
    "support"; "help"; "documentation"; "guide"; "tutorial"; "pricing";
    "login"; "signup"; "register"; "profile"; "account"; "dashboard";
    "settings"; "preferences"; "cart"; "checkout"; "order"; "search" ].

Definition isDescriptiveLinkText (text : string) : bool :=
  let lowerText := trim (toLowerCase text) in
  existsb (fun word => includes lowerText word) descriptiveWords
  || (15 <? String.length text)%nat.

Definition getLinkText (link : Element) : string :=
  let text := or_else (textContent link) (or_else (innerText link) "") in
  let text := if negb (truthy (trim text))
              then attr_or_empty (getAttribute link "aria-label") else text in
  let text := if negb (truthy (trim text))
              then attr_or_empty (getAttribute link "title") else text in
  trim text.

(** The body of [needsBetterLinkText] on the text returned by [getLinkText]. *)
Definition needsBetterText (linkText : string) : bool :=
  if negb (truthy linkText) || negb (truthy (trim linkText)) then false
  else
    let lowerText := trim (toLowerCase linkText) in
    let words := split_ws lowerText in
    let isVague :=
      existsb (fun pattern =>
                 String.eqb lowerText pattern
                 || includes lowerText pattern
                 || existsb (fun word => String.eqb word pattern) words)
              vaguePatterns in
    if (List.length words <=? 3)%nat && isVague then true
    else if (String.length linkText <=? 8)%nat && negb (isDescriptiveLinkText linkText)
         then true
         else false.

Definition needsBetterLinkText (link : Element) : bool :=
  needsBetterText (getLinkText link).

End LinkClassifier.
Import LinkClassifier.

(** ** JavaScript values, exceptions, and the state of a running script *)
Module JS.

(** A parsed JSON payload, and [undefined] for a property that is absent.
    Numbers in the payloads are integers. *)
Inductive JSValue :=
| JUndefined
| JNull
| JBool (b : bool)
| JNum (n : Z)
| JStr (s : string)
| JArr (items : list JSValue)
| JObj (fields : list (string * JSValue)).

Inductive JSError :=
| NetworkError
| HttpError (status : Z) (statusText : string)
| TypeError
| SyntaxError
| ReferenceError.

(** How the evaluation of an expression or a block ends. *)
Inductive completion (A : Type) :=
| Normal (a : A)
| Throw (e : JSError).
Global Arguments Normal {A} a.
Global Arguments Throw {A} e.

Definition js_truthy (v : JSValue) : bool :=
  match v with
  | JUndefined | JNull => false
  | JBool b => b
  | JNum n => negb (n =? 0)%Z
  | JStr s => truthy s
  | JArr _ | JObj _ => true
  end.

Fixpoint assoc (k : string) (fields : list (string * JSValue)) : option JSValue :=
  match fields with
  | [] => None
  | (k', v) :: r => if String.eqb k k' then Some v else assoc k r
  end.

(** [v.k] for a key [k] that is not a built-in property: reading from [null]
    or [undefined] throws, a missing property is [undefined]. *)
Definition get (v : JSValue) (k : string) : completion JSValue :=
  match v with
  | JUndefined | JNull => Throw TypeError
  | JObj fields => Normal (default JUndefined (assoc k fields))
  | _ => Normal JUndefined
  end.

Definition join (sep : string) (l : list string) : string :=
  match l with
  | [] => ""
  | x :: r => List.fold_left (fun acc y => acc +:+ sep +:+ y) r x
  end.

(** The conversion to a string made when a value is written to the DOM. *)
Fixpoint ToString (v : JSValue) : string :=
  match v with
  | JUndefined => "undefined"
  | JNull => "null"
  | JBool true => "true"
  | JBool false => "false"
  | JNum n => NilEmpty.string_of_int (Z.to_int n)
  | JStr s => s
  | JArr items =>
      join "," (List.map (fun x => match x with
                                   | JUndefined | JNull => ""
                                   | _ => ToString x
                                   end) items)
  | JObj _ => "[object Object]"
  end.

(** [v === s] for a string literal [s]. *)
Definition strict_eq_str (v : JSValue) (s : string) : bool :=
  match v with JStr t => String.eqb t s | _ => false end.

(** [v.trim()]: only a string has the method. *)
Definition call_trim (v : JSValue) : completion string :=
  match v with
  | JStr s => Normal (trim s)
  | JUndefined | JNull => Throw TypeError
  | _ => Throw TypeError
  end.

(** A block that works on the document and may throw: the writes made
    before the exception stay. *)
Definition Script (A : Type) : Type := Document -> Document * completion A.

Definition ret {A} (a : A) : Script A := fun doc => (doc, Normal a).
Definition throw {A} (e : JSError) : Script A := fun doc => (doc, Throw e).
Definition bind {A B} (m : Script A) (k : A -> Script B) : Script B :=
  fun doc => match m doc with
             | (doc', Normal a) => k a doc'
             | (doc', Throw e) => (doc', Throw e)
             end.
Definition lift {A} (c : completion A) : Script A := fun doc => (doc, c).
Definition read {A} (f : Document -> A) : Script A := fun doc => (doc, Normal (f doc)).
Definition write (f : Document -> Document) : Script unit := fun doc => (f doc, Normal tt).
Definition when (b : bool) (m : Script unit) : Script unit := if b then m else ret tt.

(** [try { body } catch (error) { handler }] *)
Definition try_catch {A} (body : Script A) (handler : JSError -> Script A) : Script A :=
  fun doc => match body doc with
             | (doc', Normal a) => (doc', Normal a)
             | (doc', Throw e) => handler e doc'
             end.

End JS.
Import JS.

Declare Scope script_scope.
Delimit Scope script_scope with script.
Notation "x <- m ;; k" := (bind m (fun x => k))
  (at level 100, m at next level, right associativity) : script_scope.
Notation "m ;;; k" := (bind m (fun _ => k))
  (at level 100, right associativity) : script_scope.

(** ** Inference client *)
Module InferenceClient.

(** What [JSON.parse] makes of the message content. *)
Inductive ParseOutcome :=
| ParseThrows
| Parsed (v : JSValue).

(** What the body of a response offers: [response.json()] rejects, or
    evaluating [result.choices[0].message.content] throws, or the content is
    there and is handed to [JSON.parse]. *)
Inductive BodyOutcome :=
| JsonRejects
| NoMessageContent
| MessageContent (p : ParseOutcome).

(** How the [fetch] of one request ends. *)
Inductive FetchOutcome :=
| FetchRejects
| Response (ok : bool) (status : Z) (statusText : string) (body : BodyOutcome).

Definition cbind {A B} (c : completion A) (k : A -> completion B) : completion B :=
  match c with
  | Normal a => k a
  | Throw e => Throw e
  end.

(** The lines every inference function ends with:
    [if (!response.ok) throw ...; const result = await response.json();
     JSON.parse(result.choices[0].message.content)]. *)
Definition read_structured (o : FetchOutcome) : completion JSValue :=
  match o with
  | FetchRejects => Throw NetworkError
  | Response ok status statusText body =>
      if negb ok then Throw (HttpError status statusText)
      else match body with
           | JsonRejects => Throw SyntaxError
           | NoMessageContent => Throw TypeError
           | MessageContent ParseThrows => Throw SyntaxError
           | MessageContent (Parsed v) => Normal v
           end
  end.

(** [catch (error) { console.error(...); throw error; }] *)
Definition rethrow {A} (c : completion A) : completion A :=
  match c with
  | Normal a => Normal a
  | Throw e => Throw e
  end.

Definition generateFormFieldHelp (o : FetchOutcome) : completion JSValue :=
  rethrow (read_structured o).

Definition analyzeFormFieldAccessibility (o : FetchOutcome) : completion JSValue :=
  rethrow (read_structured o).

Definition analyzeExistingAltText (o : FetchOutcome) : completion JSValue :=
  rethrow (read_structured o).

Definition generateLinkText (o : FetchOutcome) : completion JSValue :=
  rethrow (read_structured o).

(** A call that either returns before any request is made or continues when
    its [fetch] settles. *)
Inductive Async (A : Type) :=
| Now (a : A)
| AfterFetch (k : FetchOutcome -> A).
Global Arguments Now {A} a.
Global Arguments AfterFetch {A} k.

Definition result_of {A} (call : Async A) (o : FetchOutcome) : A :=
  match call with
  | Now a => a
  | AfterFetch k => k o
  end.

(** [imgElement.naturalWidth < 50 || imgElement.naturalHeight < 50]: the
    image is too small, likely decorative. *)
Definition too_small (imgElement : Element) : bool :=
  (naturalWidth imgElement <? 50)%Z || (naturalHeight imgElement <? 50)%Z.

Definition generateAltText (imgElement : Element) : Async string :=
  if too_small imgElement
  then Now "Decorative image"
  else AfterFetch (fun o =>
    match
      cbind (read_structured o) (fun structuredResponse =>
      cbind (get structuredResponse "alt_text") (fun a =>
      let altText := if js_truthy a then a else JStr "" in
      cbind (get structuredResponse "classification") (fun classification =>
      if strict_eq_str classification "decorative" || strict_eq_str altText ""
      then Normal ""
      else call_trim altText)))
    with
    | Normal altText => altText
    | Throw _ => "AI-generated description unavailable"
    end).

(** The description that results from a parsed payload, spelled out: of
    an object only [classification] and [alt_text] are read, reading from
    [null] fails, and any other value has neither property. *)
Definition alt_text_of (payload : JSValue) : string :=
  match payload with
  | JObj fields =>
      let a := default JUndefined (assoc "alt_text" fields) in
      if strict_eq_str (default JUndefined (assoc "classification" fields)) "decorative"
         || negb (js_truthy a)
      then ""
      else match a with
           | JStr s => trim s
           | _ => "AI-generated description unavailable"
           end
  | JUndefined | JNull => "AI-generated description unavailable"
  | _ => ""
  end.

(** The output schemas sent with the requests. *)
Inductive JSONType :=
| TString
| TNumber
| TBoolean
| TStringArray
| TEnum (values : list string).

Record Schema := mkSchema {
  schema_name : string;
  properties : list (string * JSONType);
  required_fields : list string
}.

Definition alt_text_response : Schema :=
  mkSchema "alt_text_response"
    [ ("classification", TEnum ["decorative"; "simple_informative"; "complex_informative"]);
      ("alt_text", TString); ("reasoning", TString) ]
    [ "classification"; "alt_text"; "reasoning" ].

Definition alt_text_analysis : Schema :=
  mkSchema "alt_text_analysis"
    [ ("page_context", TString); ("surrounding_context", TString);
      ("classification", TEnum ["decorative"; "simple_informative"; "complex_informative"]);
      ("alt_text_analysis", TStringArray); ("is_sufficient", TBoolean) ]
    [ "page_context"; "surrounding_context"; "classification"; "alt_text_analysis";
      "is_sufficient" ].

Definition form_field_help : Schema :=
  mkSchema "form_field_help"
    [ ("field_purpose", TString); ("input_type", TString); ("label", TString);
      ("aria_label", TString) ]
    [ "field_purpose"; "input_type"; "label"; "aria_label" ].

Definition form_accessibility_analysis : Schema :=
  mkSchema "form_accessibility_analysis"
    [ ("accessibility_score", TNumber);
      ("label_quality", TEnum ["excellent"; "good"; "fair"; "poor"; "missing"]);
      ("placeholder_appropriateness",
       TEnum ["excellent"; "good"; "fair"; "poor"; "not_applicable"]);
      ("issues_found", TStringArray); ("suggestions", TStringArray);
      ("is_accessible", TBoolean); ("reasoning", TString) ]
    [ "accessibility_score"; "label_quality"; "placeholder_appropriateness";
      "issues_found"; "suggestions"; "is_accessible"; "reasoning" ].

Definition link_text_enhancement : Schema :=
  mkSchema "link_text_enhancement"
    [ ("current_text_analysis", TString); ("link_purpose", TString);
      ("suggested_text", TString); ("aria_label", TString);
      ("improvement_reasoning", TString) ]
    [ "current_text_analysis"; "link_purpose"; "suggested_text"; "aria_label";
      "improvement_reasoning" ].

(** The re-validation the specification asks of the client, in its words:
    every required field of the schema exists with the correct primitive
    type. The source has no function for it. *)
Definition has_primitive_type (t : JSONType) (v : JSValue) : bool :=
  match t, v with
  | TString, JStr _ => true
  | TEnum _, JStr _ => true
  | TNumber, JNum _ => true
  | TBoolean, JBool _ => true
  | TStringArray, JArr items =>
      forallb (fun x => match x with JStr _ => true | _ => false end) items
  | _, _ => false
  end.

Definition spec_revalidates (sch : Schema) (v : JSValue) : bool :=
  match v with
  | JObj fields =>
      forallb (fun name =>
                 match assoc name fields, List.find (fun p => String.eqb (fst p) name) (properties sch) with
                 | Some x, Some (_, t) => has_primitive_type t x
                 | _, _ => false
                 end) (required_fields sch)
  | _ => false
  end.

End InferenceClient.
Import InferenceClient.

(** ** Issue classifier: images and form fields *)
Module Classifier.

Definition isGenericAltText (text : string) : bool :=
  bool_decide (trim (toLowerCase text) ∈
               ["image"; "photo"; "picture"; "img"; "graphic"; "icon"]).

(** [a && a.trim() && !isGenericAltText(a)] *)
Definition meaningful (a : option string) : bool :=
  match a with
  | Some s => truthy s && truthy (trim s) && negb (isGenericAltText s)
  | None => false
  end.

(** [const el = document.getElementById(ref); el && el.textContent.trim()],
    under [if (ref)]. *)
Definition labelledby_resolves (doc : Document) (ref : option string) : bool :=
  match ref with
  | Some r =>
      truthy r &&
      match getElementById doc r with
      | Some labelElement => truthy (trim (textContent labelElement))
      | None => false
      end
  | None => false
  end.

Definition needsAltText (doc : Document) (img : Element) : bool :=
  let alt := getAttribute img "alt" in
  if meaningful alt then false
  else if meaningful (getAttribute img "aria-label") then false
  else if labelledby_resolves doc (getAttribute img "aria-labelledby") then false
  else if bool_decide (alt = Some "")
          || hasAttribute img "role" && bool_decide (getAttribute img "role" = Some "presentation")
       then false
       else true.

Definition hasExistingAltText (img : Element) : bool :=
  if meaningful (getAttribute img "alt") then true
  else if meaningful (getAttribute img "aria-label") then true
  else false.

Definition hasVisibleLabel (doc : Document) (input : Element) : bool :=
  match querySelector (sel_label_for (id input)) doc with
  | Some labelFor => truthy (trim (textContent labelFor))
  | None => false
  end
  ||
  match closest doc "LABEL" input with
  | Some parentLabel =>
      truthy (trim (remove_first (textContent parentLabel) (or_else (value input) "")))
  | None => false
  end.

Definition not_labelable (input : Element) : bool :=
  bool_decide (type input ∈ ["hidden"; "submit"; "button"; "reset"]).

Definition needsLabel (doc : Document) (input : Element) : bool :=
  if not_labelable input then false
  else if hasVisibleLabel doc input then false
  else if match getAttribute input "aria-label" with
          | Some a => truthy a && truthy (trim a)
          | None => false
          end then false
  else if labelledby_resolves doc (getAttribute input "aria-labelledby") then false
  else true.

(** The filter of [analyzeAllFormFields]. *)
Definition analyzable_field (input : Element) : bool :=
  negb (truthy (type input)) || negb (not_labelable input).

Definition sel_form_fields : Element -> bool := has_tag ["INPUT"; "TEXTAREA"; "SELECT"].
Definition sel_images : Element -> bool := has_tag ["IMG"].

(** The selector [a[href], button[onclick], button[data-href]]. *)
Definition sel_links (e : Element) : bool :=
  String.eqb (tagName e) "A" && hasAttribute e "href"
  || String.eqb (tagName e) "BUTTON" && hasAttribute e "onclick"
  || String.eqb (tagName e) "BUTTON" && hasAttribute e "data-href".

End Classifier.
Import Classifier.

(** ** Remediation applier *)
Module Applier.

Local Open Scope script_scope.

(** The element object a task holds. Every task holds an element of the
    document; [blank] stands in for an identity the document does not know. *)
Definition blank (n : nat) : Element :=
  mkElement n false None "" "" "" "" "" false ∅ "" "" [] ∅ "" 0 0 (mkRect 0 0 0 0).

Definition the (doc : Document) (n : nat) : Element :=
  default (blank n) (getElement doc n).

Definition element (n : nat) : Script Element :=
  read (fun doc => the doc n).

Definition generated_label_style : gmap string string :=
  list_to_map
    [ ("display", "block"); ("font-weight", "bold"); ("margin-bottom", "4px");
      ("color", "#2563eb"); ("font-size", "14px");
      ("background", "rgba(37, 99, 235, 0.1)"); ("padding", "2px 6px");
      ("border-radius", "3px"); ("border-left", "3px solid #2563eb") ].

(** [document.createElement('label')] with its [for] attribute and style,
    as the child of [p] that it becomes on insertion. *)
Definition new_label (n : nat) (target : string) (p : nat) (conn : bool) : Element :=
  mkElement n conn (Some p) "LABEL" "" "" "" "" false
    {[ "for" := target ]} "" "" [] generated_label_style "" 0 0 (mkRect 0 0 0 0).

(** [stamp] stands for [Date.now() + Math.random().toString(36).substr(2, 9)]. *)
Definition addGeneratedLabel (n : nat) (labelText stamp : string) : Script unit :=
  inputElement <- element n ;;
  found <- read (querySelector (sel_label_for (id inputElement))) ;;
  label <-
    match found with
    | Some label => ret (nid label)
    | None =>
        when (negb (truthy (id inputElement)))
             (write (update n (with_id ("ai-generated-" +:+ stamp)))) ;;;
        inputElement <- element n ;;
        l <- read fresh_nid ;;
        match parent inputElement with
        | None => throw TypeError
        | Some p =>
            write (insertBefore (new_label l (id inputElement) p (connected inputElement)) n) ;;;
            ret l
        end
    end ;;
  write (set_textContent label labelText) ;;;
  write (update label (setAttribute "data-ai-generated" "true")).

Definition double_quote : string := String (ascii_of_nat 34) EmptyString.

Definition addGeneratedLinkText (n : nat) (newText : string) : Script unit :=
  linkElement <- element n ;;
  let originalText := getLinkText linkElement in
  write (update n (setAttribute "data-original-text" originalText)) ;;;
  write (set_textContent n newText) ;;;
  write (update n (fun e => setStyle "background" "rgba(37, 99, 235, 0.1)"
                            (setStyle "border-left" "3px solid #2563eb"
                            (setStyle "padding-left" "6px" e)))) ;;;
  write (update n (setAttribute "data-ai-generated" "true")) ;;;
  write (update n (setAttribute "title"
           ("AI-improved from: " +:+ double_quote +:+ originalText +:+ double_quote))).

(** Teardown on deactivation. The tooltips and loading indicators are
    presentation and not part of the document model. *)
Definition for_each (l : list Element) (f : nat -> Document -> Document) (doc : Document) : Document :=
  List.fold_left (fun d e => f (nid e) d) l doc.

Definition clearStyle (prop : string) (e : Element) : Element :=
  with_style (delete prop) e.

Definition removeHighlights (doc : Document) : Document :=
  for_each (querySelectorAll (has_class ["ai-alt-highlight"; "ai-alt-analysis"]) doc)
    (fun n => update n (fun img =>
       classList_remove ["ai-alt-highlight"; "ai-alt-analysis"] (clearStyle "border" img)))
    doc.

Definition removeFormHighlights (doc : Document) : Document :=
  let doc :=
    for_each (querySelectorAll (has_class ["ai-form-highlight"; "ai-form-analysis"]) doc)
      (fun n => update n (fun input =>
         classList_remove ["ai-form-highlight"; "ai-form-analysis"] (clearStyle "outline" input)))
      doc in
  for_each (querySelectorAll sel_ai_generated doc) remove doc.

Definition removeLinkHighlights (doc : Document) : Document :=
  let doc :=
    for_each (querySelectorAll (has_class ["ai-link-highlight"; "ai-link-analysis"]) doc)
      (fun n => update n (fun link =>
         let link := classList_remove ["ai-link-highlight"; "ai-link-analysis"]
                       (clearStyle "outline" link) in
         if attr_truthy (getAttribute link "data-ai-generated")
         then clearStyle "background" (clearStyle "border-left" (clearStyle "padding-left" link))
         else link))
      doc in
  for_each (querySelectorAll sel_ai_generated doc)
    (fun n d =>
       let d := match getElement d n with
                | Some link =>
                    match getAttribute link "data-original-text" with
                    | Some originalText =>
                        if truthy originalText then set_textContent n originalText d else d
                    | None => d
                    end
                | None => d
                end in
       update n (fun link => removeAttribute "data-ai-generated"
                               (removeAttribute "data-original-text"
                                  (removeAttribute "title" link))) d)
    doc.

End Applier.
Import Applier.

(** ** Capture renderer

    Geometry is in exact rationals. A capture is described by the size of
    the canvas at the time of [canvas.toDataURL('image/jpeg', quality)], the
    quality, and what the canvas shows. The fallback drawings only fill
    rectangles and write text on a fresh or resized canvas; they are taken
    to succeed. *)
Module CaptureRenderer.

Local Open Scope Q_scope.

Record Viewport := mkViewport { innerWidth : Q; innerHeight : Q }.

(** The geometry the host reports: no size is negative, and the element
    starts less than 2^31 pixels right of and below the origin. *)
Definition plausible_geometry (r : Rect) (vp : Viewport) : Prop :=
  0 <= width r /\ 0 <= height r /\ 0 <= innerWidth vp /\ 0 <= innerHeight vp /\
  left r <= 2147483648 /\ top r <= 2147483648.

Inductive Content :=
| SourceMedia
| Sketch
| Placeholder.

Record Encoded := mkEncoded {
  pixel_width : Z;
  pixel_height : Z;
  quality : Q;
  content : Content
}.

(** Truncation toward zero. *)
Definition Qtrunc (x : Q) : Z := Z.quot (Qnum x) (Zpos (Qden x)).

Definition ToUint32 (x : Q) : Z := (Qtrunc x mod 2 ^ 32)%Z.

(** [canvas.width = x] and [canvas.height = x]: the attribute is an unsigned
    long that falls back to its default (300 wide, 150 high) when the
    converted value exceeds 2147483647. *)
Definition canvas_size (default : Z) (x : Q) : Z :=
  let n := ToUint32 x in
  if (n <=? 2147483647)%Z then n else default.

Definition toDataURL (w h : Q) (q : Q) (c : Content) : Encoded :=
  mkEncoded (canvas_size 300 w) (canvas_size 150 h) q c.

Definition captureInputField (inputElement : Element) (draw_throws : bool) : Encoded :=
  if draw_throws then toDataURL 300 60 0.8 Placeholder
  else
    let rect := rect inputElement in
    let padding := 10 in
    toDataURL (Qmax 200 (width rect + padding * 2)) (Qmax 50 (height rect + padding * 2))
              0.8 Sketch.

Definition captureLinkElement (linkElement : Element) (draw_throws : bool) : Encoded :=
  if draw_throws then toDataURL 300 50 0.8 Placeholder
  else
    let rect := rect linkElement in
    let padding := 10 in
    toDataURL (Qmax 200 (width rect + padding * 2)) (Qmax 40 (height rect + padding * 2))
              0.8 Sketch.

(** The canvas of a context capture: [contextRect] clipped to 800 by 600. *)
Definition context_canvas (rect_w rect_h margin : Q) (vp : Viewport) : Q * Q :=
  let contextRect_width := Qmin (innerWidth vp) (rect_w + margin * 2) in
  let contextRect_height := Qmin (innerHeight vp) (rect_h + margin * 2) in
  (Qmin 800 contextRect_width, Qmin 600 contextRect_height).

Definition captureInputWithContext (inputElement : Element) (vp : Viewport) (draw_throws : bool)
  : Encoded :=
  if draw_throws then toDataURL 400 300 0.6 Placeholder
  else
    let rect := rect inputElement in
    let padding := 150 in
    let (w, h) := context_canvas (width rect) (height rect) padding vp in
    toDataURL w h 0.6 Sketch.

Definition captureLinkWithContext (linkElement : Element) (vp : Viewport) (draw_throws : bool)
  : Encoded :=
  if draw_throws then toDataURL 400 300 0.6 Placeholder
  else
    let rect := rect linkElement in
    let padding := 150 in
    let (w, h) := context_canvas (width rect) (height rect) padding vp in
    toDataURL w h 0.6 Sketch.

(** [Math.min(maxSize / width, maxSize / height)]; a division by zero is
    [Infinity] and never the smaller of the two. *)
Definition min_ratio (maxSize width height : Q) : Q :=
  if Qeq_bool width 0 then maxSize / height
  else if Qeq_bool height 0 then maxSize / width
  else Qmin (maxSize / width) (maxSize / height).

(** The resize of a loaded image to at most [maxSize = 800] on each side. *)
Definition resize (width height : N) : Q * Q :=
  let maxSize := 800 in
  let width := inject_Z (Z.of_N width) in
  let height := inject_Z (Z.of_N height) in
  if negb (Qle_bool width maxSize) || negb (Qle_bool height maxSize) then
    let ratio := min_ratio maxSize width height in (width * ratio, height * ratio)
  else (width, height).

Definition isSVG (imgElement : Element) : bool :=
  truthy (src imgElement) &&
  (includes (src imgElement) ".svg"
   || includes (src imgElement) "data:image/svg"
   || String.eqb (tagName imgElement) "svg"
   || truthy (type imgElement) && includes (type imgElement) "svg").

(** The promise returned by a capture function. The executors call
    [resolve] only; [Rejected] is the state an exception escaping the
    executor would give. *)
Inductive Promise :=
| Unsettled
| Resolved (e : Encoded)
| Rejected.

Definition resolve (e : Encoded) (p : Promise) : Promise :=
  match p with
  | Unsettled => Resolved e
  | _ => p
  end.

(** The state of one capture call: its promise, whether the first image has
    finished loading ([img.complete]), whether a second image was created,
    whether an image built from the SVG text is loading, whether the
    [fetch] of an SVG file is under way, and whether the canvas that the
    handlers of the call share has lost its origin-clean flag. *)
Record Capture := mkCapture {
  promise : Promise;
  img_complete : bool;
  img2_created : bool;
  svg_img_created : bool;
  svg_fetching : bool;
  canvas_tainted : bool
}.

(** [resolve(e)] with an image encoded from a canvas that is origin-clean:
    a new canvas, or one whose [width] was just set, which clears the bitmap
    and resets the flag. *)
Definition resolving (e : Encoded) (c : Capture) : Capture :=
  mkCapture (resolve e (promise c)) (img_complete c) (img2_created c)
    (svg_img_created c) (svg_fetching c) (canvas_tainted c).

(** [resolve(canvas.toDataURL(...))] on the canvas the handlers share: on a
    canvas that is not origin-clean [toDataURL] throws a [SecurityError],
    and the exception leaves the handler before [resolve] is called. *)
Definition export (e : Encoded) (c : Capture) : Promise :=
  if canvas_tainted c then promise c else resolve e (promise c).

(** The callbacks of the host during a capture. The width and height of a
    loaded image are unsigned. [ImageLoaded] is the load of an image that
    leaves the canvas origin-clean when drawn: the first image, which is
    requested with [crossOrigin = 'anonymous'], or the second one when it
    comes from the origin of the page; [draw_throws] tells that [drawImage]
    throws. [CrossOriginImageLoaded] is the load of the second image, which
    is requested without [crossOrigin], from another origin: drawing it
    succeeds and clears the origin-clean flag of the canvas. On the SVG path
    the images are built from [data:] URLs, which leave the canvas
    origin-clean. *)
Inductive Callback :=
| ImageLoaded (second : bool) (width height : N) (draw_throws : bool)
| ImageError (second : bool)
| RetryTimer
| UltimateTimer
| SvgFetched (has_svg : bool) (serialize_throws : bool)
| SvgFetchFailed
| SvgImageLoaded (width height : N) (draw_throws : bool)
| SvgImageError
| SvgTimer
| CrossOriginImageLoaded (width height : N).

(** What the host can do when a capture function is entered: the set-up in
    the [try] block may throw. *)
Record Setup := mkSetup { setup_throws : bool; viewport : Viewport }.

Definition createImageFallback : Encoded := toDataURL 400 300 0.8 Placeholder.
Definition createSVGFallback : Encoded := toDataURL 400 300 0.8 Placeholder.

Definition draw_resized (width height : N) : Encoded :=
  let (w, h) := resize width height in toDataURL w h 0.8 SourceMedia.

(** [img.width || 200] *)
Definition or_200 (n : N) : N := if (n =? 0)%N then 200%N else n.

Definition captureSVGAsBase64_start (imgElement : Element) (s : Setup) : Capture :=
  if setup_throws s
  then mkCapture (Resolved (toDataURL 400 300 0.8 Placeholder)) false false false false false
  else if truthy (src imgElement) && negb (startsWith (src imgElement) "data:")
  then mkCapture Unsettled false false false true false
  else if truthy (src imgElement) && startsWith (src imgElement) "data:image/svg"
  then mkCapture Unsettled false false true false false
  else if String.eqb (tagName imgElement) "svg"
  then mkCapture Unsettled false false true false false
  else mkCapture (Resolved createSVGFallback) false false false false false.

(** [captureImageOnly] up to the return of its promise. *)
Definition captureImageOnly_start (imgElement : Element) (s : Setup) : Capture :=
  if isSVG imgElement then captureSVGAsBase64_start imgElement s
  else if setup_throws s
  then mkCapture (Resolved (toDataURL 300 200 0.8 Placeholder)) false false false false false
  else mkCapture Unsettled false false false false false.

(** The callbacks registered by [captureImageOnly] and
    [captureSVGAsBase64]. A callback the host has no reason to run leaves the
    capture as it is. Every handler of the isolated capture encodes from a
    canvas that is origin-clean: the load handlers set [canvas.width] before
    they draw, [createImageFallback] sets it again before it encodes, and
    [createSVGFallback] draws on a canvas of its own. A second image from
    another origin is drawn, [toDataURL] throws, and the [catch] block calls
    [createImageFallback]. *)
Definition captureImageOnly_on (imgElement : Element) (c : Capture) (cb : Callback) : Capture :=
  if isSVG imgElement then
    match cb with
    | SvgFetched has_svg serialize_throws =>
        if svg_fetching c then
          if has_svg then
            if serialize_throws
            then mkCapture (resolve createSVGFallback (promise c)) false false false false false
            else mkCapture (promise c) false false true false false
          else mkCapture (resolve createSVGFallback (promise c)) false false false false false
        else c
    | SvgFetchFailed =>
        if svg_fetching c
        then mkCapture (resolve createSVGFallback (promise c)) false false false false false
        else c
    | SvgImageLoaded width height draw_throws =>
        if svg_img_created c then
          if draw_throws then mkCapture (promise c) false false false false false
          else mkCapture (resolve (draw_resized (or_200 width) (or_200 height)) (promise c))
                 false false false false false
        else c
    | SvgImageError =>
        if svg_img_created c
        then mkCapture (resolve createSVGFallback (promise c)) false false false false false
        else c
    | SvgTimer => resolving createSVGFallback c
    | _ => c
    end
  else
    match cb with
    | ImageLoaded false width height draw_throws =>
        if img_complete c then c
        else mkCapture
               (resolve (if draw_throws then createImageFallback else draw_resized width height)
                        (promise c))
               true (img2_created c) false false false
    | ImageError false =>
        if img_complete c then c
        else mkCapture (resolve createImageFallback (promise c)) true (img2_created c)
               false false false
    | RetryTimer =>
        if img_complete c then c
        else mkCapture (promise c) (img_complete c) true false false false
    | ImageLoaded true width height draw_throws =>
        if img2_created c
        then resolving (if draw_throws then createImageFallback else draw_resized width height) c
        else c
    | CrossOriginImageLoaded _ _ =>
        if img2_created c then resolving createImageFallback c else c
    | ImageError true =>
        if img2_created c then resolving createImageFallback c else c
    | UltimateTimer => resolving createImageFallback c
    | _ => c
    end.

(** The canvas of [captureImageWithContext]: the margin is 1.5 times the
    larger side of the image. *)
Definition image_context_canvas (imgElement : Element) (vp : Viewport) : Q * Q :=
  let rect := rect imgElement in
  let margin := Qmax (width rect) (height rect) * 1.5 in
  context_canvas (width rect) (height rect) margin vp.

(** The canvas of [captureSVGContextAsBase64]. *)
Definition svg_context_canvas (imgElement : Element) (vp : Viewport) : Q * Q :=
  let rect := rect imgElement in
  let padding := 100 in
  let contextRect_width :=
    Qmin (innerWidth vp - left rect + padding) (width rect + padding * 2) in
  let contextRect_height :=
    Qmin (innerHeight vp - top rect + padding) (height rect + padding * 2) in
  (Qmin 800 contextRect_width, Qmin 600 contextRect_height).

Definition context_shot (canvas : Q * Q) (c : Content) : Encoded :=
  toDataURL canvas.1 canvas.2 0.6 c.

Definition captureSVGContextAsBase64_start (imgElement : Element) (s : Setup) : Capture :=
  if setup_throws s
  then mkCapture (Resolved (toDataURL 400 300 0.6 Placeholder)) false false false false false
  else if truthy (src imgElement) && negb (startsWith (src imgElement) "data:")
  then mkCapture Unsettled false false false true false
  else if truthy (src imgElement) && startsWith (src imgElement) "data:image/svg"
  then mkCapture Unsettled false false true false false
  else mkCapture (Resolved (context_shot (svg_context_canvas imgElement (viewport s)) Placeholder))
         false false false false false.

(** [captureImageWithContext] up to the return of its promise. *)
Definition captureImageWithContext_start (imgElement : Element) (s : Setup) : Capture :=
  if isSVG imgElement then captureSVGContextAsBase64_start imgElement s
  else if setup_throws s
  then mkCapture (Resolved (toDataURL 400 300 0.6 Placeholder)) false false false false false
  else mkCapture Unsettled false false false false false.

(** The callbacks registered by [captureImageWithContext] and
    [captureSVGContextAsBase64]. All handlers of a call draw on the one
    canvas made in the set-up and never set its size again: each of them,
    the [catch] blocks and the timer included, ends in
    [resolve(canvas.toDataURL(...))] on that canvas, which is [export]. When
    the second image comes from another origin, [drawImage] clears the
    origin-clean flag, [toDataURL] throws in the [try] block and again in the
    [catch] block, and the handler ends without [resolve]. *)
Definition captureImageWithContext_on (imgElement : Element) (vp : Viewport)
    (c : Capture) (cb : Callback) : Capture :=
  if isSVG imgElement then
    let shot := context_shot (svg_context_canvas imgElement vp) in
    match cb with
    | SvgFetched has_svg serialize_throws =>
        if svg_fetching c then
          if has_svg then
            if serialize_throws
            then mkCapture (export (shot Placeholder) c) false false false false
                   (canvas_tainted c)
            else mkCapture (promise c) false false true false (canvas_tainted c)
          else mkCapture (export (shot Placeholder) c) false false false false
                 (canvas_tainted c)
        else c
    | SvgFetchFailed =>
        if svg_fetching c
        then mkCapture (export (shot Placeholder) c) false false false false (canvas_tainted c)
        else c
    | SvgImageLoaded _ _ draw_throws =>
        if svg_img_created c then
          if draw_throws then mkCapture (promise c) false false false false (canvas_tainted c)
          else mkCapture (export (shot SourceMedia) c) false false false false
                 (canvas_tainted c)
        else c
    | SvgImageError =>
        if svg_img_created c
        then mkCapture (export (shot Placeholder) c) false false false false (canvas_tainted c)
        else c
    | SvgTimer =>
        mkCapture (export (shot Placeholder) c) (img_complete c) (img2_created c)
          (svg_img_created c) (svg_fetching c) (canvas_tainted c)
    | _ => c
    end
  else
    let shot := context_shot (image_context_canvas imgElement vp) in
    match cb with
    | ImageLoaded false _ _ draw_throws =>
        if img_complete c then c
        else mkCapture
               (export (shot (if draw_throws then Placeholder else SourceMedia)) c)
               true (img2_created c) false false (canvas_tainted c)
    | ImageError false =>
        if img_complete c then c
        else mkCapture (export (shot Placeholder) c) true (img2_created c) false false
               (canvas_tainted c)
    | RetryTimer =>
        if img_complete c then c
        else mkCapture (promise c) (img_complete c) true false false (canvas_tainted c)
    | ImageLoaded true _ _ draw_throws =>
        if img2_created c
        then mkCapture
               (export (shot (if draw_throws then Placeholder else SourceMedia)) c)
               (img_complete c) (img2_created c) (svg_img_created c) (svg_fetching c)
               (canvas_tainted c)
        else c
    | CrossOriginImageLoaded _ _ =>
        if img2_created c
        then mkCapture (promise c) (img_complete c) (img2_created c) (svg_img_created c)
               (svg_fetching c) true
        else c
    | ImageError true =>
        if img2_created c
        then mkCapture (export (shot Placeholder) c) (img_complete c) (img2_created c)
               (svg_img_created c) (svg_fetching c) (canvas_tainted c)
        else c
    | UltimateTimer =>
        mkCapture (export (shot Placeholder) c) (img_complete c) (img2_created c)
          (svg_img_created c) (svg_fetching c) (canvas_tainted c)
    | _ => c
    end.

(** The timer after which a capture of [imgElement] falls back: 5 seconds
    on the SVG path, 10 seconds otherwise. *)
Definition fallback_timer (imgElement : Element) : Callback :=
  if isSVG imgElement then SvgTimer else UltimateTimer.

(** A callback that hands the decoded source media to the capture. *)
Definition delivers_media (cb : Callback) : bool :=
  match cb with
  | ImageLoaded _ _ _ false => true
  | SvgImageLoaded _ _ false => true
  | _ => false
  end.

Definition captureImageOnly (imgElement : Element) (s : Setup) (cbs : list Callback) : Capture :=
  List.fold_left (captureImageOnly_on imgElement) cbs (captureImageOnly_start imgElement s).

Definition captureImageWithContext (imgElement : Element) (s : Setup) (cbs : list Callback)
  : Capture :=
  List.fold_left (captureImageWithContext_on imgElement (viewport s)) cbs
    (captureImageWithContext_start imgElement s).

End CaptureRenderer.
Import CaptureRenderer.

(** ** Pipeline orchestrator

    The content script runs on one thread. A world is the document, the
    toggle, and the runs in flight; an event is one callback of the host: the
    stored setting arrives, a toggle message arrives, the inference request
    of a task settles, the settling timer of a run fires, the analysis of a
    node ends. The timers that only clear outlines and remove loading
    indicators are presentation and are left out. *)
Module Orchestrator.

Local Open Scope script_scope.

Inductive Category := Image | FormField | Link.

Inductive TaskPhase := Generate | Analyze.

Inductive Status :=
| Pending
| Fulfilled (success : bool)
| Rejected (e : JSError).

Record Task := mkTask { node : nat; status : Status }.

Inductive Phase :=
| GenerationFanOut
| Settling
| AnalysisFanOut
| Idle
| Failed (e : JSError).

Record Run := mkRun {
  category : Category;
  phase : Phase;
  generation : list Task;
  analysis : list Task
}.

(** What the status interface is told, newest first. *)
Inductive Happening :=
| Launched (run : nat) (ph : TaskPhase) (task : nat) (n : nat)
| Settled (run : nat) (ph : TaskPhase) (task : nat) (st : Status).

Record World := mkWorld {
  document : Document;
  isEnabled : bool;
  runs : list Run;
  log : list Happening
}.

(** [nodes.map(async (el) => { mark(el); ...; await ... })]: every callback
    runs up to its first [await], in order. *)
Definition fan_out (mark : Element -> Element) (nodes : list Element) (doc : Document)
  : Document * list Task :=
  (for_each nodes (fun n => update n mark) doc,
   List.map (fun el => mkTask (nid el) Pending) nodes).

Definition launches (r : nat) (ph : TaskPhase) (tasks : list Task) : list Happening :=
  reverse (imap (fun i t => Launched r ph i (node t)) tasks).

(** The synchronous part of [highlightImages], up to [await Promise.all]. *)
Definition highlightImages (doc : Document) : Document * list Task :=
  let allImages := querySelectorAll sel_images doc in
  let missingAltImages := List.filter (needsAltText doc) allImages in
  fan_out (fun img => classList_add "ai-alt-highlight" (setStyle "border" "3px solid orange" img))
          missingAltImages doc.

Definition highlightFormFields (doc : Document) : Document * list Task :=
  let allInputs := querySelectorAll sel_form_fields doc in
  let unlabeledInputs := List.filter (needsLabel doc) allInputs in
  fan_out (fun input => classList_add "ai-form-highlight" (setStyle "outline" "3px solid orange" input))
          unlabeledInputs doc.

Definition highlightLinks (doc : Document) : Document * list Task :=
  let allLinks := querySelectorAll sel_links doc in
  let vagueLinkTexts := List.filter needsBetterLinkText allLinks in
  fan_out (fun link => classList_add "ai-link-highlight" (setStyle "outline" "3px solid orange" link))
          vagueLinkTexts doc.

(** The [try]/[catch] of a generation task of [highlightImages], from the
    point where [await generateAltText(img)] is over. *)
Definition image_generation_task (n : nat) (generated : completion string) : Script bool :=
  try_catch
    (altText <- lift generated ;;
     write (update n (setAttribute "alt" altText)) ;;;
     write (update n (setStyle "border" "3px solid green")) ;;;
     ret true)
    (fun _ =>
     write (update n (setStyle "border" "3px solid red")) ;;;
     ret false).

Definition form_generation_task (n : nat) (generated : completion JSValue) (stamp : string)
  : Script bool :=
  try_catch
    (result <- lift generated ;;
     label <- lift (get result "label") ;;
     input <- element n ;;
     visible <- read (fun doc => hasVisibleLabel doc input) ;;
     when (js_truthy label && negb visible)
          (addGeneratedLabel n (ToString label) stamp) ;;;
     aria_label <- lift (get result "aria_label") ;;
     input <- element n ;;
     when (js_truthy aria_label && negb (attr_truthy (getAttribute input "aria-label")))
          (write (update n (setAttribute "aria-label" (ToString aria_label)))) ;;;
     write (update n (setStyle "outline" "3px solid green")) ;;;
     ret true)
    (fun _ =>
     write (update n (setStyle "outline" "3px solid red")) ;;;
     ret false).

Definition link_generation_task (n : nat) (generated : completion JSValue) : Script bool :=
  try_catch
    (result <- lift generated ;;
     suggested_text <- lift (get result "suggested_text") ;;
     when (js_truthy suggested_text)
          (addGeneratedLinkText n (ToString suggested_text)) ;;;
     aria_label <- lift (get result "aria_label") ;;
     link <- element n ;;
     when (js_truthy aria_label && negb (attr_truthy (getAttribute link "aria-label")))
          (write (update n (setAttribute "aria-label" (ToString aria_label)))) ;;;
     write (update n (setStyle "outline" "3px solid green")) ;;;
     ret true)
    (fun _ =>
     write (update n (setStyle "outline" "3px solid red")) ;;;
     ret false).

(** The generation task of a node once its inference request has settled
    with [o]. *)
Definition generation_task (c : Category) (n : nat) (o : FetchOutcome) (stamp : string)
  : Script bool :=
  match c with
  | Image =>
      img <- element n ;;
      image_generation_task n (Normal (result_of (generateAltText img) o))
  | FormField => form_generation_task n (generateFormFieldHelp o) stamp
  | Link => link_generation_task n (generateLinkText o)
  end.

(** The synchronous part of [analyzeAllImages]. *)
Definition analyzeAllImages (doc : Document) : Document * list Task :=
  let allImages := querySelectorAll sel_images doc in
  let imagesToAnalyze := List.filter hasExistingAltText allImages in
  fan_out (fun img => classList_add "ai-alt-analysis" (setStyle "border" "3px solid blue" img))
          imagesToAnalyze doc.

Definition analyzeAllFormFields (doc : Document) : Document * list Task :=
  let allInputs := querySelectorAll sel_form_fields doc in
  let inputsToAnalyze := List.filter analyzable_field allInputs in
  fan_out (fun input => classList_add "ai-form-analysis" (setStyle "outline" "3px solid blue" input))
          inputsToAnalyze doc.

(** The function a run calls when its settling timer fires. The content
    script defines no [analyzeAllLinks]: calling it is a [ReferenceError]. *)
Definition analysis_entry (c : Category) : option (Document -> Document * list Task) :=
  match c with
  | Image => Some analyzeAllImages
  | FormField => Some analyzeAllFormFields
  | Link => None
  end.

(** How the [try] block of an analysis task ended: it threw, or it ran to its
    end and left the outline in a colour chosen from the analysis. *)
Inductive AnalysisEnd :=
| AnalysisThrew
| AnalysisShown (colour : string).

Definition analysis_task (c : Category) (n : nat) (a : AnalysisEnd) : Script bool :=
  let prop := match c with Image => "border" | _ => "outline" end in
  match a with
  | AnalysisShown colour => write (update n (setStyle prop ("3px solid " +:+ colour))) ;;; ret true
  | AnalysisThrew => write (update n (setStyle prop "3px solid red")) ;;; ret false
  end.


Definition with_phase (p : Phase) (run : Run) : Run :=
  mkRun (category run) p (generation run) (analysis run).

Definition with_tasks (ph : TaskPhase) (f : list Task -> list Task) (run : Run) : Run :=
  match ph with
  | Generate => mkRun (category run) (phase run) (f (generation run)) (analysis run)
  | Analyze => mkRun (category run) (phase run) (generation run) (f (analysis run))
  end.

Definition tasks_of (ph : TaskPhase) (run : Run) : list Task :=
  match ph with
  | Generate => generation run
  | Analyze => analysis run
  end.

Definition is_fulfilled (t : Task) : bool :=
  match status t with Fulfilled _ => true | _ => false end.

Definition first_rejection (ts : list Task) : option JSError :=
  match List.find (fun t => match status t with Rejected _ => true | _ => false end) ts with
  | Some (mkTask _ (Rejected e)) => Some e
  | _ => None
  end.

(** [await Promise.all(promises)]: rejected with the first rejection, resumed
    when every promise is fulfilled. *)
Definition await_all (ts : list Task) (next : Phase) (run : Run) : Run :=
  match first_rejection ts with
  | Some e => with_phase (Failed e) run
  | None => if forallb is_fulfilled ts then with_phase next run else run
  end.

(** The step of a run past the [await] it is at. After the generation batch
    comes [setTimeout(..., 1000)], after the analysis batch the end. *)
Definition barrier (run : Run) : Run :=
  match phase run with
  | GenerationFanOut => await_all (generation run) Settling run
  | AnalysisFanOut => await_all (analysis run) Idle run
  | _ => run
  end.

Definition status_of (c : completion bool) : Status :=
  match c with
  | Normal success => Fulfilled success
  | Throw e => Rejected e
  end.

(** The rest of the async callback of task [i] of run [r] is run. *)
Definition settle (r i : nat) (ph : TaskPhase) (body : Script bool) (w : World) : World :=
  let '(doc, c) := body (document w) in
  let st := status_of c in
  mkWorld doc (isEnabled w)
    (alter (fun run => barrier (with_tasks ph (alter (fun t => mkTask (node t) st) i) run))
           r (runs w))
    (Settled r ph i st :: log w).

(** A call of [highlightImages], [highlightFormFields] or [highlightLinks]
    up to its [await]. *)
Definition start_run (c : Category) (launch : Document -> Document * list Task) (w : World)
  : World :=
  let '(doc, tasks) := launch (document w) in
  mkWorld doc (isEnabled w)
    (runs w ++ [mkRun c GenerationFanOut tasks []])
    (launches (List.length (runs w)) Generate tasks ++ log w).

(** The tasks of image run [r] whose [generateAltText] returned without a
    request continue as soon as the callback that started them is over. *)
Definition continue_immediate (r : nat) (w : World) (it : nat * Task) : World :=
  let img := the (document w) (node it.2) in
  match generateAltText img with
  | Now altText => settle r it.1 Generate (image_generation_task (node it.2) (Normal altText)) w
  | AfterFetch _ => w
  end.

Definition drain (r : nat) (w : World) : World :=
  match runs w !! r with
  | Some run => List.fold_left (continue_immediate r) (imap pair (generation run)) w
  | None => w
  end.

Definition pass_barriers (w : World) : World :=
  mkWorld (document w) (isEnabled w) (barrier <$> runs w) (log w).

(** [highlightImages(); highlightFormFields(); highlightLinks();] *)
Definition activate (w : World) : World :=
  let r := List.length (runs w) in
  pass_barriers
    (drain r
       (start_run Link highlightLinks
          (start_run FormField highlightFormFields
             (start_run Image highlightImages w)))).

(** [removeHighlights(); removeFormHighlights(); removeLinkHighlights();] *)
Definition deactivate (w : World) : World :=
  mkWorld (removeLinkHighlights (removeFormHighlights (removeHighlights (document w))))
    (isEnabled w) (runs w) (log w).

Definition set_enabled (b : bool) (w : World) : World :=
  mkWorld (document w) b (runs w) (log w).

(** The callback of [setTimeout(async () => { await analyzeAllX(); }, 1000)]. *)
Definition start_analysis (r : nat) (run : Run) (w : World) : World :=
  match analysis_entry (category run) with
  | None =>
      mkWorld (document w) (isEnabled w)
        (<[r := with_phase (Failed ReferenceError) run]> (runs w)) (log w)
  | Some analyzeAll =>
      let '(doc, tasks) := analyzeAll (document w) in
      mkWorld doc (isEnabled w)
        (<[r := barrier (mkRun (category run) AnalysisFanOut (generation run) tasks)]> (runs w))
        (launches r Analyze tasks ++ log w)
  end.

Inductive Event :=
| StorageLoaded (enabled : option bool)
| ToggleMessage (enabled : bool)
| GenerationResponse (r i : nat) (o : FetchOutcome) (stamp : string)
| SettleTimer (r : nat)
| AnalysisDone (r i : nat) (a : AnalysisEnd).

Definition pending_task (w : World) (r i : nat) (ph : TaskPhase) : option (Run * Task) :=
  match runs w !! r with
  | Some run =>
      match tasks_of ph run !! i with
      | Some t => match status t with Pending => Some (run, t) | _ => None end
      | None => None
      end
  | None => None
  end.

(** One callback of the host; [None] when the host cannot deliver it. *)
Definition step (w : World) (ev : Event) : option World :=
  match ev with
  | StorageLoaded enabled =>
      let on := negb (bool_decide (enabled = Some false)) in
      Some (if on then activate (set_enabled on w) else set_enabled on w)
  | ToggleMessage enabled =>
      Some (if enabled then activate (set_enabled enabled w)
            else deactivate (set_enabled enabled w))
  | GenerationResponse r i o stamp =>
      match pending_task w r i Generate with
      | Some (run, t) =>
          Some (settle r i Generate (generation_task (category run) (node t) o stamp) w)
      | None => None
      end
  | SettleTimer r =>
      match runs w !! r with
      | Some run =>
          match phase run with
          | Settling => Some (start_analysis r run w)
          | _ => None
          end
      | None => None
      end
  | AnalysisDone r i a =>
      match pending_task w r i Analyze with
      | Some (run, t) =>
          Some (settle r i Analyze (analysis_task (category run) (node t) a) w)
      | None => None
      end
  end.

Fixpoint steps (w : World) (evs : list Event) : option World :=
  match evs with
  | [] => Some w
  | ev :: rest =>
      match step w ev with
      | Some w' => steps w' rest
      | None => None
      end
  end.

(** The content script as loaded: [let isEnabled = true;]. *)
Definition loaded (doc : Document) : World := mkWorld doc true [] [].

End Orchestrator.
Import Orchestrator.

(** ** The invariant behind the order of the phases *)
Module PhaseOrder.

Definition run_of (h : Happening) : nat :=
  match h with
  | Launched r _ _ _ => r
  | Settled r _ _ _ => r
  end.

(** Every generation task of the run is fulfilled. *)
Definition gen_done (run : Run) : Prop :=
  forall t, t ∈ generation run -> is_fulfilled t = true.

(** No generation task of the run is rejected. *)
Definition gen_clean (run : Run) : Prop :=
  forall t e, t ∈ generation run -> status t <> Rejected e.

(** The generation tasks of run [r] were all launched and settled in
    [earlier], and none is launched in [later]. *)
Definition generation_before (r : nat) (run : Run) (later earlier : list Happening) : Prop :=
  (forall j t, generation run !! j = Some t ->
     Launched r Generate j (node t) ∈ earlier /\
     exists success, status t = Fulfilled success /\
                     Settled r Generate j (Fulfilled success) ∈ earlier) /\
  (forall j m, Launched r Generate j m ∉ later).

Record Inv (R : list Run) (L : list Happening) : Prop := mkInv {
  inv_done : forall r run, R !! r = Some run -> phase run <> GenerationFanOut -> gen_done run;
  inv_clean : forall r run, R !! r = Some run -> gen_clean run;
  inv_logged : forall r run j t, R !! r = Some run -> generation run !! j = Some t ->
    Launched r Generate j (node t) ∈ L /\
    forall success, status t = Fulfilled success ->
                    Settled r Generate j (Fulfilled success) ∈ L;
  inv_runs : forall h, h ∈ L -> run_of h < List.length R;
  inv_phase : forall r run i n, R !! r = Some run -> Launched r Analyze i n ∈ L ->
    phase run <> GenerationFanOut;
  inv_order : forall r run later earlier i n, R !! r = Some run ->
    L = later ++ Launched r Analyze i n :: earlier ->
    generation_before r run later earlier
}.

(** A run moves on without touching its generation tasks. *)
Definition advances (run run' : Run) : Prop :=
  generation run' = generation run /\
  (phase run <> GenerationFanOut -> phase run' <> GenerationFanOut) /\
  (phase run' <> GenerationFanOut -> phase run <> GenerationFanOut \/ gen_done run).

(** No analysis task belongs to a link run, in the runs or in the log. *)
Definition no_link_analysis (R : list Run) (L : list Happening) : Prop :=
  (forall r run, R !! r = Some run -> category run = Link -> analysis run = []) /\
  (forall r i n, Launched r Analyze i n ∈ L ->
     exists run, R !! r = Some run /\ category run <> Link).

(** A change of a run that keeps its category and adds no analysis task
    to a run that has none. *)
Definition keeps_analysis (g : Run -> Run) : Prop :=
  forall run, category (g run) = category run /\
              (analysis run = [] -> analysis (g run) = []).

End PhaseOrder.
Import PhaseOrder.

(** ** A small page used in the worked examples *)
Module Samples.

Definition html (n : nat) (p : option nat) (tag ty : string)
    (attrs : list (string * string)) (text : string) (nw nh : Z) (r : Rect) : Element :=
  mkElement n true p tag "" ty "" "" false (list_to_map attrs) text text [] ∅ "" nw nh r.

Definition box (w h : Q) : Rect := mkRect 0 0 w h.

(** A link [<a href="/page">text</a>]. *)
Definition anchor (text : string) : Element :=
  html 3 (Some 0%nat) "A" "" [("href", "/page")] text 0 0 (box 80 20).

(** An image without [alt], of the given natural size. *)
Definition picture (n : nat) (w h : Z) : Element :=
  html n (Some 0%nat) "IMG" "" [] "" w h (box (inject_Z w) (inject_Z h)).

(** A photo served by another origin. *)
Definition remote_photo : Element :=
  mkElement 1 true (Some 0%nat) "IMG" "" "" "" "" false ∅ "" "" [] ∅
    "https://cdn.example.com/photo.jpg" 200 100 (box 200 100).

(** A text input without any label. *)
Definition email_input (n : nat) (w : Q) : Element :=
  html n (Some 0%nat) "INPUT" "email" [] "" 0 0 (box w 20).

Definition body : Element := html 0 None "BODY" "" [] "" 0 0 (box 1024 768).

(** A response with an ok status whose message content parses to [v]. *)
Definition ok_response (v : JSValue) : FetchOutcome :=
  Response true 200 "OK" (MessageContent (Parsed v)).

(** The value of an attribute of element [n] after the events [evs]. *)
Definition attribute_after (doc : Document) (evs : list Event) (n : nat) (name : string)
  : option string :=
  match steps (loaded doc) evs with
  | Some w =>
      match getElement (document w) n with
      | Some e => getAttribute e name
      | None => None
      end
  | None => None
  end.

Definition style_after (doc : Document) (evs : list Event) (n : nat) (prop : string)
  : option string :=
  match steps (loaded doc) evs with
  | Some w =>
      match getElement (document w) n with
      | Some e => style e !! prop
      | None => None
      end
  | None => None
  end.

Definition runs_after (doc : Document) (evs : list Event) : list Run :=
  match steps (loaded doc) evs with
  | Some w => runs w
  | None => []
  end.

Definition log_after (doc : Document) (evs : list Event) : list Happening :=
  match steps (loaded doc) evs with
  | Some w => log w
  | None => []
  end.

(** The text of the label associated with element [n] after the events. *)
Definition label_text_after (doc : Document) (evs : list Event) (n : nat) : option string :=
  match steps (loaded doc) evs with
  | Some w =>
      match getElement (document w) n with
      | Some e => textContent <$> querySelector (sel_label_for (id e)) (document w)
      | None => None
      end
  | None => None
  end.

Definition enabled_after (doc : Document) (evs : list Event) : option bool :=
  isEnabled <$> steps (loaded doc) evs.

Definition email_help : JSValue :=
  JObj [ ("field_purpose", JStr "Collects the e-mail address");
         ("input_type", JStr "email");
         ("label", JStr "Email address");
         ("aria_label", JStr "Email address") ].

Definition pricing_link_text : JSValue :=
  JObj [ ("current_text_analysis", JStr "The text does not say where the link goes");
         ("link_purpose", JStr "Opens the pricing page");
         ("suggested_text", JStr "View pricing plans");
         ("aria_label", JStr "View pricing plans");
         ("improvement_reasoning", JStr "Names the destination") ].

Definition bicycle_alt_text : JSValue :=
  JObj [ ("classification", JStr "simple_informative");
         ("alt_text", JStr "A red bicycle");
         ("reasoning", JStr "A product photo") ].

(** The world after the events, or the loaded script when the host cannot
    deliver them. *)
Definition world_after (doc : Document) (evs : list Event) : World :=
  default (loaded doc) (steps (loaded doc) evs).

(** A page with one image; its description is generated, then the settling
    timer of the image run fires. *)
Definition gallery : Document := [body; picture 1 200 100].

Definition gallery_events : list Event :=
  [ StorageLoaded None;
    GenerationResponse 0 0 (ok_response bicycle_alt_text) "";
    SettleTimer 0 ].

End Samples.
Import Samples.

(** ** The label a field has, as the accessibility analysis reads it *)
Module FormContext.

Definition getCurrentLabel (doc : Document) (inputElement : Element) : string :=
  match (if truthy (id inputElement)
         then querySelector (sel_label_for (id inputElement)) doc
         else None) with
  | Some label => trim (textContent label)
  | None =>
      match closest doc "LABEL" inputElement with
      | Some parentLabel =>
          trim (remove_first (textContent parentLabel) (or_else (value inputElement) ""))
      | None =>
          if attr_truthy (getAttribute inputElement "aria-label")
          then trim (attr_or_empty (getAttribute inputElement "aria-label"))
          else
            let ariaLabelledBy := getAttribute inputElement "aria-labelledby" in
            if attr_truthy ariaLabelledBy
            then match getElementById doc (attr_or_empty ariaLabelledBy) with
                 | Some labelElement => trim (textContent labelElement)
                 | None => ""
                 end
            else ""
      end
  end.

End FormContext.
Import FormContext.

(** ** The popup (popup.js)

    One popup session: the stored setting is read once when the popup
    opens, into the constant [isEnabled] of the listener's closure; every
    click on the button runs the same handler. The calls of
    [chrome.storage.sync] and [chrome.tabs] are taken to succeed. *)
Module Popup.

Record Button := mkButton { textContent : string; className : string }.

Record Session := mkSession {
  storage : option bool;   (* [enabled] in [chrome.storage.sync]; [None]: not set *)
  isEnabled : bool;        (* [const isEnabled] *)
  toggleBtn : Button;
  sent : list bool         (* the [enabled] flags of the toggle messages sent, oldest first *)
}.

Definition updateButton (enabled : bool) : Button :=
  mkButton (if enabled then "Disable" else "Enable")
           (if enabled then "enabled" else "disabled").

(** The [DOMContentLoaded] listener up to the registration of the click
    handler. *)
Definition DOMContentLoaded (stored : option bool) : Session :=
  let isEnabled := negb (bool_decide (stored = Some false)) in
  mkSession stored isEnabled (updateButton isEnabled) [].

(** The click handler. *)
Definition click (s : Session) : Session :=
  let newState := negb (isEnabled s) in
  mkSession (Some newState) (isEnabled s) (updateButton newState) (sent s ++ [newState]).

Definition clicks (n : nat) (s : Session) : Session := Nat.iter n click s.

End Popup.

(** ** What a change of the document keeps of its elements *)
Module Keeps.

(** [e'] is the element object [e] at a later time: its attributes, text,
    [id] and tag are as they were, and it has not been put back into the
    document. *)
Record keeps_content (e e' : Element) : Prop := mkKeeps {
  keeps_nid : nid e' = nid e;
  keeps_attributes : attributes e' = attributes e;
  keeps_textContent : Dom.textContent e' = Dom.textContent e;
  keeps_id : id e' = id e;
  keeps_tagName : tagName e' = tagName e;
  keeps_connected : connected e' = true -> connected e = true
}.

(** The body of the loop of [removeLinkHighlights] over the marked
    elements, for the element with identity [m]. *)
Definition restore_link (m : nat) (d : Document) : Document :=
  let d := match getElement d m with
           | Some link =>
               match getAttribute link "data-original-text" with
               | Some originalText =>
                   if truthy originalText then set_textContent m originalText d else d
               | None => d
               end
           | None => d
           end in
  update m (fun link => removeAttribute "data-ai-generated"
                          (removeAttribute "data-original-text"
                             (removeAttribute "title" link))) d.

(** The link with identity [n] while it waits for the loop of
    [removeLinkHighlights] that restores the texts, and after its turn. *)
Definition awaits_restoring (n : nat) (originalText text : string) (d : Document) : Prop :=
  exists x, getElement d n = Some x /\
            getAttribute x "data-original-text" = Some originalText /\
            Dom.textContent x = text.

Definition restored (n : nat) (text : string) (d : Document) : Prop :=
  exists x, getElement d n = Some x /\
            Dom.textContent x = text /\
            getAttribute x "data-ai-generated" = None /\
            getAttribute x "data-original-text" = None /\
            getAttribute x "title" = None.

End Keeps.
Import Keeps.

(** * Properties *)

(** ** Strings *)

Lemma append_cons (x : ascii) (a b : string) : String x a +:+ b = String x (a +:+ b).
Proof. reflexivity. Qed.

Lemma append_empty_l (a : string) : "" +:+ a = a.
Proof. reflexivity. Qed.

Lemma append_assoc (a b c : string) : (a +:+ b) +:+ c = a +:+ (b +:+ c).
Proof.
  induction a as [|x a IH]; [reflexivity|].
  now rewrite !append_cons, IH.
Qed.

Lemma append_empty_r (a : string) : a +:+ "" = a.
Proof.
  induction a as [|x a IH]; [reflexivity|].
  now rewrite append_cons, IH.
Qed.

Lemma prefix_append (w post : string) : String.prefix w (w +:+ post) = true.
Proof.
  induction w as [|x w IH].
  - rewrite append_empty_l. now destruct post.
  - rewrite append_cons. simpl.
    destruct (ascii_dec x x) as [_|ne]; [exact IH | now destruct ne].
Qed.

Lemma includes_here (s w : string) : String.prefix w s = true -> includes s w = true.
Proof. intros H. destruct s; unfold includes; fold includes; rewrite H; reflexivity. Qed.

Lemma includes_middle (pre w post : string) : includes (pre +:+ w +:+ post) w = true.
Proof.
  induction pre as [|x pre IH].
  - rewrite append_empty_l. apply includes_here, prefix_append.
  - rewrite append_cons. simpl. rewrite IH. apply orb_true_r.
Qed.

Lemma includes_self (s : string) : includes s s = true.
Proof.
  generalize (includes_middle "" s ""). now rewrite append_empty_l, append_empty_r.
Qed.

(** Every piece returned by the split is a piece of the text. *)
Lemma split_ws_from_pieces (s : string) :
  forall sep cur w, In w (split_ws_from sep cur s) ->
  exists pre post, cur +:+ s = pre +:+ w +:+ post.
Proof.
  induction s as [|c r IH]; intros sep cur w Hin; simpl in Hin.
  - destruct Hin as [<-|[]]. exists "", "". now rewrite append_empty_l.
  - destruct (is_white_space c).
    + assert (Hrest : In w (split_ws_from true "" r) ->
                      exists pre post, cur +:+ String c r = pre +:+ w +:+ post).
      { intros H. destruct (IH _ _ _ H) as (pre & post & E).
        rewrite append_empty_l in E.
        exists (cur +:+ String c pre), post.
        now rewrite append_assoc, append_cons, E. }
      destruct sep; [auto|].
      destruct Hin as [<-|Hin]; [|auto].
      exists "", (String c r). now rewrite append_empty_l.
    + destruct (IH _ _ _ Hin) as (pre & post & E).
      exists pre, post. now rewrite <- E, append_assoc.
Qed.

Lemma split_ws_includes (s w : string) : In w (split_ws s) -> includes s w = true.
Proof.
  intros Hin. destruct (split_ws_from_pieces s false "" w Hin) as (pre & post & E).
  rewrite append_empty_l in E. rewrite E. apply includes_middle.
Qed.

Lemma trim_truthy (s : string) : truthy (trim s) = true -> truthy s = true.
Proof. destruct s; [discriminate | reflexivity]. Qed.

(** ** The link classifier *)

(** The test for vagueness is the containment test alone: the equality with
    a phrase and the word-by-word comparison are covered by it. *)
Lemma isVague_is_containment (lowerText : string) (patterns : list string) :
  existsb (fun pattern =>
             String.eqb lowerText pattern
             || includes lowerText pattern
             || existsb (fun word => String.eqb word pattern) (split_ws lowerText))
          patterns
  = existsb (fun pattern => includes lowerText pattern) patterns.
Proof.
  induction patterns as [|p ps IH]; simpl; [reflexivity|].
  rewrite IH. f_equal.
  destruct (includes lowerText p) eqn:Hinc.
  - now rewrite orb_true_r.
  - rewrite orb_false_r.
    destruct (String.eqb_spec lowerText p) as [->|_].
    + now rewrite includes_self in Hinc.
    + simpl. apply not_true_is_false. intros Hex.
      apply existsb_exists in Hex. destruct Hex as (w & Hin & Hw).
      apply String.eqb_eq in Hw. subst w.
      apply split_ws_includes in Hin. congruence.
Qed.

(** C3, as the specification states it, fails: the text it lists as not
    needing generation has three words and contains the lexicon entry
    [contact]. *)
Lemma C3_counterexample :
  ~ (needsBetterLinkText (anchor "click here") = true /\
     needsBetterLinkText (anchor "here") = true /\
     needsBetterLinkText (anchor "read more") = true /\
     needsBetterLinkText (anchor "Shipping Address") = false /\
     needsBetterLinkText (anchor "Contact support team") = false).
Proof. intros (_ & _ & _ & _ & H). vm_compute in H. discriminate. Qed.

(** C3 (amended): a link that has text is marked for generation exactly
    when the text has at most three words and contains a phrase of the vague
    lexicon, or has at most eight characters and contains no descriptive
    word; a link without text is skipped. "click here", "here", "read more"
    and "Contact support team" are marked, "Shipping Address" is not. *)
Theorem link_needs_generation_iff :
  (forall link : Element,
     let linkText := getLinkText link in
     let lowerText := trim (toLowerCase linkText) in
     needsBetterLinkText link =
       truthy (trim linkText) &&
       ((List.length (split_ws lowerText) <=? 3)%nat
          && existsb (fun phrase => includes lowerText phrase) vaguePatterns
        || (String.length linkText <=? 8)%nat
          && negb (existsb (fun word => includes lowerText word) descriptiveWords))) /\
  needsBetterLinkText (anchor "click here") = true /\
  needsBetterLinkText (anchor "here") = true /\
  needsBetterLinkText (anchor "read more") = true /\
  needsBetterLinkText (anchor "Contact support team") = true /\
  needsBetterLinkText (anchor "Shipping Address") = false /\
  needsBetterLinkText (anchor "") = false.
Proof.
  split; [|repeat split; vm_compute; reflexivity].
  intros link linkText lowerText. unfold needsBetterLinkText, needsBetterText.
  fold linkText. fold lowerText.
  rewrite isVague_is_containment.
  set (vague := (List.length (split_ws lowerText) <=? 3)%nat
                && existsb (fun pattern => includes lowerText pattern) vaguePatterns).
  unfold isDescriptiveLinkText. fold lowerText.
  set (descriptive := existsb (fun word => includes lowerText word) descriptiveWords).
  destruct (truthy (trim linkText)) eqn:Ht.
  - rewrite (trim_truthy _ Ht).
    destruct vague; [reflexivity|].
    destruct (String.length linkText <=? 8)%nat eqn:Hlen; [|reflexivity].
    apply Nat.leb_le in Hlen.
    replace (15 <? String.length linkText)%nat with false
      by (symmetry; apply Nat.ltb_ge; lia).
    now destruct descriptive.
  - now rewrite orb_true_r.
Qed.

(** ** The inference client *)

(** The functions that end in [return JSON.parse(...)] and rethrow. *)
Lemma read_structured_returns (o : FetchOutcome) (v : JSValue) :
  read_structured o = Normal v <->
  exists status statusText, o = Response true status statusText (MessageContent (Parsed v)).
Proof.
  split.
  - destruct o as [|ok status statusText body]; simpl; [discriminate|].
    destruct ok; simpl; [|discriminate].
    destruct body as [| |[|w]]; try discriminate.
    intros [= ->]. eauto.
  - intros (status & statusText & ->). reflexivity.
Qed.

Lemma read_structured_throws (o : FetchOutcome) (e : JSError) :
  read_structured o = Throw e ->
  e = NetworkError \/ (exists status statusText, e = HttpError status statusText)
  \/ e = TypeError \/ e = SyntaxError.
Proof.
  destruct o as [|ok status statusText body]; simpl.
  - intros [= <-]. auto.
  - destruct ok; simpl.
    + destruct body as [| |[|w]]; intros [= <-]; auto.
    + intros [= <-]. eauto.
Qed.

Lemma rethrow_id {A} (c : completion A) : rethrow c = c.
Proof. now destruct c. Qed.

Lemma generateAltText_payload (img : Element) (status : Z) (statusText : string)
    (payload : JSValue) :
  result_of (generateAltText img)
            (Response true status statusText (MessageContent (Parsed payload)))
  = if too_small img then "Decorative image" else alt_text_of payload.
Proof.
  unfold generateAltText, alt_text_of. destruct (too_small img); [reflexivity|].
  simpl. destruct payload as [| |b|n|s|l|fields]; try reflexivity. simpl.
  destruct (default JUndefined (assoc "alt_text" fields)) as [| |b|n|s|l|fs] eqn:Ea; simpl.
  - now rewrite orb_true_r.
  - now rewrite orb_true_r.
  - destruct b; simpl; [|now rewrite orb_true_r].
    now destruct (strict_eq_str _ "decorative").
  - destruct (n =? 0)%Z; simpl; [now rewrite orb_true_r|].
    now destruct (strict_eq_str _ "decorative").
  - destruct s as [|c s]; simpl; [now rewrite orb_true_r|].
    now destruct (strict_eq_str _ "decorative").
  - now destruct (strict_eq_str _ "decorative").
  - now destruct (strict_eq_str _ "decorative").
Qed.

Lemma generateAltText_failure (img : Element) (o : FetchOutcome) (e : JSError) :
  read_structured o = Throw e ->
  result_of (generateAltText img) o
  = if too_small img then "Decorative image" else "AI-generated description unavailable".
Proof.
  intros H. unfold generateAltText. destruct (too_small img); [reflexivity|].
  simpl. now rewrite H.
Qed.

(** C1, as the specification states it, fails: after an ok response whose
    content is the object with the single field [label], the client returns
    that object to its caller although three required fields of the
    [form_field_help] schema are missing. *)
Lemma C1_counterexample :
  generateFormFieldHelp (ok_response (JObj [("label", JStr "Email")]))
  = Normal (JObj [("label", JStr "Email")]) /\
  spec_revalidates form_field_help (JObj [("label", JStr "Email")]) = false.
Proof. split; reflexivity. Qed.

(** C1 (amended): after a transport-successful response the client parses
    the message content and returns the parsed value as it is, without
    re-validating any field and without a schema-violation error. The
    form-field, link and analysis calls return [v] exactly when the response
    is ok and its content parses to [v], and otherwise rethrow the network,
    HTTP-status, access or parse error. Image generation never fails: of
    the payload it reads [classification] and [alt_text] only, and it turns
    every failure into a fixed description. *)
Theorem inference_returns_parsed_payload_unvalidated :
  Forall (fun call : FetchOutcome -> completion JSValue =>
            forall o : FetchOutcome,
              (forall v, call o = Normal v <->
                 exists status statusText,
                   o = Response true status statusText (MessageContent (Parsed v))) /\
              (forall e, call o = Throw e ->
                 e = NetworkError
                 \/ (exists status statusText, e = HttpError status statusText)
                 \/ e = TypeError \/ e = SyntaxError))
         [generateFormFieldHelp; analyzeFormFieldAccessibility;
          analyzeExistingAltText; generateLinkText] /\
  (forall (img : Element) (status : Z) (statusText : string) (payload : JSValue),
     result_of (generateAltText img)
               (Response true status statusText (MessageContent (Parsed payload)))
     = if too_small img then "Decorative image" else alt_text_of payload) /\
  (forall (img : Element) (o : FetchOutcome),
     match read_structured o with
     | Throw _ =>
         result_of (generateAltText img) o
         = if too_small img then "Decorative image"
           else "AI-generated description unavailable"
     | Normal _ => True
     end).
Proof.
  split; [|split].
  - repeat (apply List.Forall_cons;
              [intros o;
               unfold generateFormFieldHelp, analyzeFormFieldAccessibility,
                      analyzeExistingAltText, generateLinkText;
               rewrite rethrow_id;
               split; [intros v; apply read_structured_returns
                      | intros e; apply read_structured_throws]|]).
    apply List.Forall_nil.
  - apply generateAltText_payload.
  - intros img o. destruct (read_structured o) eqn:E; [exact I|].
    eapply generateAltText_failure, E.
Qed.

(** ** Decorative images *)

(** A result classified as decorative gives the empty description, whatever
    text the payload carries. *)
Lemma decorative_classification_gives_empty (img : Element) (status : Z)
    (statusText : string) (fields : list (string * JSValue)) :
  too_small img = false ->
  assoc "classification" fields = Some (JStr "decorative") ->
  result_of (generateAltText img)
            (Response true status statusText (MessageContent (Parsed (JObj fields)))) = "".
Proof.
  intros Hbig Hc. rewrite generateAltText_payload, Hbig.
  unfold alt_text_of. now rewrite Hc.
Qed.

(** An image with a side under 50 pixels gets its description without any
    request. *)
Lemma small_image_description (img : Element) :
  too_small img = true -> generateAltText img = Now "Decorative image".
Proof. intros H. unfold generateAltText. now rewrite H. Qed.

(** The description a generation task of an image applies is the one
    [generateAltText] returned. *)
Lemma image_task_applies_description (n : nat) (altText : string) (doc : Document) :
  image_generation_task n (Normal altText) doc
  = (update n (setStyle "border" "3px solid green")
       (update n (setAttribute "alt" altText) doc), Normal true).
Proof. reflexivity. Qed.

(** C2 holds for the classification returned by the model and fails on the
    path for small images: an image of 10 by 10 pixels without [alt] is
    taken as likely decorative and gets the description "Decorative image",
    not the empty one. *)
Theorem small_image_gets_nonempty_description :
  too_small (picture 1 10 10) = true /\
  attribute_after [body; picture 1 10 10] [StorageLoaded None] 1 "alt"
  = Some "Decorative image".
Proof. split; vm_compute; reflexivity. Qed.

(** ** Failures of single nodes *)

(** A [try] whose [catch] block completes, completes. *)
Lemma try_catch_completes {A} (body : Script A) (handler : JSError -> Script A) :
  (forall e doc, exists doc' a, handler e doc = (doc', Normal a)) ->
  forall doc, exists doc' a, try_catch body handler doc = (doc', Normal a).
Proof.
  intros Hh doc. unfold try_catch.
  destruct (body doc) as [doc' [a|e]]; [eauto | apply Hh].
Qed.

(** The async callback of a generation task never rejects. *)
Lemma generation_task_fulfils (c : Category) (n : nat) (o : FetchOutcome) (stamp : string)
    (doc : Document) :
  exists doc' success, generation_task c n o stamp doc = (doc', Normal success).
Proof.
  destruct c; unfold generation_task.
  - unfold bind, element, read. eexists _, _. reflexivity.
  - apply try_catch_completes. intros e d. eexists _, _. reflexivity.
  - apply try_catch_completes. intros e d. eexists _, _. reflexivity.
Qed.

Lemma analysis_task_fulfils (c : Category) (n : nat) (a : AnalysisEnd) (doc : Document) :
  exists doc' success, analysis_task c n a doc = (doc', Normal success).
Proof. destruct a; eexists _, _; reflexivity. Qed.

(** A form field or a link whose inference fails is marked as failed. *)
Lemma form_task_marks_failure (n : nat) (o : FetchOutcome) (stamp : string) (e : JSError)
    (doc : Document) :
  generateFormFieldHelp o = Throw e ->
  form_generation_task n (generateFormFieldHelp o) stamp doc
  = (update n (setStyle "outline" "3px solid red") doc, Normal false).
Proof. intros H. rewrite H. reflexivity. Qed.

Lemma link_task_marks_failure (n : nat) (o : FetchOutcome) (e : JSError) (doc : Document) :
  generateLinkText o = Throw e ->
  link_generation_task n (generateLinkText o) doc
  = (update n (setStyle "outline" "3px solid red") doc, Normal false).
Proof. intros H. rewrite H. reflexivity. Qed.

(** The generation task of an image reports success whatever the outcome
    of its request: no outcome reaches the [catch] block of
    [highlightImages]. *)
Lemma image_task_always_succeeds (n : nat) (o : FetchOutcome) (stamp : string)
    (doc : Document) :
  (generation_task Image n o stamp doc).2 = Normal true.
Proof. reflexivity. Qed.

(** C6 fails for image generation: when the request of an image fails, the
    failure is swallowed inside [generateAltText]; the task reports success,
    marks the image green and applies the fallback text as its description.
    The sibling on the same page is not disturbed. *)
Theorem failed_image_inference_is_marked_success :
  let page := [body; picture 1 200 100; picture 2 300 300] in
  let events := [StorageLoaded None; GenerationResponse 0 0 FetchRejects ""] in
  attribute_after page events 1 "alt" = Some "AI-generated description unavailable" /\
  style_after page events 1 "border" = Some "3px solid green" /\
  log_after page events
  = [Settled 0 Generate 0 (Fulfilled true);
     Launched 0 Generate 1 2; Launched 0 Generate 0 1] /\
  (generation <$> runs_after page events)
  = [[mkTask 1 (Fulfilled true); mkTask 2 Pending]; []; []].
Proof. repeat split; vm_compute; reflexivity. Qed.

(** ** Deactivation *)

(** C9, as the specification states it, fails: the request of an unlabeled
    field is in flight when the pipeline is toggled off; when it resolves,
    the label is inserted and the accessible name is set all the same. *)
Lemma C9_counterexample :
  let page := [body; email_input 2 200] in
  let before := [StorageLoaded None; ToggleMessage false] in
  let after := before ++ [GenerationResponse 1 0 (ok_response email_help) "1"] in
  enabled_after page before = Some false /\
  attribute_after page before 2 "aria-label" = None /\
  label_text_after page before 2 = None /\
  enabled_after page after = Some false /\
  attribute_after page after 2 "aria-label" = Some "Email address" /\
  label_text_after page after 2 = Some "Email address".
Proof. repeat split; vm_compute; reflexivity. Qed.

(** C9 (amended): toggling the pipeline off aborts no request in flight,
    and the result of a request is not discarded: the toggle is not
    consulted when the request resolves, so the response has the same effect
    on the document, the runs and the log whether the pipeline is on or
    off. *)
Theorem response_applied_regardless_of_toggle :
  (forall w : World,
     exists w', step w (ToggleMessage false) = Some w' /\
                isEnabled w' = false /\ runs w' = runs w) /\
  (forall (w : World) (b : bool) (r i : nat) (o : FetchOutcome) (stamp : string),
     step (set_enabled b w) (GenerationResponse r i o stamp)
     = set_enabled b <$> step w (GenerationResponse r i o stamp)).
Proof.
  split.
  - intros w. eexists. split; [reflexivity|]. split; reflexivity.
  - intros w b r i o stamp. unfold step, pending_task. simpl.
    destruct (runs w !! r) as [run|]; [|reflexivity].
    destruct (generation run !! i) as [t|]; [|reflexivity].
    destruct (status t); try reflexivity.
    unfold settle. simpl.
    destruct (generation_task (category run) (node t) o stamp (document w)) as [doc c].
    reflexivity.
Qed.

(** ** Capture sizes *)

Section CanvasSize.
Local Open Scope Q_scope.

Lemma Qtrunc_nonneg (x : Q) (B : Z) :
  0 <= x -> x <= inject_Z B -> (0 <= Qtrunc x <= B)%Z.
Proof.
  destruct x as [a b]. unfold Qle, Qtrunc. simpl. intros H0 HB.
  assert (Ha : (0 <= a)%Z) by lia.
  rewrite Z.quot_div_nonneg by lia. split.
  - apply Z.div_pos; lia.
  - apply Z.div_le_upper_bound; lia.
Qed.

Lemma Qtrunc_neg (x : Q) :
  -2147483648 <= x -> x <= 0 -> (-2147483648 <= Qtrunc x <= 0)%Z.
Proof.
  destruct x as [a b]. unfold Qle, Qtrunc. simpl. intros HB H0.
  assert (Ha : (a <= 0)%Z) by lia.
  replace a with (- - a)%Z by lia. rewrite Z.quot_opp_l by lia.
  rewrite Z.quot_div_nonneg by lia.
  assert (0 <= - a / Z.pos b)%Z by (apply Z.div_pos; lia).
  assert (- a / Z.pos b <= 2147483648)%Z by (apply Z.div_le_upper_bound; lia).
  lia.
Qed.

(** A canvas side set from a value between -2^31 and [B] is between 0 and
    [B], when the default is. *)
Lemma canvas_size_le (d B : Z) (x : Q) :
  (0 <= d <= B)%Z -> (B <= 2147483647)%Z ->
  -2147483648 <= x -> x <= inject_Z B ->
  (0 <= canvas_size d x <= B)%Z.
Proof.
  intros Hd HB Hlo Hhi. unfold canvas_size, ToUint32.
  destruct (Qlt_le_dec x 0) as [Hneg|Hpos].
  - pose proof (Qtrunc_neg x Hlo (Qlt_le_weak _ _ Hneg)) as Ht.
    destruct (Z.eq_dec (Qtrunc x) 0%Z) as [E|NE].
    + rewrite E. rewrite Z.mod_0_l by lia.
      destruct (Z.leb_spec 0 2147483647); lia.
    + replace (Qtrunc x mod 2 ^ 32)%Z with (Qtrunc x + 2 ^ 32)%Z.
      * destruct (Z.leb_spec (Qtrunc x + 2 ^ 32) 2147483647); lia.
      * apply Z.mod_unique with (q := (-1)%Z); lia.
  - pose proof (Qtrunc_nonneg x B Hpos Hhi) as Ht.
    rewrite Z.mod_small by lia.
    destruct (Z.leb_spec (Qtrunc x) 2147483647); lia.
Qed.

(** A canvas side set from a value between 0 and 2^31 - 1 is that value,
    truncated. *)
Lemma canvas_size_exact (d : Z) (x : Q) :
  0 <= x -> x <= 2147483647 -> canvas_size d x = Qtrunc x.
Proof.
  intros Hlo Hhi. unfold canvas_size, ToUint32.
  pose proof (Qtrunc_nonneg x 2147483647 Hlo Hhi) as Ht.
  rewrite Z.mod_small by lia.
  destruct (Z.leb_spec (Qtrunc x) 2147483647); [reflexivity | lia].
Qed.

Lemma padded_side (least side : Q) :
  0 <= least -> least <= 2147483647 -> 0 <= side -> side <= 2147483000 ->
  0 <= Qmax least (side + 20) /\ Qmax least (side + 20) <= 2147483647.
Proof.
  intros H1 H2 H3 H4. split.
  - eapply Qle_trans; [exact H1 | apply Q.le_max_l].
  - apply Q.max_lub; [exact H2 | lra].
Qed.

Lemma context_canvas_bounds (w h margin : Q) (vp : Viewport) :
  0 <= w -> 0 <= h -> 0 <= margin -> 0 <= innerWidth vp -> 0 <= innerHeight vp ->
  0 <= (context_canvas w h margin vp).1 <= 800 /\
  0 <= (context_canvas w h margin vp).2 <= 600.
Proof.
  intros Hw Hh Hm Hiw Hih. unfold context_canvas. simpl.
  repeat split; try apply Q.le_min_l.
  - apply Q.min_glb; [discriminate|]. apply Q.min_glb; [assumption|].
    apply (Qle_trans _ (0 + 0 * 2)); [discriminate|].
    apply Qplus_le_compat; [assumption|]. apply Qmult_le_compat_r; [assumption|discriminate].
  - apply Q.min_glb; [discriminate|]. apply Q.min_glb; [assumption|].
    apply (Qle_trans _ (0 + 0 * 2)); [discriminate|].
    apply Qplus_le_compat; [assumption|]. apply Qmult_le_compat_r; [assumption|discriminate].
Qed.

Lemma context_shot_bounds (canvas : Q * Q) (c : Content) :
  -2147483648 <= canvas.1 <= 800 -> -2147483648 <= canvas.2 <= 600 ->
  (pixel_width (context_shot canvas c) <= 800)%Z /\
  (pixel_height (context_shot canvas c) <= 600)%Z /\
  quality (context_shot canvas c) = 0.6.
Proof.
  intros [H1 H2] [H3 H4]. unfold context_shot, toDataURL. simpl.
  split; [|split; [|reflexivity]].
  - apply (canvas_size_le 300 800); [lia | lia | assumption | assumption].
  - apply (canvas_size_le 150 600); [lia | lia | assumption | assumption].
Qed.

Lemma from_zero (x B : Q) : 0 <= x <= B -> -2147483648 <= x <= B.
Proof. intros [H1 H2]. split; [|assumption]. eapply Qle_trans; [|exact H1]. discriminate. Qed.

End CanvasSize.

Section Resize.
Local Open Scope Q_scope.

Lemma Qdiv_nonneg (a b : Q) : 0 <= a -> 0 < b -> 0 <= a / b.
Proof.
  intros Ha Hb. apply Qle_shift_div_l; [assumption|]. now rewrite Qmult_0_l.
Qed.

Lemma scaled_le (m a r : Q) : 0 < a -> 0 <= r -> r <= m / a -> 0 <= a * r <= m.
Proof.
  intros Ha Hr Hle. split.
  - apply Qmult_le_0_compat; [apply Qlt_le_weak|]; assumption.
  - apply (Qle_trans _ (a * (m / a))).
    + apply Qmult_le_l; assumption.
    + rewrite Qmult_div_r; [apply Qle_refl|]. intros E. rewrite E in Ha. discriminate.
Qed.

Lemma zero_scaled (m a r : Q) : 0 <= m -> a == 0 -> 0 <= a * r <= m.
Proof.
  intros Hm E. rewrite E, Qmult_0_l. split; [apply Qle_refl | assumption].
Qed.

Lemma inject_N_nonneg (n : N) : 0 <= inject_Z (Z.of_N n).
Proof. unfold Qle. simpl. lia. Qed.

Lemma nonzero_positive (a : Q) : 0 <= a -> ~ a == 0 -> 0 < a.
Proof.
  intros H NE. destruct (Qlt_le_dec 0 a) as [|Hle]; [assumption|].
  destruct NE. apply Qle_antisym; assumption.
Qed.

(** A loaded image is drawn at most 800 pixels wide and 800 pixels high. *)
Lemma resize_bounds (w h : N) :
  0 <= (resize w h).1 <= 800 /\ 0 <= (resize w h).2 <= 800.
Proof.
  unfold resize.
  set (W := inject_Z (Z.of_N w)). set (H := inject_Z (Z.of_N h)).
  assert (HW : 0 <= W) by apply inject_N_nonneg.
  assert (HH : 0 <= H) by apply inject_N_nonneg.
  destruct (Qle_bool W 800) eqn:EW; destruct (Qle_bool H 800) eqn:EH; simpl;
    try (apply Qle_bool_iff in EW); try (apply Qle_bool_iff in EH);
    try (split; split; assumption).
  all: unfold min_ratio.
  all: destruct (Qeq_bool W 0) eqn:ZW; [apply Qeq_bool_iff in ZW | apply Qeq_bool_neq in ZW].
  all: try (destruct (Qeq_bool H 0) eqn:ZH; [apply Qeq_bool_iff in ZH | apply Qeq_bool_neq in ZH]).
  all: try pose proof (nonzero_positive W HW ZW) as PW.
  all: try pose proof (nonzero_positive H HH ZH) as PH.
  all: try (exfalso; rewrite ZW in EW; discriminate).
  all: try (exfalso; rewrite ZH in EH; discriminate).
  all: try (assert (PH' : 0 < H)
              by (apply nonzero_positive; [assumption|];
                  intros E; rewrite E in EH; discriminate)).
  all: split;
    first [ apply zero_scaled; [discriminate | assumption]
          | apply scaled_le;
            first [ assumption
                  | apply Qdiv_nonneg; [discriminate | assumption]
                  | apply Qle_refl
                  | apply Q.le_min_l
                  | apply Q.le_min_r
                  | apply Q.min_glb; apply Qdiv_nonneg; first [discriminate | assumption] ] ].
Qed.

Lemma draw_resized_bounds (w h : N) :
  (pixel_width (draw_resized w h) <= 800)%Z /\
  (pixel_height (draw_resized w h) <= 800)%Z /\
  quality (draw_resized w h) = 0.8.
Proof.
  unfold draw_resized. pose proof (resize_bounds w h) as [Hw Hh].
  destruct (resize w h) as [a b]. simpl in *. split; [|split; [|reflexivity]].
  - apply from_zero in Hw. destruct Hw.
    apply (canvas_size_le 300 800); [lia | lia | assumption | assumption].
  - apply from_zero in Hh. destruct Hh.
    apply (canvas_size_le 150 800); [lia | lia | assumption | assumption].
Qed.

End Resize.

(** ** The promise of a capture *)

Section PromiseInvariant.
Variable P : Encoded -> Prop.

Lemma resolve_keeps (e : Encoded) (p : Promise) :
  P e -> (forall e', p = Resolved e' -> P e') ->
  forall e', resolve e p = Resolved e' -> P e'.
Proof.
  intros He Hp e'. destruct p; simpl; [intros [= <-]; exact He | apply Hp | discriminate].
Qed.

Ltac callback_cases :=
  repeat match goal with
         | |- context [if ?b then _ else _] => destruct b
         | |- context [match ?cb with ImageLoaded _ _ _ _ => _ | _ => _ end] => destruct cb
         end;
  simpl; intros;
  try match goal with
      | H : resolve _ _ = Resolved _ |- _ => revert H; apply resolve_keeps
      end;
  eauto.

(** A callback of the isolated capture keeps what holds of the fallback
    drawings and, when the callback delivers the media, of the resized
    drawing. *)
Lemma captureImageOnly_on_keeps (img : Element) (c : Capture) (cb : Callback) :
  P createImageFallback -> P createSVGFallback ->
  (delivers_media cb = true -> forall w h, P (draw_resized w h)) ->
  (forall e, promise c = Resolved e -> P e) ->
  forall e, promise (captureImageOnly_on img c cb) = Resolved e -> P e.
Proof.
  intros H1 H2 H3 Hc e. unfold captureImageOnly_on, resolving.
  destruct (isSVG img); destruct cb as [[|] w h [|]|[|]| | |[|] [|]| |w h [|]| | |w h];
    simpl in H3; callback_cases.
Qed.

Lemma captureImageWithContext_on_keeps (img : Element) (vp : Viewport) (c : Capture)
    (cb : Callback) :
  P (context_shot (image_context_canvas img vp) Placeholder) ->
  P (context_shot (svg_context_canvas img vp) Placeholder) ->
  (delivers_media cb = true ->
   P (context_shot (image_context_canvas img vp) SourceMedia) /\
   P (context_shot (svg_context_canvas img vp) SourceMedia)) ->
  (forall e, promise c = Resolved e -> P e) ->
  forall e, promise (captureImageWithContext_on img vp c cb) = Resolved e -> P e.
Proof.
  intros H1 H2 H3 Hc e. unfold captureImageWithContext_on, export.
  destruct (isSVG img); destruct cb as [[|] w h [|]|[|]| | |[|] [|]| |w h [|]| | |w h];
    simpl in H3; callback_cases; try (apply H3; reflexivity).
Qed.

Lemma captureImageOnly_keeps (img : Element) (s : Setup) (cbs : list Callback) :
  P (toDataURL 400 300 0.8 Placeholder) -> P (toDataURL 300 200 0.8 Placeholder) ->
  (forall cb, In cb cbs -> delivers_media cb = true -> forall w h, P (draw_resized w h)) ->
  forall e, promise (captureImageOnly img s cbs) = Resolved e -> P e.
Proof.
  intros H1 H2 H3. unfold captureImageOnly.
  assert (H0 : forall e, promise (captureImageOnly_start img s) = Resolved e -> P e).
  { unfold captureImageOnly_start, captureSVGAsBase64_start.
    intros e. repeat match goal with |- context [if ?b then _ else _] => destruct b end;
      simpl; intros [= <-] || discriminate; assumption. }
  revert H0 H3. generalize (captureImageOnly_start img s).
  induction cbs as [|cb cbs IH]; intros c Hc H3; simpl; [exact Hc|].
  apply IH.
  - apply captureImageOnly_on_keeps; try assumption. apply H3. now left.
  - intros cb' Hin. apply H3. now right.
Qed.

Lemma captureImageWithContext_keeps (img : Element) (s : Setup) (cbs : list Callback) :
  P (toDataURL 400 300 0.6 Placeholder) ->
  P (context_shot (image_context_canvas img (viewport s)) Placeholder) ->
  P (context_shot (svg_context_canvas img (viewport s)) Placeholder) ->
  (forall cb, In cb cbs -> delivers_media cb = true ->
   P (context_shot (image_context_canvas img (viewport s)) SourceMedia) /\
   P (context_shot (svg_context_canvas img (viewport s)) SourceMedia)) ->
  forall e, promise (captureImageWithContext img s cbs) = Resolved e -> P e.
Proof.
  intros H1 H2 H3 H4. unfold captureImageWithContext.
  assert (H0 : forall e, promise (captureImageWithContext_start img s) = Resolved e -> P e).
  { unfold captureImageWithContext_start, captureSVGContextAsBase64_start.
    intros e. repeat match goal with |- context [if ?b then _ else _] => destruct b end;
      simpl; intros [= <-] || discriminate; assumption. }
  revert H0 H4. generalize (captureImageWithContext_start img s).
  induction cbs as [|cb cbs IH]; intros c Hc H4; simpl; [exact Hc|].
  apply IH.
  - apply captureImageWithContext_on_keeps; try assumption. apply H4. now left.
  - intros cb' Hin. apply H4. now right.
Qed.

End PromiseInvariant.
(** ** A capture that never settles *)

Lemma resolve_stable (e e0 : Encoded) (p : Promise) :
  p = Resolved e0 -> resolve e p = Resolved e0.
Proof. now intros ->. Qed.

(** A settled promise of the isolated capture keeps its value: [resolve] has
    no effect on it. *)
Lemma captureImageOnly_on_stable (img : Element) (c : Capture) (cb : Callback) (e : Encoded) :
  promise c = Resolved e -> promise (captureImageOnly_on img c cb) = Resolved e.
Proof.
  intros Hc. unfold captureImageOnly_on, resolving.
  destruct (isSVG img); destruct cb as [[|] w h [|]|[|]| | |[|] [|]| |w h [|]| | |w h];
    repeat match goal with
           | |- context [if ?b then _ else _] => destruct b
           end;
    simpl; auto using resolve_stable.
Qed.

(** On a canvas that has lost its origin-clean flag no handler of the
    context capture of an image can call [resolve]. *)
Lemma tainted_context_stays_unsettled (img : Element) (vp : Viewport) (c : Capture)
    (cb : Callback) :
  isSVG img = false ->
  canvas_tainted c = true /\ promise c = Unsettled ->
  canvas_tainted (captureImageWithContext_on img vp c cb) = true /\
  promise (captureImageWithContext_on img vp c cb) = Unsettled.
Proof.
  intros Hsvg [Ht Hp]. unfold captureImageWithContext_on, export. rewrite Hsvg.
  destruct cb as [[|] w h [|]|[|]| | |[|] [|]| |w h [|]| | |w h];
    repeat match goal with
           | |- context [if ?b then _ else _] => destruct b eqn:?
           end;
    simpl; auto; congruence.
Qed.

Lemma isolated_fold_stable (img : Element) (cbs : list Callback) (c : Capture) (e : Encoded) :
  promise c = Resolved e ->
  promise (List.fold_left (captureImageOnly_on img) cbs c) = Resolved e.
Proof.
  revert c. induction cbs as [|cb cbs IH]; intros c Hc; simpl; [exact Hc|].
  apply IH. now apply captureImageOnly_on_stable.
Qed.

Lemma tainted_context_fold (img : Element) (vp : Viewport) (cbs : list Callback)
    (c : Capture) :
  isSVG img = false ->
  canvas_tainted c = true /\ promise c = Unsettled ->
  promise (List.fold_left (captureImageWithContext_on img vp) cbs c) = Unsettled.
Proof.
  intros Hsvg. revert c. induction cbs as [|cb cbs IH]; intros c Hc; simpl; [apply Hc|].
  apply IH. now apply tainted_context_stays_unsettled.
Qed.

(** C4 fails on the context capture of an image. The image is not an SVG
    and the set-up does not throw. The first image, requested with
    [crossOrigin = 'anonymous'], has not finished loading after 2 seconds,
    so the second image is created; it loads from another origin and is
    drawn. The isolated capture falls back to its placeholder, because
    [createImageFallback] sets the size of the canvas again before it
    encodes. The context capture draws its placeholder on the canvas that
    the drawing has tainted: [toDataURL] throws in the [catch] block of the
    load handler, in the error handler and in the handler of the timer
    after 10 seconds, so whatever the host does afterwards the promise is
    never settled and the capture call returns no bundle. *)
Theorem context_capture_hangs_on_tainted_canvas (img : Element) (s : Setup) (w h : N)
    (after : list Callback) :
  isSVG img = false ->
  setup_throws s = false ->
  let trace := RetryTimer :: CrossOriginImageLoaded w h :: after in
  promise (captureImageOnly img s trace) = Resolved createImageFallback /\
  promise (captureImageWithContext img s trace) = Unsettled.
Proof.
  intros Hsvg Hs trace. unfold trace, captureImageOnly, captureImageWithContext,
    captureImageOnly_start, captureImageWithContext_start.
  rewrite Hsvg, Hs. simpl. split.
  - apply isolated_fold_stable. unfold captureImageOnly_on. rewrite Hsvg. reflexivity.
  - apply tainted_context_fold; [exact Hsvg|].
    unfold captureImageWithContext_on. rewrite Hsvg. split; reflexivity.
Qed.

(** A photo from another origin: after the retry and the load of the
    second image, the timer after 10 seconds and a late error of the first
    request leave the context capture unsettled. *)
Lemma context_capture_hangs_on_tainted_canvas_witness :
  let img := remote_photo in
  let s := mkSetup false (mkViewport 1024 768) in
  let trace := [RetryTimer; CrossOriginImageLoaded 200 100; UltimateTimer; ImageError false] in
  promise (captureImageOnly img s trace) = Resolved createImageFallback /\
  promise (captureImageWithContext img s trace) = Unsettled.
Proof.
  intros img s trace.
  apply (context_capture_hangs_on_tainted_canvas img s 200 100 [UltimateTimer; ImageError false]);
    reflexivity.
Defined.

Section ContextBounds.
Local Open Scope Q_scope.

Lemma image_context_canvas_bounds (el : Element) (vp : Viewport) :
  plausible_geometry (rect el) vp ->
  -2147483648 <= (image_context_canvas el vp).1 <= 800 /\
  -2147483648 <= (image_context_canvas el vp).2 <= 600.
Proof.
  intros (Hw & Hh & Hiw & Hih & _). unfold image_context_canvas.
  assert (Hm : 0 <= Qmax (width (rect el)) (height (rect el)) * 1.5).
  { apply Qmult_le_0_compat; [|discriminate].
    eapply Qle_trans; [exact Hw | apply Q.le_max_l]. }
  destruct (context_canvas_bounds _ _ _ vp Hw Hh Hm Hiw Hih) as [H1 H2].
  split; apply from_zero; assumption.
Qed.

Lemma svg_context_canvas_bounds (el : Element) (vp : Viewport) :
  plausible_geometry (rect el) vp ->
  -2147483648 <= (svg_context_canvas el vp).1 <= 800 /\
  -2147483648 <= (svg_context_canvas el vp).2 <= 600.
Proof.
  intros (Hw & Hh & Hiw & Hih & Hl & Ht). unfold svg_context_canvas. simpl.
  repeat split; try apply Q.le_min_l.
  - apply Q.min_glb; [discriminate|]. apply Q.min_glb; lra.
  - apply Q.min_glb; [discriminate|]. apply Q.min_glb; lra.
Qed.

Lemma sync_context_bounds (el : Element) (vp : Viewport) (c : Content) :
  plausible_geometry (rect el) vp ->
  let e := (let (w, h) := context_canvas (width (rect el)) (height (rect el)) 150 vp in
            toDataURL w h 0.6 c) in
  (pixel_width e <= 800)%Z /\ (pixel_height e <= 600)%Z /\ quality e = 0.6.
Proof.
  intros (Hw & Hh & Hiw & Hih & _).
  assert (Hm : 0 <= 150) by discriminate.
  destruct (context_canvas_bounds _ _ _ vp Hw Hh Hm Hiw Hih) as [H1 H2].
  destruct (context_canvas (width (rect el)) (height (rect el)) 150 vp) as [w h].
  apply (context_shot_bounds (w, h) c); apply from_zero; assumption.
Qed.

Lemma fixed_fallback_bounds :
  (pixel_width (toDataURL 400 300 0.6 Placeholder) <= 800)%Z /\
  (pixel_height (toDataURL 400 300 0.6 Placeholder) <= 600)%Z /\
  quality (toDataURL 400 300 0.6 Placeholder) = 0.6.
Proof. vm_compute. repeat split; discriminate. Qed.

End ContextBounds.

(** C7, as the specification states it, fails: the isolated capture of a
    form field 1000 pixels wide is 1020 pixels wide, and a loaded image of
    800 by 800 pixels is drawn 800 pixels high. *)
Lemma C7_counterexample :
  pixel_width (captureInputField (email_input 2 1000) false) = 1020%Z /\
  promise (captureImageOnly (picture 1 800 800) (mkSetup false (mkViewport 1024 768))
             [ImageLoaded false 800 800 false])
  = Resolved (mkEncoded 800 800 0.8 SourceMedia).
Proof. split; vm_compute; reflexivity. Qed.

(** C7 (amended): every context image of a bundle, in every category, is
    at most 800 by 600 pixels and is encoded at quality 0.6; every isolated
    image is encoded at quality 0.8; the isolated capture of an image is at
    most 800 by 800 pixels. The isolated capture of a form field or a link
    is not clamped from above: its canvas has the size of the element plus 20
    pixels of padding, and at least 200 by 50 (for a link 200 by 40)
    pixels. *)
Theorem capture_bundle_sizes (el : Element) (s : Setup) :
  plausible_geometry (rect el) (viewport s) ->
  (forall draw_throws,
     (pixel_width (captureInputWithContext el (viewport s) draw_throws) <= 800)%Z /\
     (pixel_height (captureInputWithContext el (viewport s) draw_throws) <= 600)%Z /\
     quality (captureInputWithContext el (viewport s) draw_throws) = 0.6%Q) /\
  (forall draw_throws,
     (pixel_width (captureLinkWithContext el (viewport s) draw_throws) <= 800)%Z /\
     (pixel_height (captureLinkWithContext el (viewport s) draw_throws) <= 600)%Z /\
     quality (captureLinkWithContext el (viewport s) draw_throws) = 0.6%Q) /\
  (forall cbs e,
     promise (captureImageWithContext el s cbs) = Resolved e ->
     (pixel_width e <= 800)%Z /\ (pixel_height e <= 600)%Z /\ quality e = 0.6%Q) /\
  (forall cbs e,
     promise (captureImageOnly el s cbs) = Resolved e ->
     (pixel_width e <= 800)%Z /\ (pixel_height e <= 800)%Z /\ quality e = 0.8%Q) /\
  (forall draw_throws,
     quality (captureInputField el draw_throws) = 0.8%Q /\
     quality (captureLinkElement el draw_throws) = 0.8%Q) /\
  ((width (rect el) <= 2147483000)%Q -> (height (rect el) <= 2147483000)%Q ->
   pixel_width (captureInputField el false)
   = Qtrunc (Qmax 200 (width (rect el) + 20)) /\
   pixel_height (captureInputField el false)
   = Qtrunc (Qmax 50 (height (rect el) + 20)) /\
   pixel_width (captureLinkElement el false)
   = Qtrunc (Qmax 200 (width (rect el) + 20)) /\
   pixel_height (captureLinkElement el false)
   = Qtrunc (Qmax 40 (height (rect el) + 20))).
Proof.
  intros Hg. repeat apply conj.
  - intros [|]; [apply fixed_fallback_bounds | apply sync_context_bounds, Hg].
  - intros [|]; [apply fixed_fallback_bounds | apply sync_context_bounds, Hg].
  - intros cbs e.
    destruct (image_context_canvas_bounds el (viewport s) Hg) as [I1 I2].
    destruct (svg_context_canvas_bounds el (viewport s) Hg) as [S1 S2].
    apply (captureImageWithContext_keeps
             (fun e => (pixel_width e <= 800)%Z /\ (pixel_height e <= 600)%Z
                       /\ quality e = 0.6%Q)).
    + apply fixed_fallback_bounds.
    + now apply context_shot_bounds.
    + now apply context_shot_bounds.
    + intros cb _ _. split; now apply context_shot_bounds.
  - intros cbs e.
    apply (captureImageOnly_keeps
             (fun e => (pixel_width e <= 800)%Z /\ (pixel_height e <= 800)%Z
                       /\ quality e = 0.8%Q)).
    + vm_compute. repeat split; discriminate.
    + vm_compute. repeat split; discriminate.
    + intros cb _ _ w h. apply draw_resized_bounds.
  - intros [|]; split; reflexivity.
  - intros Hw Hh. destruct Hg as (Hw0 & Hh0 & _).
    unfold captureInputField, captureLinkElement, toDataURL. simpl.
    change (10 * 2)%Q with 20%Q.
    repeat split; apply canvas_size_exact; apply padded_side;
      first [assumption | discriminate].
Qed.

(** The bound on the context capture of a field 200 pixels wide in a
    viewport of 1024 by 768 pixels. *)
Lemma capture_bundle_sizes_witness :
  (pixel_width (captureInputWithContext (email_input 2 200) (mkViewport 1024 768) false)
   <= 800)%Z.
Proof.
  refine (proj1 (proj1 (capture_bundle_sizes (email_input 2 200)
                          (mkSetup false (mkViewport 1024 768)) _) false)).
  unfold plausible_geometry, Qle. simpl. lia.
Defined.

(** ** The order of the phases *)

Lemma app_split {A} (l1 l2 later earlier : list A) (x : A) :
  l1 ++ l2 = later ++ x :: earlier ->
  (exists l, later = l1 ++ l /\ l2 = l ++ x :: earlier) \/
  (exists l, l1 = later ++ x :: l /\ earlier = l ++ l2).
Proof.
  revert later. induction l1 as [|a l1 IH]; intros later E; simpl in E.
  - left. exists later. auto.
  - destruct later as [|b later]; simpl in E.
    + injection E as -> <-. right. exists l1. auto.
    + injection E as -> E. destruct (IH _ E) as [(l & -> & ->)|(l & -> & ->)].
      * left. exists l. auto.
      * right. exists l. auto.
Qed.

Lemma elem_of_launches (r : nat) (ph : TaskPhase) (tasks : list Task) (h : Happening) :
  h ∈ launches r ph tasks <->
  exists j t, tasks !! j = Some t /\ h = Launched r ph j (node t).
Proof.
  unfold launches. rewrite elem_of_reverse. split.
  - intros H. apply elem_of_lookup_imap_1 in H as (j & t & -> & Ht). eauto.
  - intros (j & t & Ht & ->).
    apply (elem_of_lookup_imap_2 (fun i t => Launched r ph i (node t))). exact Ht.
Qed.

Lemma generation_before_ext (r : nat) (run run' : Run) (later earlier : list Happening) :
  generation run' = generation run ->
  generation_before r run later earlier -> generation_before r run' later earlier.
Proof. unfold generation_before. now intros ->. Qed.

Lemma generation_before_later (r : nat) (run : Run) (h : Happening)
    (later earlier : list Happening) :
  (forall j m, h <> Launched r Generate j m) ->
  generation_before r run later earlier -> generation_before r run (h :: later) earlier.
Proof.
  intros Hh [H1 H2]. split; [exact H1|].
  intros j m Hin. apply elem_of_cons in Hin as [E|Hin].
  - now apply (Hh j m).
  - now apply (H2 j m).
Qed.

Lemma gen_done_ext (run run' : Run) :
  generation run' = generation run -> gen_done run -> gen_done run'.
Proof. unfold gen_done. now intros ->. Qed.

(** Runs that move on keep the invariant. *)
Lemma Inv_advance (R R' : list Run) (L : list Happening) :
  Inv R L -> List.length R' = List.length R ->
  (forall r run', R' !! r = Some run' -> exists run, R !! r = Some run /\ advances run run') ->
  Inv R' L.
Proof.
  intros [Hdone Hclean Hlogged Hruns Hphase Horder] Hlen Hadv. constructor.
  - intros r run' Hr Hp. destruct (Hadv r run' Hr) as (run & Hrun & Hg & Hp1 & Hp2).
    apply (gen_done_ext run); [exact Hg|].
    destruct (Hp2 Hp) as [Hp'|Hd]; [eapply Hdone; eassumption | exact Hd].
  - intros r run' Hr. destruct (Hadv r run' Hr) as (run & Hrun & Hg & _).
    unfold gen_clean. rewrite Hg. exact (Hclean r run Hrun).
  - intros r run' j t Hr Ht. destruct (Hadv r run' Hr) as (run & Hrun & Hg & _).
    rewrite Hg in Ht. eapply Hlogged; eassumption.
  - intros h Hh. rewrite Hlen. now apply Hruns.
  - intros r run' i n Hr Hin. destruct (Hadv r run' Hr) as (run & Hrun & Hg & Hp1 & Hp2).
    apply Hp1. eapply Hphase; eassumption.
  - intros r run' later earlier i n Hr HL.
    destruct (Hadv r run' Hr) as (run & Hrun & Hg & _).
    apply (generation_before_ext r run); [exact Hg|]. eapply Horder; eassumption.
Qed.

(** The report that a task has settled keeps the invariant. *)
Lemma Inv_log_settled (R : list Run) (L : list Happening) (r : nat) (ph : TaskPhase)
    (i : nat) (st : Status) :
  Inv R L -> r < List.length R -> Inv R (Settled r ph i st :: L).
Proof.
  intros [Hdone Hclean Hlogged Hruns Hphase Horder] Hr. constructor.
  - exact Hdone.
  - exact Hclean.
  - intros r' run j t Hrun Ht. destruct (Hlogged r' run j t Hrun Ht) as [H1 H2].
    split; [now apply elem_of_cons; right|].
    intros b Hb. apply elem_of_cons. right. now apply H2.
  - intros h Hh. apply elem_of_cons in Hh as [->|Hh]; [exact Hr | now apply Hruns].
  - intros r' run i' n Hrun Hin. apply elem_of_cons in Hin as [E|Hin]; [discriminate|].
    eapply Hphase; eassumption.
  - intros r' run later earlier i' n Hrun HL.
    destruct later as [|h later]; simpl in HL; [discriminate|].
    injection HL as <- HL.
    apply generation_before_later; [discriminate|]. eapply Horder; eassumption.
Qed.

Lemma lookup_alter_task (ts : list Task) (i j : nat) (st : Status) (t : Task) :
  alter (fun t => mkTask (node t) st) i ts !! j = Some t ->
  exists t0, ts !! j = Some t0 /\ node t = node t0 /\
             ((j = i /\ status t = st) \/ (j <> i /\ t = t0)).
Proof.
  destruct (decide (i = j)) as [<-|Hne].
  - rewrite list_lookup_alter_eq. destruct (ts !! i) as [t0|]; simpl; [|discriminate].
    intros [= <-]. exists t0. simpl. auto.
  - rewrite list_lookup_alter_ne by exact Hne. intros Ht. exists t. auto.
Qed.

(** A generation task that becomes fulfilled keeps the invariant, when
    its settling is reported and the analysis of the run has not begun. *)
Lemma Inv_fulfil (R : list Run) (L : list Happening) (r i : nat) (success : bool) :
  Inv R L ->
  Settled r Generate i (Fulfilled success) ∈ L ->
  (forall j n, Launched r Analyze j n ∉ L) ->
  Inv (alter (with_tasks Generate (alter (fun t => mkTask (node t) (Fulfilled success)) i)) r R) L.
Proof.
  intros [Hdone Hclean Hlogged Hruns Hphase Horder] Hset Hnone.
  set (g := with_tasks Generate (alter (fun t => mkTask (node t) (Fulfilled success)) i)).
  assert (Hlook : forall r' run', alter g r R !! r' = Some run' ->
            (r' <> r /\ R !! r' = Some run') \/
            (r' = r /\ exists run, R !! r = Some run /\ run' = g run)).
  { intros r' run'. destruct (decide (r = r')) as [<-|Hne].
    - rewrite list_lookup_alter_eq. destruct (R !! r) as [run|]; simpl; [|discriminate].
      intros [= <-]. right. eauto.
    - rewrite list_lookup_alter_ne by exact Hne. auto. }
  constructor.
  - intros r' run' Hr Hp. destruct (Hlook _ _ Hr) as [[_ Hold]|(-> & run & Hrun & ->)].
    + eapply Hdone; eassumption.
    + intros t Ht. apply list_elem_of_lookup in Ht as [j Ht]. simpl in Ht.
      apply lookup_alter_task in Ht as (t0 & Ht0 & _ & [[_ Hst]|[_ ->]]).
      * unfold is_fulfilled. now rewrite Hst.
      * apply (Hdone r run Hrun Hp). apply list_elem_of_lookup. eauto.
  - intros r' run' Hr. destruct (Hlook _ _ Hr) as [[_ Hold]|(-> & run & Hrun & ->)].
    + eapply Hclean; eassumption.
    + intros t e Ht. apply list_elem_of_lookup in Ht as [j Ht]. simpl in Ht.
      apply lookup_alter_task in Ht as (t0 & Ht0 & _ & [[_ Hst]|[_ ->]]).
      * now rewrite Hst.
      * apply (Hclean r run Hrun). apply list_elem_of_lookup. eauto.
  - intros r' run' j t Hr Ht.
    destruct (Hlook _ _ Hr) as [[_ Hold]|(-> & run & Hrun & ->)].
    + eapply Hlogged; eassumption.
    + simpl in Ht. apply lookup_alter_task in Ht as (t0 & Ht0 & Hn & [[-> Hst]|[_ ->]]).
      * rewrite Hn. split; [apply (Hlogged r run i t0 Hrun Ht0)|].
        intros b Hb. rewrite Hst in Hb. injection Hb as <-. exact Hset.
      * eapply Hlogged; eassumption.
  - intros h Hh. rewrite length_alter. now apply Hruns.
  - intros r' run' i' n Hr Hin.
    destruct (Hlook _ _ Hr) as [[_ Hold]|(-> & run & Hrun & ->)].
    + eapply Hphase; eassumption.
    + destruct (Hnone i' n Hin).
  - intros r' run' later earlier i' n Hr HL.
    destruct (Hlook _ _ Hr) as [[_ Hold]|(-> & run & Hrun & ->)].
    + eapply Horder; eassumption.
    + destruct (Hnone i' n). rewrite HL. apply elem_of_app. right. apply elem_of_cons. now left.
Qed.

(** The launch of the analysis of a run that is past its generation keeps
    the invariant. *)
Lemma Inv_begin (R : list Run) (L : list Happening) (r : nat) (run : Run) (tasks : list Task) :
  Inv R L -> R !! r = Some run -> phase run <> GenerationFanOut ->
  Inv (<[r := mkRun (category run) AnalysisFanOut (generation run) tasks]> R)
      (launches r Analyze tasks ++ L).
Proof.
  intros [Hdone Hclean Hlogged Hruns Hphase Horder] Hrun Hp.
  pose proof (lookup_lt_Some _ _ _ Hrun) as Hlt.
  set (new := mkRun (category run) AnalysisFanOut (generation run) tasks).
  assert (Hlook : forall r' run', <[r := new]> R !! r' = Some run' ->
            (r' <> r /\ R !! r' = Some run') \/ (r' = r /\ run' = new)).
  { intros r' run'. destruct (decide (r = r')) as [<-|Hne].
    - rewrite list_lookup_insert_eq by exact Hlt. intros [= <-]. auto.
    - rewrite list_lookup_insert_ne by exact Hne. auto. }
  assert (Hfull : forall j t, generation run !! j = Some t ->
            Launched r Generate j (node t) ∈ L /\
            exists success, status t = Fulfilled success /\
                            Settled r Generate j (Fulfilled success) ∈ L).
  { intros j t Ht. destruct (Hlogged r run j t Hrun Ht) as [H1 H2]. split; [exact H1|].
    assert (Hf : is_fulfilled t = true).
    { apply (Hdone r run Hrun Hp). apply list_elem_of_lookup. eauto. }
    unfold is_fulfilled in Hf. destruct (status t) as [|b|e] eqn:Es; try discriminate.
    exists b. split; [reflexivity|]. now apply H2. }
  constructor.
  - intros r' run' Hr Hp'. destruct (Hlook _ _ Hr) as [[_ Hold]|[-> ->]].
    + eapply Hdone; eassumption.
    + apply (gen_done_ext run); [reflexivity|]. eapply Hdone; eassumption.
  - intros r' run' Hr. destruct (Hlook _ _ Hr) as [[_ Hold]|[-> ->]].
    + eapply Hclean; eassumption.
    + exact (Hclean r run Hrun).
  - intros r' run' j t Hr Ht. destruct (Hlook _ _ Hr) as [[_ Hold]|[-> ->]].
    + destruct (Hlogged r' run' j t Hold Ht) as [H1 H2].
      split; [apply elem_of_app; now right|].
      intros b Hb. apply elem_of_app. right. now apply H2.
    + simpl in Ht. destruct (Hlogged r run j t Hrun Ht) as [H1 H2].
      split; [apply elem_of_app; now right|].
      intros b Hb. apply elem_of_app. right. now apply H2.
  - intros h Hh. rewrite length_insert. apply elem_of_app in Hh as [Hh|Hh].
    + apply elem_of_launches in Hh as (j & t & _ & ->). exact Hlt.
    + now apply Hruns.
  - intros r' run' i n Hr Hin. destruct (Hlook _ _ Hr) as [[Hne Hold]|[-> ->]].
    + apply elem_of_app in Hin as [Hin|Hin].
      * apply elem_of_launches in Hin as (j & t & _ & [= -> _ _]). now destruct Hne.
      * eapply Hphase; eassumption.
    + discriminate.
  - intros r' run' later earlier i n Hr HL.
    apply app_split in HL as [(l & -> & HL)|(l & Hnew & ->)].
    + assert (Hgb : generation_before r' run' l earlier).
      { destruct (Hlook _ _ Hr) as [[_ Hold]|[-> ->]].
        - eapply Horder; eassumption.
        - apply (generation_before_ext r run); [reflexivity|]. eapply Horder; eassumption. }
      destruct Hgb as [H1 H2]. split; [exact H1|].
      intros j m Hin. apply elem_of_app in Hin as [Hin|Hin].
      * apply elem_of_launches in Hin as (j' & t & _ & [=]).
      * now apply (H2 j m).
    + assert (Er : r' = r).
      { assert (Hin : Launched r' Analyze i n ∈ launches r Analyze tasks).
        { rewrite Hnew. apply elem_of_app. right. apply elem_of_cons. now left. }
        apply elem_of_launches in Hin as (j & t & _ & [= -> _ _]). reflexivity. }
      subst r'. destruct (Hlook _ _ Hr) as [[Hne _]|[_ ->]]; [now destruct Hne|].
      split.
      * intros j t Ht. simpl in Ht. destruct (Hfull j t Ht) as (H1 & b & Hb & H2).
        split; [apply elem_of_app; now right|].
        exists b. split; [exact Hb|]. apply elem_of_app. now right.
      * intros j m Hin.
        assert (Hin' : Launched r Generate j m ∈ launches r Analyze tasks).
        { rewrite Hnew. apply elem_of_app. now left. }
        apply elem_of_launches in Hin' as (j' & t & _ & [=]).
Qed.

(** A new run in its generation phase keeps the invariant. *)
Lemma Inv_add_run (R : list Run) (L : list Happening) (c : Category) (tasks : list Task) :
  Inv R L -> (forall t, t ∈ tasks -> status t = Pending) ->
  Inv (R ++ [mkRun c GenerationFanOut tasks []])
      (launches (List.length R) Generate tasks ++ L).
Proof.
  intros [Hdone Hclean Hlogged Hruns Hphase Horder] Hpending.
  set (new := mkRun c GenerationFanOut tasks []).
  assert (Hlook : forall r run, (R ++ [new]) !! r = Some run ->
            (r < List.length R /\ R !! r = Some run) \/ (r = List.length R /\ run = new)).
  { intros r run Hr. apply lookup_app_Some in Hr as [Hr|[Hge Hr]].
    - left. split; [eapply lookup_lt_Some; eassumption | exact Hr].
    - right. apply list_lookup_singleton_Some in Hr as [Hz <-]. split; [lia | reflexivity]. }
  constructor.
  - intros r run Hr Hp. destruct (Hlook _ _ Hr) as [[_ Hold]|[_ ->]].
    + eapply Hdone; eassumption.
    + now destruct Hp.
  - intros r run Hr. destruct (Hlook _ _ Hr) as [[_ Hold]|[_ ->]].
    + eapply Hclean; eassumption.
    + intros t e Ht. simpl in Ht. now rewrite (Hpending t Ht).
  - intros r run j t Hr Ht. destruct (Hlook _ _ Hr) as [[_ Hold]|[-> ->]].
    + destruct (Hlogged r run j t Hold Ht) as [H1 H2].
      split; [apply elem_of_app; now right|].
      intros b Hb. apply elem_of_app. right. now apply H2.
    + simpl in Ht. split.
      * apply elem_of_app. left. apply elem_of_launches. eauto.
      * intros b Hb. rewrite (Hpending t) in Hb; [discriminate|].
        apply list_elem_of_lookup. eauto.
  - intros h Hh. rewrite length_app. simpl. apply elem_of_app in Hh as [Hh|Hh].
    + apply elem_of_launches in Hh as (j & t & _ & ->). simpl. lia.
    + specialize (Hruns h Hh). lia.
  - intros r run i n Hr Hin.
    assert (Hin' : Launched r Analyze i n ∈ L).
    { apply elem_of_app in Hin as [Hin|Hin]; [|exact Hin].
      apply elem_of_launches in Hin as (j & t & _ & [=]). }
    destruct (Hlook _ _ Hr) as [[_ Hold]|[-> ->]].
    + eapply Hphase; eassumption.
    + specialize (Hruns _ Hin'). simpl in Hruns. lia.
  - intros r run later earlier i n Hr HL.
    apply app_split in HL as [(l & -> & HL)|(l & Hnew & ->)].
    + assert (Hin : Launched r Analyze i n ∈ L).
      { rewrite HL. apply elem_of_app. right. apply elem_of_cons. now left. }
      pose proof (Hruns _ Hin) as Hlt. simpl in Hlt.
      destruct (Hlook _ _ Hr) as [[_ Hold]|[-> _]]; [|lia].
      destruct (Horder r run l earlier i n Hold HL) as [H1 H2]. split; [exact H1|].
      intros j m Hj. apply elem_of_app in Hj as [Hj|Hj].
      * apply elem_of_launches in Hj as (j' & t & _ & [= -> _ _]). lia.
      * now apply (H2 j m).
    + assert (Hin : Launched r Analyze i n ∈ launches (List.length R) Generate tasks).
      { rewrite Hnew. apply elem_of_app. right. apply elem_of_cons. now left. }
      apply elem_of_launches in Hin as (j & t & _ & [=]).
Qed.

Lemma first_rejection_clean (ts : list Task) :
  (forall t e, t ∈ ts -> status t <> Rejected e) -> first_rejection ts = None.
Proof.
  intros Hc. unfold first_rejection.
  destruct (List.find _ ts) as [[n st]|] eqn:E; [|reflexivity].
  apply List.find_some in E as [Hin Hst]. simpl in Hst.
  destruct st; try discriminate.
  apply list_elem_of_In in Hin. now destruct (Hc _ e Hin).
Qed.

Lemma await_all_generation (ts : list Task) (next : Phase) (run : Run) :
  generation (await_all ts next run) = generation run.
Proof.
  unfold await_all. destruct (first_rejection ts); [reflexivity|].
  now destruct (forallb is_fulfilled ts).
Qed.

(** Passing the [await] a run is at moves the run on. *)
Lemma barrier_advances (run : Run) : gen_clean run -> advances run (barrier run).
Proof.
  intros Hc. unfold advances, barrier.
  destruct (phase run) eqn:Ep; try (rewrite Ep; repeat split; auto; congruence).
  - split; [apply await_all_generation|]. split; [congruence|]. intros Hp. right.
    unfold await_all in Hp. rewrite (first_rejection_clean _ Hc) in Hp.
    destruct (forallb is_fulfilled (generation run)) eqn:Ef.
    + intros t Ht. rewrite forallb_forall in Ef. apply Ef. now apply list_elem_of_In.
    + now destruct Hp.
  - split; [apply await_all_generation|]. split.
    + intros _. unfold await_all. destruct (first_rejection (analysis run)); simpl;
        [discriminate|].
      destruct (forallb is_fulfilled (analysis run)); simpl; [discriminate|].
      rewrite Ep. discriminate.
    + intros _. left. discriminate.
Qed.

Lemma advances_refl (run : Run) : advances run run.
Proof. unfold advances. auto. Qed.

Lemma Inv_barrier_at (R : list Run) (L : list Happening) (r : nat) :
  Inv R L -> Inv (alter barrier r R) L.
Proof.
  intros HI. apply (Inv_advance R); [exact HI | apply length_alter |].
  intros r' run'. destruct (decide (r = r')) as [<-|Hne].
  - rewrite list_lookup_alter_eq. destruct (R !! r) as [run|] eqn:Hr; simpl; [|discriminate].
    intros [= <-]. exists run. split; [reflexivity|].
    apply barrier_advances. exact (inv_clean _ _ HI r run Hr).
  - rewrite list_lookup_alter_ne by exact Hne. intros Hr. exists run'.
    split; [exact Hr | apply advances_refl].
Qed.

Lemma Inv_barriers (R : list Run) (L : list Happening) :
  Inv R L -> Inv (barrier <$> R) L.
Proof.
  intros HI. apply (Inv_advance R); [exact HI | apply length_fmap |].
  intros r run'. rewrite list_lookup_fmap. destruct (R !! r) as [run|] eqn:Hr; simpl;
    [|discriminate].
  intros [= <-]. exists run. split; [reflexivity|].
  apply barrier_advances. exact (inv_clean _ _ HI r run Hr).
Qed.

(** The settling timer of a run that calls an undefined function ends the
    run and keeps the invariant. *)
Lemma Inv_fail (R : list Run) (L : list Happening) (r : nat) (run : Run) (e : JSError) :
  Inv R L -> R !! r = Some run -> phase run <> GenerationFanOut ->
  Inv (<[r := with_phase (Failed e) run]> R) L.
Proof.
  intros HI Hrun Hp. apply (Inv_advance R); [exact HI | apply length_insert |].
  intros r' run'. destruct (decide (r = r')) as [<-|Hne].
  - rewrite list_lookup_insert_eq by (eapply lookup_lt_Some; eassumption).
    intros [= <-]. exists run. split; [exact Hrun|].
    unfold advances. simpl. repeat split; [discriminate | auto].
  - rewrite list_lookup_insert_ne by exact Hne. intros Hr. exists run'.
    split; [exact Hr | apply advances_refl].
Qed.

Lemma settle_runs_log (r i : nat) (ph : TaskPhase) (body : Script bool) (w : World) :
  runs (settle r i ph body w)
  = alter barrier r
      (alter (with_tasks ph (alter (fun t => mkTask (node t) (status_of (body (document w)).2)) i))
             r (runs w)) /\
  log (settle r i ph body w) = Settled r ph i (status_of (body (document w)).2) :: log w.
Proof.
  unfold settle. destruct (body (document w)) as [doc c]. simpl. split; [|reflexivity].
  rewrite list_alter_alter_eq. reflexivity.
Qed.

Lemma settle_generation_Inv (r i : nat) (body : Script bool) (w : World) :
  Inv (runs w) (log w) -> r < List.length (runs w) ->
  (forall j n, Launched r Analyze j n ∉ log w) ->
  (exists doc' success, body (document w) = (doc', Normal success)) ->
  Inv (runs (settle r i Generate body w)) (log (settle r i Generate body w)).
Proof.
  intros HI Hr Hnone (doc' & b & Hb).
  destruct (settle_runs_log r i Generate body w) as [-> ->]. rewrite Hb. simpl.
  apply Inv_barrier_at. apply Inv_fulfil.
  - now apply Inv_log_settled.
  - apply elem_of_cons. now left.
  - intros j n Hin. apply elem_of_cons in Hin as [E|Hin]; [discriminate|].
    now apply (Hnone j n).
Qed.

Lemma settle_analysis_Inv (r i : nat) (body : Script bool) (w : World) :
  Inv (runs w) (log w) -> r < List.length (runs w) ->
  Inv (runs (settle r i Analyze body w)) (log (settle r i Analyze body w)).
Proof.
  intros HI Hr. destruct (settle_runs_log r i Analyze body w) as [-> ->].
  apply Inv_barrier_at.
  apply (Inv_advance (runs w)); [now apply Inv_log_settled | apply length_alter |].
  intros r' run'. destruct (decide (r = r')) as [<-|Hne].
  - rewrite list_lookup_alter_eq. destruct (runs w !! r) as [run|]; simpl; [|discriminate].
    intros [= <-]. exists run. split; [reflexivity|]. unfold advances. simpl. auto.
  - rewrite list_lookup_alter_ne by exact Hne. intros Hr'. exists run'.
    split; [exact Hr' | apply advances_refl].
Qed.

Lemma fan_out_pending (mark : Element -> Element) (nodes : list Element) (doc : Document) :
  forall t, t ∈ (fan_out mark nodes doc).2 -> status t = Pending.
Proof.
  intros t Ht. simpl in Ht. apply list_elem_of_In, in_map_iff in Ht as (el & <- & _).
  reflexivity.
Qed.

Lemma start_run_Inv (c : Category) (launch : Document -> Document * list Task) (w : World) :
  (forall doc t, t ∈ (launch doc).2 -> status t = Pending) ->
  Inv (runs w) (log w) ->
  Inv (runs (start_run c launch w)) (log (start_run c launch w)).
Proof.
  intros Hp HI. unfold start_run. specialize (Hp (document w)).
  destruct (launch (document w)) as [doc tasks]. simpl in *.
  now apply Inv_add_run.
Qed.

Lemma start_run_log (c : Category) (launch : Document -> Document * list Task) (w : World)
    (r i n : nat) :
  Launched r Analyze i n ∈ log (start_run c launch w) -> Launched r Analyze i n ∈ log w.
Proof.
  unfold start_run. destruct (launch (document w)) as [doc tasks]. simpl.
  intros Hin. apply elem_of_app in Hin as [Hin|Hin]; [|exact Hin].
  apply elem_of_launches in Hin as (j & t & _ & [=]).
Qed.

Lemma start_run_length (c : Category) (launch : Document -> Document * list Task) (w : World) :
  List.length (runs (start_run c launch w)) = S (List.length (runs w)).
Proof.
  unfold start_run. destruct (launch (document w)) as [doc tasks]. simpl.
  rewrite length_app. simpl. lia.
Qed.

Lemma continue_immediate_Inv (r : nat) (w : World) (it : nat * Task) :
  Inv (runs w) (log w) /\ r < List.length (runs w) /\
  (forall j n, Launched r Analyze j n ∉ log w) ->
  Inv (runs (continue_immediate r w it)) (log (continue_immediate r w it)) /\
  r < List.length (runs (continue_immediate r w it)) /\
  (forall j n, Launched r Analyze j n ∉ log (continue_immediate r w it)).
Proof.
  intros (HI & Hr & Hnone). unfold continue_immediate.
  destruct (generateAltText _) as [altText|k]; [|auto].
  split; [|split].
  - apply settle_generation_Inv; try assumption. eexists _, _. reflexivity.
  - destruct (settle_runs_log r it.1 Generate
                (image_generation_task (node it.2) (Normal altText)) w) as [-> _].
    now rewrite !length_alter.
  - destruct (settle_runs_log r it.1 Generate
                (image_generation_task (node it.2) (Normal altText)) w) as [_ ->].
    intros j n Hin. apply elem_of_cons in Hin as [E|Hin]; [discriminate|].
    now apply (Hnone j n).
Qed.

Lemma drain_Inv (r : nat) (w : World) :
  Inv (runs w) (log w) -> r < List.length (runs w) ->
  (forall j n, Launched r Analyze j n ∉ log w) ->
  Inv (runs (drain r w)) (log (drain r w)).
Proof.
  intros HI Hr Hnone. unfold drain. destruct (runs w !! r) as [run|]; [|exact HI].
  assert (H : Inv (runs w) (log w) /\ r < List.length (runs w) /\
              (forall j n, Launched r Analyze j n ∉ log w)) by auto.
  clear HI Hr Hnone. revert w H.
  induction (imap pair (generation run)) as [|it its IH]; intros w H; simpl.
  - apply H.
  - apply IH. now apply continue_immediate_Inv.
Qed.

Lemma activate_Inv (w : World) :
  Inv (runs w) (log w) -> Inv (runs (activate w)) (log (activate w)).
Proof.
  intros HI. unfold activate, pass_barriers. simpl. apply Inv_barriers.
  apply drain_Inv.
  - repeat apply start_run_Inv; try assumption;
      intros doc t; unfold highlightLinks, highlightFormFields, highlightImages;
      apply fan_out_pending.
  - rewrite !start_run_length. lia.
  - intros j n Hin. repeat apply start_run_log in Hin.
    pose proof (inv_runs _ _ HI _ Hin) as Hlt. simpl in Hlt. lia.
Qed.

Lemma start_analysis_Inv (r : nat) (run : Run) (w : World) :
  Inv (runs w) (log w) -> runs w !! r = Some run -> phase run = Settling ->
  Inv (runs (start_analysis r run w)) (log (start_analysis r run w)).
Proof.
  intros HI Hrun Hp. unfold start_analysis.
  assert (Hne : phase run <> GenerationFanOut) by (rewrite Hp; discriminate).
  destruct (analysis_entry (category run)) as [analyzeAll|]; simpl.
  - destruct (analyzeAll (document w)) as [doc tasks]. simpl.
    set (new := mkRun (category run) AnalysisFanOut (generation run) tasks).
    replace (<[r := barrier new]> (runs w)) with (alter barrier r (<[r := new]> (runs w))).
    + apply Inv_barrier_at. now apply Inv_begin.
    + apply list_eq. intros k. destruct (decide (r = k)) as [<-|Hk].
      * rewrite list_lookup_alter_eq.
        rewrite !list_lookup_insert_eq by (eapply lookup_lt_Some; eassumption).
        reflexivity.
      * rewrite list_lookup_alter_ne by exact Hk.
        now rewrite !list_lookup_insert_ne by exact Hk.
  - now apply Inv_fail.
Qed.

Lemma pending_task_Some (w : World) (r i : nat) (ph : TaskPhase) (run : Run) (t : Task) :
  pending_task w r i ph = Some (run, t) ->
  runs w !! r = Some run /\ tasks_of ph run !! i = Some t /\ status t = Pending.
Proof.
  unfold pending_task. destruct (runs w !! r) as [run'|]; [|discriminate].
  destruct (tasks_of ph run' !! i) as [t'|] eqn:Et; [|discriminate].
  destruct (status t') eqn:Es; try discriminate. intros [= <- <-]. auto.
Qed.

Lemma step_Inv (w w' : World) (ev : Event) :
  Inv (runs w) (log w) -> step w ev = Some w' -> Inv (runs w') (log w').
Proof.
  intros HI. destruct ev as [enabled|enabled|r i o stamp|r|r i a]; simpl.
  - intros [= <-]. destruct (negb _); [|exact HI]. now apply activate_Inv.
  - intros [= <-]. destruct enabled; [now apply activate_Inv | exact HI].
  - destruct (pending_task w r i Generate) as [[run t]|] eqn:Ep; [|discriminate].
    intros [= <-]. apply pending_task_Some in Ep as (Hrun & Ht & Hst). simpl in Ht.
    apply settle_generation_Inv.
    + exact HI.
    + eapply lookup_lt_Some; eassumption.
    + intros j n Hin. pose proof (inv_phase _ _ HI r run j n Hrun Hin) as Hp.
      assert (Hf : is_fulfilled t = true).
      { apply (inv_done _ _ HI r run Hrun Hp). apply list_elem_of_lookup. eauto. }
      unfold is_fulfilled in Hf. rewrite Hst in Hf. discriminate.
    + apply generation_task_fulfils.
  - destruct (runs w !! r) as [run|] eqn:Hrun; [|discriminate].
    destruct (phase run) eqn:Hp; try discriminate.
    intros [= <-]. now apply start_analysis_Inv.
  - destruct (pending_task w r i Analyze) as [[run t]|] eqn:Ep; [|discriminate].
    intros [= <-]. apply pending_task_Some in Ep as (Hrun & _).
    apply settle_analysis_Inv; [exact HI|]. eapply lookup_lt_Some; eassumption.
Qed.

Lemma loaded_Inv (doc : Document) : Inv (runs (loaded doc)) (log (loaded doc)).
Proof.
  constructor; simpl.
  - intros r run Hr. now rewrite lookup_nil in Hr.
  - intros r run Hr. now rewrite lookup_nil in Hr.
  - intros r run j t Hr. now rewrite lookup_nil in Hr.
  - intros h Hh. now apply elem_of_nil in Hh.
  - intros r run i n Hr. now rewrite lookup_nil in Hr.
  - intros r run later earlier i n Hr. now rewrite lookup_nil in Hr.
Qed.

Lemma steps_Inv (evs : list Event) (w w' : World) :
  Inv (runs w) (log w) -> steps w evs = Some w' -> Inv (runs w') (log w').
Proof.
  revert w. induction evs as [|ev evs IH]; intros w HI; simpl.
  - now intros [= <-].
  - destruct (step w ev) as [w1|] eqn:E; [|discriminate].
    apply IH. eapply step_Inv; eassumption.
Qed.

(** C5 (amended): the order of the phases holds for every run, that is for
    every call of [highlightImages], [highlightFormFields] or
    [highlightLinks]. In every state the pipeline can reach, when an
    analysis task of a run is launched, every generation task of that run has
    been launched and has settled before, with success or with failure, and no
    generation task of the run is launched afterwards. Nothing orders a run
    against another run of the same category. *)
Theorem analysis_starts_after_generation_settled
    (doc : Document) (evs : list Event) (w : World) :
  steps (loaded doc) evs = Some w ->
  forall (r : nat) (run : Run) (later earlier : list Happening) (i n : nat),
    runs w !! r = Some run ->
    log w = later ++ Launched r Analyze i n :: earlier ->
    (forall j t, generation run !! j = Some t ->
       Launched r Generate j (node t) ∈ earlier /\
       exists success, status t = Fulfilled success /\
                       Settled r Generate j (Fulfilled success) ∈ earlier) /\
    (forall j m, Launched r Generate j m ∉ later).
Proof.
  intros Hsteps r run later earlier i n Hrun Hlog.
  pose proof (steps_Inv evs (loaded doc) w (loaded_Inv doc) Hsteps) as HI.
  exact (inv_order _ _ HI r run later earlier i n Hrun Hlog).
Qed.
(** C5, as the specification states it, fails: the order does not hold
    for a category. The stored setting is off; the popup sends the enabling
    message twice, which starts two runs of images on the page with one
    image. When the request of the first run has settled and its timer has
    fired, the analysis task of the first run is launched on the image while
    the generation task of the second run on the same image is pending. *)
Lemma C5_counterexample :
  let events :=
    [ StorageLoaded (Some false); ToggleMessage true; ToggleMessage true;
      GenerationResponse 0 0 (ok_response bicycle_alt_text) "";
      SettleTimer 0 ] in
  log_after gallery events
  = [ Launched 0 Analyze 0 1; Settled 0 Generate 0 (Fulfilled true);
      Launched 3 Generate 0 1; Launched 0 Generate 0 1 ] /\
  ((fun run => (category run, phase run, generation run)) <$> runs_after gallery events) !! 0%nat
  = Some (Image, AnalysisFanOut, [mkTask 1 (Fulfilled true)]) /\
  ((fun run => (category run, phase run, generation run)) <$> runs_after gallery events) !! 3%nat
  = Some (Image, GenerationFanOut, [mkTask 1 Pending]).
Proof. repeat split; vm_compute; reflexivity. Qed.

(** The order of the phases of a run with two images. After one of the two
    descriptions the timer of the run is not armed; after both, the two
    analysis tasks are launched, and at the launch of the first of them both
    generation tasks have been launched and have settled. *)
Lemma analysis_starts_after_generation_settled_witness :
  let page := [body; picture 1 200 100; picture 2 300 300] in
  let first := [StorageLoaded None; GenerationResponse 0 0 (ok_response bicycle_alt_text) ""] in
  let earlier :=
    [ Settled 0 Generate 1 (Fulfilled true); Settled 0 Generate 0 (Fulfilled true);
      Launched 0 Generate 1 2; Launched 0 Generate 0 1 ] in
  steps (loaded page) (first ++ [SettleTimer 0]) = None /\
  (forall j t,
     [mkTask 1 (Fulfilled true); mkTask 2 (Fulfilled true)] !! j = Some t ->
     Launched 0 Generate j (node t) ∈ earlier /\
     exists success, status t = Fulfilled success /\
       Settled 0 Generate j (Fulfilled success) ∈ earlier) /\
  (forall j m, Launched 0 Generate j m ∉ [Launched 0 Analyze 1 2]).
Proof.
  intros page first earlier. split; [vm_compute; reflexivity|].
  apply (analysis_starts_after_generation_settled page
           (first ++ [GenerationResponse 0 1 (ok_response bicycle_alt_text) ""; SettleTimer 0])
           (world_after page
              (first ++ [GenerationResponse 0 1 (ok_response bicycle_alt_text) "";
                         SettleTimer 0]))
           ltac:(vm_compute; reflexivity)
           0%nat
           (mkRun Image AnalysisFanOut
              [mkTask 1 (Fulfilled true); mkTask 2 (Fulfilled true)]
              [mkTask 1 Pending; mkTask 2 Pending])
           [Launched 0 Analyze 1 2] earlier 0%nat 1%nat).
  - vm_compute. reflexivity.
  - vm_compute. reflexivity.
Defined.

(** ** Links are never analysed *)

Lemma barrier_keeps_analysis : keeps_analysis barrier.
Proof.
  intros run. unfold barrier, await_all.
  destruct (phase run); try (split; auto; fail);
    destruct (first_rejection _); try (split; auto; fail);
    destruct (forallb _ _); split; auto.
Qed.

Lemma with_tasks_keeps_analysis (ph : TaskPhase) (f : Task -> Task) (i : nat) :
  keeps_analysis (with_tasks ph (alter f i)).
Proof.
  intros run. destruct ph; simpl; split; auto. now intros ->.
Qed.

Lemma keeps_analysis_compose (g h : Run -> Run) :
  keeps_analysis g -> keeps_analysis h -> keeps_analysis (fun run => g (h run)).
Proof.
  intros Hg Hh run. destruct (Hg (h run)) as [G1 G2]. destruct (Hh run) as [H1 H2].
  split; [congruence | auto].
Qed.

Lemma no_link_analysis_alter (g : Run -> Run) (r : nat) (R : list Run) (L : list Happening) :
  keeps_analysis g -> no_link_analysis R L -> no_link_analysis (alter g r R) L.
Proof.
  intros Hg [K1 K2]. split.
  - intros r' run'. destruct (decide (r = r')) as [<-|Hne].
    + rewrite list_lookup_alter_eq. destruct (R !! r) as [run|] eqn:Hr; simpl; [|discriminate].
      intros [= <-]. destruct (Hg run) as [G1 G2]. rewrite G1. intros Hc.
      apply G2. eapply K1; eassumption.
    + rewrite list_lookup_alter_ne by exact Hne. apply K1.
  - intros r' i n Hin. destruct (K2 r' i n Hin) as (run & Hr & Hc).
    destruct (decide (r = r')) as [<-|Hne].
    + exists (g run). rewrite list_lookup_alter_eq, Hr. split; [reflexivity|].
      now rewrite (proj1 (Hg run)).
    + exists run. now rewrite list_lookup_alter_ne by exact Hne.
Qed.

Lemma no_link_analysis_fmap (g : Run -> Run) (R : list Run) (L : list Happening) :
  keeps_analysis g -> no_link_analysis R L -> no_link_analysis (g <$> R) L.
Proof.
  intros Hg [K1 K2]. split.
  - intros r run'. rewrite list_lookup_fmap.
    destruct (R !! r) as [run|] eqn:Hr; simpl; [|discriminate].
    intros [= <-]. destruct (Hg run) as [G1 G2]. rewrite G1. intros Hc.
    apply G2. eapply K1; eassumption.
  - intros r i n Hin. destruct (K2 r i n Hin) as (run & Hr & Hc).
    exists (g run). rewrite list_lookup_fmap, Hr. split; [reflexivity|].
    now rewrite (proj1 (Hg run)).
Qed.

Lemma no_link_analysis_insert (r : nat) (run new : Run) (R : list Run) (L : list Happening) :
  R !! r = Some run -> category new = category run ->
  (category new = Link -> analysis new = []) ->
  no_link_analysis R L -> no_link_analysis (<[r := new]> R) L.
Proof.
  intros Hr Hc Ha [K1 K2]. pose proof (lookup_lt_Some _ _ _ Hr) as Hlt. split.
  - intros r' run'. destruct (decide (r = r')) as [<-|Hne].
    + rewrite list_lookup_insert_eq by exact Hlt. intros [= <-]. exact Ha.
    + rewrite list_lookup_insert_ne by exact Hne. apply K1.
  - intros r' i n Hin. destruct (K2 r' i n Hin) as (run' & Hr' & Hc').
    destruct (decide (r = r')) as [<-|Hne].
    + exists new. rewrite list_lookup_insert_eq by exact Hlt. split; [reflexivity|].
      rewrite Hr in Hr'. injection Hr' as <-. congruence.
    + exists run'. now rewrite list_lookup_insert_ne by exact Hne.
Qed.

Lemma no_link_analysis_log (R : list Run) (L new : list Happening) :
  (forall r i n, Launched r Analyze i n ∈ new ->
     exists run, R !! r = Some run /\ category run <> Link) ->
  no_link_analysis R L -> no_link_analysis R (new ++ L).
Proof.
  intros Hnew [K1 K2]. split; [exact K1|].
  intros r i n Hin. apply elem_of_app in Hin as [Hin|Hin]; [now apply (Hnew r i n) | now apply (K2 r i n)].
Qed.

Lemma settle_no_link_analysis (r i : nat) (ph : TaskPhase) (body : Script bool) (w : World) :
  no_link_analysis (runs w) (log w) ->
  no_link_analysis (runs (settle r i ph body w)) (log (settle r i ph body w)).
Proof.
  intros K. destruct (settle_runs_log r i ph body w) as [-> ->].
  apply (no_link_analysis_log _ _ [_]).
  - intros r' i' n Hin. apply elem_of_cons in Hin as [E|Hin]; [discriminate|].
    now apply elem_of_nil in Hin.
  - apply no_link_analysis_alter; [apply barrier_keeps_analysis|].
    apply no_link_analysis_alter; [apply with_tasks_keeps_analysis | exact K].
Qed.

Lemma start_run_no_link_analysis (c : Category) (launch : Document -> Document * list Task)
    (w : World) :
  no_link_analysis (runs w) (log w) ->
  no_link_analysis (runs (start_run c launch w)) (log (start_run c launch w)).
Proof.
  intros [K1 K2]. unfold start_run. destruct (launch (document w)) as [doc tasks]. simpl.
  split.
  - intros r run Hr. apply lookup_app_Some in Hr as [Hr|[_ Hr]]; [now apply (K1 r)|].
    apply list_lookup_singleton_Some in Hr as [_ <-]. reflexivity.
  - intros r i n Hin. apply elem_of_app in Hin as [Hin|Hin].
    + apply elem_of_launches in Hin as (j & t & _ & [=]).
    + destruct (K2 r i n Hin) as (run & Hr & Hc). exists run.
      split; [|exact Hc]. apply lookup_app_Some. now left.
Qed.

Lemma drain_no_link_analysis (r : nat) (w : World) :
  no_link_analysis (runs w) (log w) -> no_link_analysis (runs (drain r w)) (log (drain r w)).
Proof.
  intros K. unfold drain. destruct (runs w !! r) as [run|]; [|exact K].
  revert w K. induction (imap pair (generation run)) as [|it its IH]; intros w K; simpl.
  - exact K.
  - apply IH. unfold continue_immediate.
    destruct (generateAltText _); [now apply settle_no_link_analysis | exact K].
Qed.

Lemma activate_no_link_analysis (w : World) :
  no_link_analysis (runs w) (log w) ->
  no_link_analysis (runs (activate w)) (log (activate w)).
Proof.
  intros K. unfold activate, pass_barriers. simpl.
  apply no_link_analysis_fmap; [apply barrier_keeps_analysis|].
  apply drain_no_link_analysis. now repeat apply start_run_no_link_analysis.
Qed.

Lemma start_analysis_no_link_analysis (r : nat) (run : Run) (w : World) :
  runs w !! r = Some run ->
  no_link_analysis (runs w) (log w) ->
  no_link_analysis (runs (start_analysis r run w)) (log (start_analysis r run w)).
Proof.
  intros Hr K. unfold start_analysis.
  destruct (analysis_entry (category run)) as [analyzeAll|] eqn:Ee; simpl.
  - assert (Hc : category run <> Link) by (intros E; rewrite E in Ee; discriminate).
    destruct (analyzeAll (document w)) as [doc tasks]. simpl.
    set (new := barrier (mkRun (category run) AnalysisFanOut (generation run) tasks)).
    assert (Hnew : category new = category run)
      by (unfold new; now rewrite (proj1 (barrier_keeps_analysis _))).
    apply no_link_analysis_log.
    + intros r' i n Hin. apply elem_of_launches in Hin as (j & t & _ & [= -> _ _]).
      exists new. split; [|congruence].
      apply list_lookup_insert_eq. eapply lookup_lt_Some; eassumption.
    + apply (no_link_analysis_insert r run); try assumption. congruence.
  - apply (no_link_analysis_insert r run); try assumption; [reflexivity|].
    simpl. intros Hc. exact (proj1 K r run Hr Hc).
Qed.

Lemma step_no_link_analysis (w w' : World) (ev : Event) :
  no_link_analysis (runs w) (log w) -> step w ev = Some w' ->
  no_link_analysis (runs w') (log w').
Proof.
  intros K. destruct ev as [enabled|enabled|r i o stamp|r|r i a]; simpl.
  - intros [= <-]. destruct (negb _); [|exact K]. now apply activate_no_link_analysis.
  - intros [= <-]. destruct enabled; [now apply activate_no_link_analysis | exact K].
  - destruct (pending_task w r i Generate) as [[run t]|]; [|discriminate].
    intros [= <-]. now apply settle_no_link_analysis.
  - destruct (runs w !! r) as [run|] eqn:Hrun; [|discriminate].
    destruct (phase run); try discriminate.
    intros [= <-]. now apply start_analysis_no_link_analysis.
  - destruct (pending_task w r i Analyze) as [[run t]|]; [|discriminate].
    intros [= <-]. now apply settle_no_link_analysis.
Qed.

(** Whatever the page and whatever the host does, no analysis task of a
    link run exists and none is ever launched. *)
Lemma link_runs_never_analyse (doc : Document) (evs : list Event) (w : World) :
  steps (loaded doc) evs = Some w ->
  forall r run, runs w !! r = Some run -> category run = Link ->
    analysis run = [] /\ forall i n, Launched r Analyze i n ∉ log w.
Proof.
  intros Hsteps.
  assert (K : no_link_analysis (runs w) (log w)).
  { revert Hsteps.
    assert (K0 : no_link_analysis (runs (loaded doc)) (log (loaded doc))).
    { split; simpl.
      - intros r run Hr. now rewrite lookup_nil in Hr.
      - intros r i n Hin. now apply elem_of_nil in Hin. }
    revert K0. generalize (loaded doc). induction evs as [|ev evs IH]; intros w0 K0; simpl.
    - now intros [= <-].
    - destruct (step w0 ev) as [w1|] eqn:E; [|discriminate].
      apply IH. eapply step_no_link_analysis; eassumption. }
  intros r run Hr Hc. destruct K as [K1 K2]. split; [now apply (K1 r)|].
  intros i n Hin. destruct (K2 r i n Hin) as (run' & Hr' & Hc').
  rewrite Hr in Hr'. injection Hr' as <-. contradiction.
Qed.

(** ** The analysis fan-out *)

(** When the settling timer of a link run fires, its callback throws: no
    analysis task is launched and the run ends in the error. *)
Lemma link_timer_launches_nothing (w : World) (r : nat) (run : Run) :
  category run = Link ->
  start_analysis r run w
  = mkWorld (document w) (isEnabled w)
      (<[r := with_phase (Failed ReferenceError) run]> (runs w)) (log w).
Proof. intros H. unfold start_analysis. now rewrite H. Qed.

(** C10 fails for links: on a page with one vague link, one image and one
    unlabeled field, after every generation task has settled and the three
    settling timers have fired, the image and the field are under analysis
    and the link run has ended in a [ReferenceError] without launching any
    analysis task. *)
Theorem link_analysis_never_runs :
  let page := [body; picture 1 200 100; email_input 2 200; anchor "click here"] in
  let events :=
    [ StorageLoaded None;
      GenerationResponse 0 0 (ok_response bicycle_alt_text) "";
      GenerationResponse 1 0 (ok_response email_help) "1";
      GenerationResponse 2 0 (ok_response pricing_link_text) "";
      SettleTimer 0; SettleTimer 1; SettleTimer 2 ] in
  ((fun run => (category run, phase run, analysis run)) <$> runs_after page events)
  = [ (Image, AnalysisFanOut, [mkTask 1 Pending]);
      (FormField, AnalysisFanOut, [mkTask 2 Pending]);
      (Link, Failed ReferenceError, []) ] /\
  List.filter (fun h => match h with Launched _ Analyze _ _ => true | _ => false end)
              (log_after page events)
  = [Launched 1 Analyze 0 2; Launched 0 Analyze 0 1].
Proof. split; vm_compute; reflexivity. Qed.

(** ** Provenance markers *)

Lemma getElement_map (g : Element -> Element) (doc : Document) (m : nat) :
  (forall e, nid (g e) = nid e) ->
  getElement (List.map g doc) m = g <$> getElement doc m.
Proof.
  intros Hg. unfold getElement. induction doc as [|e doc IH]; simpl; [reflexivity|].
  rewrite Hg. destruct (Nat.eqb (nid e) m); [reflexivity | exact IH].
Qed.

Lemma getElement_nid (doc : Document) (n : nat) (e : Element) :
  getElement doc n = Some e -> nid e = n /\ e ∈ doc.
Proof.
  intros H. apply List.find_some in H as [Hin Heq].
  split; [now apply Nat.eqb_eq | now apply list_elem_of_In].
Qed.

Lemma update_preserves_nid (n : nat) (f : Element -> Element) :
  (forall e, nid (f e) = nid e) ->
  forall e, nid (if Nat.eqb (nid e) n then f e else e) = nid e.
Proof. intros Hf e. now destruct (Nat.eqb (nid e) n). Qed.

Lemma getElement_update_eq (n : nat) (f : Element -> Element) (doc : Document) (e : Element) :
  (forall e, nid (f e) = nid e) ->
  getElement doc n = Some e -> getElement (update n f doc) n = Some (f e).
Proof.
  intros Hf He. unfold update. rewrite getElement_map by now apply update_preserves_nid.
  rewrite He. simpl. apply getElement_nid in He as [<- _]. now rewrite Nat.eqb_refl.
Qed.

Lemma set_textContent_preserves_nid (n : nat) (t : string) (doc : Document) (e : Element) :
  nid (if Nat.eqb (nid e) n then with_textContent t e
       else if bool_decide (parent e = Some n) then detached (with_parent None e)
            else if below doc n e then detached e else e) = nid e.
Proof. now repeat destruct (_ : bool). Qed.


Lemma getElement_set_textContent_eq (n : nat) (t : string) (doc : Document) (e : Element) :
  getElement doc n = Some e ->
  getElement (set_textContent n t doc) n = Some (with_textContent t e).
Proof.
  intros He. unfold set_textContent.
  rewrite getElement_map by apply set_textContent_preserves_nid.
  rewrite He. simpl. apply getElement_nid in He as [<- _]. now rewrite Nat.eqb_refl.
Qed.







Lemma getElement_insertBefore_ne (new : Element) (ref : nat) (doc : Document) (m : nat) :
  nid new <> m -> getElement (insertBefore new ref doc) m = getElement doc m.
Proof.
  intros Hne. unfold getElement. induction doc as [|x doc IH]; simpl; [reflexivity|].
  destruct (Nat.eqb (nid x) ref); simpl.
  - apply Nat.eqb_neq in Hne. now rewrite Hne.
  - destruct (Nat.eqb (nid x) m); [reflexivity | exact IH].
Qed.

Lemma fresh_nid_above (doc : Document) (e : Element) : e ∈ doc -> nid e < fresh_nid doc.
Proof.
  unfold fresh_nid. induction doc as [|x doc IH]; intros Hin.
  - now apply elem_of_nil in Hin.
  - apply elem_of_cons in Hin as [->|Hin]; simpl; [lia|]. specialize (IH Hin). lia.
Qed.

(** A change of the elements that keeps identities and an attribute keeps
    the attribute of the element a task holds. *)
Lemma the_map_attribute (g : Element -> Element) (doc : Document) (n : nat) (name : string) :
  (forall e, nid (g e) = nid e) ->
  (forall e, getAttribute (g e) name = getAttribute e name) ->
  getAttribute (the (List.map g doc) n) name = getAttribute (the doc n) name.
Proof.
  intros Hn Ha. unfold the. rewrite getElement_map by exact Hn.
  destruct (getElement doc n); simpl; [apply Ha | reflexivity].
Qed.

Lemma the_update_attribute (m : nat) (f : Element -> Element) (doc : Document) (n : nat)
    (name : string) :
  (forall e, nid (f e) = nid e) ->
  (forall e, getAttribute (f e) name = getAttribute e name) ->
  getAttribute (the (update m f doc) n) name = getAttribute (the doc n) name.
Proof.
  intros Hn Ha. apply the_map_attribute; intros e; destruct (Nat.eqb (nid e) m); auto.
Qed.

Lemma the_set_textContent_attribute (m : nat) (t : string) (doc : Document) (n : nat)
    (name : string) :
  getAttribute (the (set_textContent m t doc) n) name = getAttribute (the doc n) name.
Proof.
  apply the_map_attribute; intros e; [apply set_textContent_preserves_nid|].
  destruct (Nat.eqb (nid e) m); [reflexivity|].
  destruct (bool_decide _); [reflexivity|]. now destruct (below doc m e).
Qed.

Lemma setAttribute_other (name k v : string) (e : Element) :
  k <> name -> getAttribute (setAttribute k v e) name = getAttribute e name.
Proof. intros H. unfold getAttribute. simpl. now rewrite lookup_insert_ne. Qed.


Lemma addGeneratedLinkText_marks (doc : Document) (n : nat) (link : Element)
    (newText : string) :
  getElement doc n = Some link ->
  exists link',
    getElement (addGeneratedLinkText n newText doc).1 n = Some link' /\
    textContent link' = newText /\
    getAttribute link' "data-original-text" = Some (getLinkText link) /\
    getAttribute link' "data-ai-generated" = Some "true".
Proof.
  intros Hlink. unfold addGeneratedLinkText, bind, element, read, write, the. simpl.
  rewrite Hlink. simpl.
  eexists. split.
  - apply getElement_update_eq; [reflexivity|].
    apply getElement_update_eq; [reflexivity|].
    apply getElement_update_eq; [reflexivity|].
    apply getElement_set_textContent_eq.
    apply getElement_update_eq; [reflexivity|].
    exact Hlink.
  - split; [reflexivity|]. unfold getAttribute. simpl.
    split; [now rewrite !lookup_insert_ne, lookup_insert_eq by discriminate|].
    now rewrite lookup_insert_ne, lookup_insert_eq by discriminate.
Qed.



Lemma addGeneratedLinkText_completes (n : nat) (newText : string) (d : Document) :
  addGeneratedLinkText n newText d = ((addGeneratedLinkText n newText d).1, Normal tt).
Proof. reflexivity. Qed.












(** * Further properties of the code *)

(** ** The popup and the activation of the pipeline *)

Lemma clicks_isEnabled (n : nat) (s : Popup.Session) :
  Popup.isEnabled (Popup.clicks n s) = Popup.isEnabled s.
Proof. induction n as [|n IH]; [reflexivity | exact IH]. Qed.

Lemma clicks_sent (n : nat) (s : Popup.Session) :
  Popup.sent (Popup.clicks n s)
  = Popup.sent s ++ List.repeat (negb (Popup.isEnabled s)) n.
Proof.
  induction n as [|n IH]; simpl.
  - now rewrite app_nil_r.
  - fold (Popup.clicks n s). rewrite IH, clicks_isEnabled, List.repeat_cons.
    now rewrite app_assoc.
Qed.

(** X1 (popup.js): the click handler negates the constant read when the
    popup was opened, not the current setting. However often the button is
    clicked in one popup session, the setting stored, the label of the
    button and every message sent to the content script carry the same
    state, the opposite of the state at opening: a second click does not
    switch back. *)
Theorem popup_clicks_all_send_the_same_state (stored : option bool) (n : nat) :
  let opened := Popup.DOMContentLoaded stored in
  let new := negb (Popup.isEnabled opened) in
  let s := Popup.clicks (S n) opened in
  Popup.storage s = Some new /\
  Popup.toggleBtn s = Popup.updateButton new /\
  Popup.sent s = List.repeat new (S n).
Proof.
  intros opened new s. unfold s. split; [|split].
  - simpl. fold (Popup.clicks n opened). now rewrite clicks_isEnabled.
  - simpl. fold (Popup.clicks n opened). now rewrite clicks_isEnabled.
  - rewrite clicks_sent. reflexivity.
Qed.

Lemma fmap_alter_category (g : Run -> Run) (r : nat) (R : list Run) :
  (forall run, category (g run) = category run) ->
  category <$> alter g r R = category <$> R.
Proof.
  intros Hg. revert r. induction R as [|run R IH]; intros [|r]; simpl; try reflexivity.
  - now rewrite Hg.
  - f_equal. apply IH.
Qed.

Lemma barrier_category (run : Run) : category (barrier run) = category run.
Proof. apply barrier_keeps_analysis. Qed.

Lemma settle_categories (r i : nat) (ph : TaskPhase) (body : Script bool) (w : World) :
  category <$> runs (settle r i ph body w) = category <$> runs w.
Proof.
  destruct (settle_runs_log r i ph body w) as [-> _].
  rewrite !fmap_alter_category; [reflexivity | | apply barrier_category].
  intros run. now destruct ph.
Qed.

Lemma drain_categories (r : nat) (w : World) :
  category <$> runs (drain r w) = category <$> runs w.
Proof.
  unfold drain. destruct (runs w !! r) as [run|]; [|reflexivity].
  revert w. induction (imap pair (generation run)) as [|it its IH]; intros w; simpl.
  - reflexivity.
  - rewrite IH. unfold continue_immediate.
    destruct (generateAltText _); [apply settle_categories | reflexivity].
Qed.

Lemma start_run_categories (c : Category) (launch : Document -> Document * list Task)
    (w : World) :
  category <$> runs (start_run c launch w) = (category <$> runs w) ++ [c].
Proof.
  unfold start_run. destruct (launch (document w)) as [doc tasks]. simpl.
  now rewrite fmap_app.
Qed.

Lemma activate_categories (w : World) :
  category <$> runs (activate w) = (category <$> runs w) ++ [Image; FormField; Link].
Proof.
  unfold activate, pass_barriers. simpl. rewrite <- list_fmap_compose.
  erewrite list_fmap_ext by (intros i x _; apply barrier_category).
  rewrite drain_categories, !start_run_categories, <- !app_assoc. reflexivity.
Qed.

(** X2 (content.js, the message listener): a toggle message that enables
    the pipeline always starts three new runs, for images, form fields and
    links in this order, whatever runs are already there and whatever
    phase they are in: the listener has no guard against a pipeline that is
    running. The earlier runs stay in the list. *)
Theorem enabling_always_starts_three_runs (w : World) :
  exists w',
    step w (ToggleMessage true) = Some w' /\
    category <$> runs w' = (category <$> runs w) ++ [Image; FormField; Link].
Proof.
  eexists. split; [reflexivity|].
  rewrite activate_categories. reflexivity.
Qed.

Lemma steps_enable_repeat (n : nat) (w : World) :
  exists w', steps w (ToggleMessage <$> List.repeat true n) = Some w' /\
             List.length (runs w') = List.length (runs w) + 3 * n.
Proof.
  revert w. induction n as [|n IH]; intros w.
  - exists w. split; [reflexivity | lia].
  - change (steps w (ToggleMessage <$> List.repeat true (S n)))
      with (steps (activate (set_enabled true w)) (ToggleMessage <$> List.repeat true n)).
    destruct (IH (activate (set_enabled true w))) as (w' & Hs & Hl).
    exists w'. split; [exact Hs|]. rewrite Hl.
    rewrite <- (length_fmap category (runs (activate _))), activate_categories.
    rewrite length_app, length_fmap. simpl. lia.
Qed.

(** X3 (popup.js with content.js): in a popup opened while the pipeline is
    off, every click sends the message that enables it, and the content
    script starts the three runs again for each of them: after [n] clicks
    there are [3 * n] more runs on the page. *)
Theorem each_click_on_enable_restarts_the_pipeline (w : World) (n : nat) :
  let s := Popup.clicks n (Popup.DOMContentLoaded (Some false)) in
  exists w', steps w (ToggleMessage <$> Popup.sent s) = Some w' /\
             List.length (runs w') = List.length (runs w) + 3 * n.
Proof.
  intros s. unfold s. rewrite clicks_sent. simpl. apply steps_enable_repeat.
Qed.

(** ** The classifiers of images and form fields *)

Lemma trimEnd_idempotent (s : string) : trimEnd (trimEnd s) = trimEnd s.
Proof.
  induction s as [|c r IH]; [reflexivity|]. simpl.
  destruct (trimEnd r) as [|c' r'] eqn:E.
  - destruct (is_white_space c) eqn:Ec; [reflexivity|]. simpl. now rewrite Ec.
  - change (trimEnd (String c (String c' r')))
      with (match trimEnd (String c' r') with
            | EmptyString => if is_white_space c then EmptyString else String c EmptyString
            | r'' => String c r''
            end).
    now rewrite IH.
Qed.

Lemma trimStart_fixed (s : string) :
  match s with String c _ => is_white_space c = false | EmptyString => True end ->
  trimStart s = s.
Proof. destruct s as [|c r]; [reflexivity|]. simpl. now intros ->. Qed.

Lemma trimStart_head (s : string) :
  match trimStart s with String c _ => is_white_space c = false | EmptyString => True end.
Proof.
  induction s as [|c r IH]; [exact I|]. simpl.
  destruct (is_white_space c) eqn:Ec; [exact IH | exact Ec].
Qed.

Lemma trimEnd_head (s : string) :
  match s with String c _ => is_white_space c = false | EmptyString => True end ->
  match trimEnd s with String c _ => is_white_space c = false | EmptyString => True end.
Proof.
  destruct s as [|c r]; [auto|]. simpl. intros Hc.
  destruct (trimEnd r); [now rewrite Hc | exact Hc].
Qed.

Lemma trim_idempotent (s : string) : trim (trim s) = trim s.
Proof.
  unfold trim. rewrite (trimStart_fixed (trimEnd (trimStart s))).
  - apply trimEnd_idempotent.
  - apply trimEnd_head, trimStart_head.
Qed.

(** X4 (content.js, needsAltText and hasExistingAltText): on one state of
    the page no image is both a candidate of the generation phase and a
    candidate of the analysis phase: an image that has a meaningful [alt]
    or [aria-label] is never sent to generation. *)
Theorem image_is_generated_or_analysed_not_both (doc : Document) (img : Element) :
  needsAltText doc img && hasExistingAltText img = false.
Proof.
  unfold needsAltText, hasExistingAltText.
  destruct (meaningful (getAttribute img "alt")); [reflexivity|].
  destruct (meaningful (getAttribute img "aria-label")); [reflexivity|].
  apply andb_false_r.
Qed.

(** X5 (content.js, needsLabel and the filter of analyzeAllFormFields): the
    test on the type of a field is shared: a field that [needsLabel]
    accepts has a type that the filter of [analyzeAllFormFields] accepts as
    well. Whether the field is analysed depends, beyond this test, on its
    being in the document when the analysis queries the page. *)
Theorem generation_candidate_passes_analysis_filter (doc : Document) (input : Element) :
  needsLabel doc input = true -> analyzable_field input = true.
Proof.
  unfold needsLabel, analyzable_field.
  destruct (not_labelable input); [discriminate|]. intros _. apply orb_true_r.
Qed.

Lemma generation_candidate_passes_analysis_filter_witness :
  needsLabel [body; email_input 2 200] (email_input 2 200) = true /\
  analyzable_field (email_input 2 200) = true.
Proof.
  split; [vm_compute; reflexivity|].
  apply (generation_candidate_passes_analysis_filter [body; email_input 2 200]).
  vm_compute. reflexivity.
Defined.

(** X6 (content.js, getCurrentLabel and needsLabel): whenever
    [getCurrentLabel] finds a label text for a field, [needsLabel] rejects
    the field: a field that the generation phase takes up has the empty
    current label. *)
Theorem field_with_current_label_needs_none (doc : Document) (input : Element) :
  getCurrentLabel doc input <> "" -> needsLabel doc input = false.
Proof.
  unfold getCurrentLabel, needsLabel, hasVisibleLabel.
  destruct (not_labelable input); [reflexivity|].
  assert (T : forall s, s <> "" -> truthy s = true) by (intros [|c s] H; [congruence | reflexivity]).
  destruct (truthy (id input)).
  - destruct (querySelector (sel_label_for (id input)) doc) as [label|].
    + intros H. now rewrite (T _ H).
    + simpl. destruct (closest doc "LABEL" input) as [parentLabel|].
      * intros H. now rewrite (T _ H).
      * destruct (getAttribute input "aria-label") as [a|]; simpl.
        -- destruct (truthy a) eqn:Ea; simpl.
           ++ intros H. now rewrite (T _ H).
           ++ unfold labelledby_resolves.
              destruct (getAttribute input "aria-labelledby") as [r|]; simpl; [|congruence].
              destruct (truthy r); simpl; [|congruence].
              destruct (getElementById doc r) as [el|]; [|congruence].
              intros H. now rewrite (T _ H).
        -- unfold labelledby_resolves.
           destruct (getAttribute input "aria-labelledby") as [r|]; simpl; [|congruence].
           destruct (truthy r); simpl; [|congruence].
           destruct (getElementById doc r) as [el|]; [|congruence].
           intros H. now rewrite (T _ H).
  - destruct (closest doc "LABEL" input) as [parentLabel|].
    + intros H. rewrite (T _ H). now rewrite orb_true_r.
    + rewrite orb_false_r.
      destruct (querySelector (sel_label_for (id input)) doc) as [l|];
        [destruct (truthy (trim (Dom.textContent l))); [reflexivity|]|];
        (destruct (getAttribute input "aria-label") as [a|]; simpl;
         [destruct (truthy a) eqn:Ea; simpl; [intros H; now rewrite (T _ H)|]|];
         unfold labelledby_resolves;
         (destruct (getAttribute input "aria-labelledby") as [r|]; simpl; [|congruence]);
         (destruct (truthy r); simpl; [|congruence]);
         (destruct (getElementById doc r) as [el|]; [|congruence]);
         intros H; now rewrite (T _ H)).
Qed.

Lemma field_with_current_label_needs_none_witness :
  let input := setAttribute "aria-label" "Email" (email_input 2 200) in
  getCurrentLabel [body; input] input = "Email" /\ needsLabel [body; input] input = false.
Proof.
  split; [vm_compute; reflexivity|].
  apply field_with_current_label_needs_none. vm_compute. discriminate.
Defined.

Lemma generateAltText_trimmed (img : Element) (o : FetchOutcome) :
  result_of (generateAltText img) o = "" \/
  truthy (trim (result_of (generateAltText img) o)) = true.
Proof.
  destruct (read_structured o) as [payload|e] eqn:E.
  - apply read_structured_returns in E as (status & statusText & ->).
    rewrite generateAltText_payload. destruct (too_small img); [now right|].
    unfold alt_text_of. destruct payload as [| |b|n|s|l|fields]; auto.
    destruct (_ || _); [now left|].
    destruct (default JUndefined (assoc "alt_text" fields)) as [| |b|n|s|l|fs]; auto.
    rewrite trim_idempotent. destruct (trim s); auto.
  - rewrite (generateAltText_failure img o e E). destruct (too_small img); now right.
Qed.

(** X7 (content.js, highlightImages with needsAltText and
    hasExistingAltText): once the generation task of an image has applied
    its description, the image is no candidate of the generation phase any
    more, unless the description is one of the generic words that
    [isGenericAltText] rejects; and when the description is not empty the
    image is a candidate of the analysis phase. This covers the empty
    description of a decorative image and the fallback text of a failed
    request, which is analysed like a description. *)
Theorem described_image_is_not_generated_again (doc : Document) (n : nat) (img : Element)
    (o : FetchOutcome) (stamp : string) :
  getElement doc n = Some img ->
  isGenericAltText (result_of (generateAltText img) o) = false ->
  let doc' := (generation_task Image n o stamp doc).1 in
  needsAltText doc' (the doc' n) = false /\
  (result_of (generateAltText img) o <> "" -> hasExistingAltText (the doc' n) = true).
Proof.
  intros Himg Hgen doc'.
  assert (Hthe : the doc' n
                 = setStyle "border" "3px solid green"
                     (setAttribute "alt" (result_of (generateAltText img) o) img)).
  { unfold doc', generation_task, bind, element, read, the. simpl. rewrite Himg. simpl.
    erewrite getElement_update_eq; [reflexivity | reflexivity |].
    apply getElement_update_eq; [reflexivity | exact Himg]. }
  rewrite Hthe. unfold needsAltText, hasExistingAltText.
  assert (Halt : getAttribute (setStyle "border" "3px solid green"
                    (setAttribute "alt" (result_of (generateAltText img) o) img)) "alt"
                 = Some (result_of (generateAltText img) o))
    by (unfold getAttribute; simpl; apply lookup_insert_eq).
  rewrite Halt. simpl. rewrite Hgen. simpl.
  destruct (generateAltText_trimmed img o) as [-> | Ht].
  - simpl. split; [|congruence]. destruct (meaningful _); [reflexivity|].
    now destruct (labelledby_resolves _ _).
  - rewrite Ht, (trim_truthy _ Ht). split; reflexivity.
Qed.

Lemma described_image_is_not_generated_again_witness :
  let doc' := (generation_task Image 1 (ok_response bicycle_alt_text) "" gallery).1 in
  needsAltText gallery (picture 1 200 100) = true /\
  needsAltText doc' (the doc' 1) = false /\
  (result_of (generateAltText (picture 1 200 100)) (ok_response bicycle_alt_text) <> "" ->
   hasExistingAltText (the doc' 1) = true).
Proof.
  split; [vm_compute; reflexivity|].
  apply (described_image_is_not_generated_again gallery 1 (picture 1 200 100));
    vm_compute; reflexivity.
Defined.

(** ** Teardown on deactivation *)

Lemma keeps_content_refl (e : Element) : keeps_content e e.
Proof. now split. Qed.

Lemma keeps_content_trans (a b c : Element) :
  keeps_content a b -> keeps_content b c -> keeps_content a c.
Proof.
  intros [A1 A2 A3 A4 A5 A6] [B1 B2 B3 B4 B5 B6].
  split; try congruence. auto.
Qed.

Lemma keeps_all_refl (doc : Document) : Forall2 keeps_content doc doc.
Proof. induction doc; constructor; [apply keeps_content_refl | assumption]. Qed.

Lemma keeps_all_trans (a b c : Document) :
  Forall2 keeps_content a b -> Forall2 keeps_content b c -> Forall2 keeps_content a c.
Proof.
  intros Hab. revert c. induction Hab as [|x y a b Hxy Hab IH]; intros c Hbc.
  - inversion Hbc. constructor.
  - inversion Hbc as [|y' z b' c' Hyz Hbc']; subst. constructor.
    + eapply keeps_content_trans; eassumption.
    + now apply IH.
Qed.

Lemma keeps_all_map (g : Element -> Element) (doc : Document) :
  (forall e, keeps_content e (g e)) -> Forall2 keeps_content doc (List.map g doc).
Proof. intros Hg. induction doc; simpl; constructor; [apply Hg | assumption]. Qed.

Lemma keeps_all_update (n : nat) (f : Element -> Element) (doc : Document) :
  (forall e, keeps_content e (f e)) -> Forall2 keeps_content doc (update n f doc).
Proof.
  intros Hf. apply keeps_all_map. intros e.
  destruct (Nat.eqb (nid e) n); [apply Hf | apply keeps_content_refl].
Qed.

Lemma keeps_all_remove (n : nat) (doc : Document) :
  Forall2 keeps_content doc (remove n doc).
Proof.
  apply keeps_all_map. intros e.
  destruct (Nat.eqb (nid e) n); [now split|].
  destruct (below doc n e); now split.
Qed.

Lemma for_each_cons (x : Element) (l : list Element) (f : nat -> Document -> Document)
    (doc : Document) :
  for_each (x :: l) f doc = for_each l f (f (nid x) doc).
Proof. reflexivity. Qed.

Lemma keeps_all_for_each (l : list Element) (f : nat -> Document -> Document)
    (doc : Document) :
  (forall n d, Forall2 keeps_content d (f n d)) ->
  Forall2 keeps_content doc (for_each l f doc).
Proof.
  intros Hf. revert doc. induction l as [|x l IH]; intros doc.
  - apply keeps_all_refl.
  - rewrite for_each_cons. eapply keeps_all_trans; [apply Hf | apply IH].
Qed.

(** The element a task holds is the same object after the change. *)
Lemma keeps_all_getElement (doc doc' : Document) (n : nat) :
  Forall2 keeps_content doc doc' ->
  match getElement doc n with
  | Some e => exists e', getElement doc' n = Some e' /\ keeps_content e e'
  | None => getElement doc' n = None
  end.
Proof.
  unfold getElement. induction 1 as [|x y a b Hxy Hab IH]; simpl; [reflexivity|].
  rewrite (keeps_nid _ _ Hxy). destruct (Nat.eqb (nid x) n); [eauto | exact IH].
Qed.

Lemma keeps_all_elem_of (doc doc' : Document) (e' : Element) :
  Forall2 keeps_content doc doc' -> e' ∈ doc' ->
  exists e, e ∈ doc /\ keeps_content e e'.
Proof.
  induction 1 as [|x y a b Hxy Hab IH]; intros Hin.
  - now apply elem_of_nil in Hin.
  - apply elem_of_cons in Hin as [->|Hin].
    + exists x. split; [apply elem_of_cons; now left | exact Hxy].
    + destruct (IH Hin) as (e & He & Hk). exists e. split; [|exact Hk].
      apply elem_of_cons. now right.
Qed.

Lemma keeps_marker (e e' : Element) :
  keeps_content e e' -> sel_ai_generated e' = sel_ai_generated e.
Proof. intros H. unfold sel_ai_generated, getAttribute. now rewrite (keeps_attributes _ _ H). Qed.

Lemma filter_nil_iff {A} (p : A -> bool) (l : list A) :
  (forall x, x ∈ l -> p x = false) -> List.filter p l = [].
Proof.
  induction l as [|x l IH]; intros H; [reflexivity|]. simpl.
  rewrite (H x) by (apply elem_of_cons; now left).
  apply IH. intros y Hy. apply H, elem_of_cons. now right.
Qed.

Lemma no_marker_kept (doc doc' : Document) :
  Forall2 keeps_content doc doc' ->
  querySelectorAll sel_ai_generated doc = [] ->
  querySelectorAll sel_ai_generated doc' = [].
Proof.
  intros Hk Hnone. apply filter_nil_iff. intros e' He'.
  destruct (keeps_all_elem_of _ _ _ Hk He') as (e & He & Hke).
  destruct (connected e' && sel_ai_generated e') eqn:E; [|reflexivity].
  apply andb_prop in E as [Ec Es].
  assert (Hin : List.In e (querySelectorAll sel_ai_generated doc)).
  { apply List.filter_In. split; [now apply list_elem_of_In|].
    rewrite (keeps_connected _ _ Hke Ec). now rewrite <- (keeps_marker _ _ Hke). }
  rewrite Hnone in Hin. destruct Hin.
Qed.

Lemma remove_detaches (n : nat) (doc : Document) (e' : Element) :
  e' ∈ remove n doc -> nid e' = n -> connected e' = false.
Proof.
  intros Hin Hn. apply list_elem_of_In, in_map_iff in Hin as (e & <- & _).
  destruct (Nat.eqb (nid e) n) eqn:E; [reflexivity|].
  apply Nat.eqb_neq in E. destruct (below doc n e); simpl in Hn; congruence.
Qed.

Lemma for_each_remove (l : list Element) (doc : Document) :
  Forall2 keeps_content doc (for_each l remove doc) /\
  forall e', e' ∈ for_each l remove doc -> nid e' ∈ nid <$> l -> connected e' = false.
Proof.
  revert doc. induction l as [|x l IH]; intros doc.
  - split; [apply keeps_all_refl|]. intros e' _ Hin. now apply elem_of_nil in Hin.
  - rewrite for_each_cons. destruct (IH (remove (nid x) doc)) as [Hk Hd]. split.
    + eapply keeps_all_trans; [apply keeps_all_remove | exact Hk].
    + intros e' He' Hin. rewrite fmap_cons in Hin. apply elem_of_cons in Hin as [Hn|Hin].
      * destruct (keeps_all_elem_of _ _ _ Hk He') as (e1 & He1 & Hke).
        destruct (connected e') eqn:Ec; [|reflexivity].
        rewrite <- (keeps_connected _ _ Hke Ec).
        eapply remove_detaches; [exact He1|]. rewrite <- Hn. symmetry. apply Hke.
      * now apply Hd.
Qed.

Lemma highlight_loop_keeps (l : list Element) (f : Element -> Element) (doc : Document) :
  (forall e, keeps_content e (f e)) ->
  Forall2 keeps_content doc (for_each l (fun n => update n f) doc).
Proof. intros Hf. apply keeps_all_for_each. intros n d. now apply keeps_all_update. Qed.

Lemma removeHighlights_keeps (doc : Document) :
  Forall2 keeps_content doc (removeHighlights doc).
Proof. apply highlight_loop_keeps. intros e. now split. Qed.

Lemma removeFormHighlights_keeps (doc : Document) :
  Forall2 keeps_content doc (removeFormHighlights doc).
Proof.
  unfold removeFormHighlights. eapply keeps_all_trans; [|apply for_each_remove].
  apply highlight_loop_keeps. intros e. now split.
Qed.

Lemma marker_selected (doc : Document) (e : Element) :
  e ∈ doc -> connected e = true -> sel_ai_generated e = true ->
  nid e ∈ nid <$> querySelectorAll sel_ai_generated doc.
Proof.
  intros Hin Hc Hs. apply list_elem_of_fmap. exists e. split; [reflexivity|].
  apply list_elem_of_In, List.filter_In. split; [now apply list_elem_of_In|].
  now rewrite Hc, Hs.
Qed.

Lemma no_marker_after_removeFormHighlights (doc : Document) :
  querySelectorAll sel_ai_generated (removeFormHighlights doc) = [].
Proof.
  unfold removeFormHighlights.
  set (d := for_each (querySelectorAll (has_class _) doc) _ doc).
  destruct (for_each_remove (querySelectorAll sel_ai_generated d) d) as [Hk Hd].
  apply filter_nil_iff. intros e' He'.
  destruct (connected e' && sel_ai_generated e') eqn:E; [|reflexivity].
  apply andb_prop in E as [Ec Es].
  destruct (keeps_all_elem_of _ _ _ Hk He') as (e & He & Hke).
  rewrite <- Ec. apply Hd; [exact He'|].
  rewrite (keeps_nid _ _ Hke). apply marker_selected; [exact He | now apply Hke |].
  now rewrite <- (keeps_marker _ _ Hke).
Qed.

(** X8 (content.js, removeFormHighlights): after [removeFormHighlights] no
    element of the document carries [data-ai-generated="true"]: the function
    removes every such element, the improved links as well as the generated
    labels. *)
Theorem removeFormHighlights_leaves_no_marked_element (doc : Document) :
  querySelectorAll sel_ai_generated (removeFormHighlights doc) = [].
Proof. apply no_marker_after_removeFormHighlights. Qed.


Lemma removeLinkHighlights_after_form (doc : Document) :
  Forall2 keeps_content (removeFormHighlights doc)
          (removeLinkHighlights (removeFormHighlights doc)).
Proof.
  unfold removeLinkHighlights.
  set (d := for_each (querySelectorAll (has_class _) (removeFormHighlights doc)) _ _).
  assert (Hk : Forall2 keeps_content (removeFormHighlights doc) d).
  { apply highlight_loop_keeps. intros e. simpl. destruct (attr_truthy _); now split. }
  rewrite (no_marker_kept _ _ Hk (no_marker_after_removeFormHighlights doc)).
  exact Hk.
Qed.

Lemma deactivate_keeps (w : World) :
  Forall2 keeps_content (document w) (document (deactivate w)).
Proof.
  simpl. eapply keeps_all_trans; [apply removeHighlights_keeps|].
  eapply keeps_all_trans; [apply removeFormHighlights_keeps|].
  apply removeLinkHighlights_after_form.
Qed.

(** X9 (content.js, the message listener with removeHighlights,
    removeFormHighlights and removeLinkHighlights): switching the pipeline
    off reverts no attribute: the attributes (classes and styles apart) and
    the [id] of every element, in the document or taken out of it, are as
    before. The generated [alt] texts, the [aria-label]s and the generated
    ids stay on the page, and so do the provenance attributes of the
    improved links, because [removeLinkHighlights] runs after
    [removeFormHighlights] has taken the marked elements out of the
    document. *)
Theorem switching_off_reverts_no_attribute (w : World) (n : nat) :
  exists w',
    step w (ToggleMessage false) = Some w' /\
    attributes <$> getElement (document w') n = attributes <$> getElement (document w) n /\
    id <$> getElement (document w') n = id <$> getElement (document w) n.
Proof.
  eexists. split; [reflexivity|].
  pose proof (keeps_all_getElement _ _ n (deactivate_keeps (set_enabled false w))) as H.
  change (document (set_enabled false w)) with (document w) in H.
  destruct (getElement (document w) n) as [e|].
  - destruct H as (e' & -> & Hk). simpl.
    now rewrite (keeps_attributes _ _ Hk), (keeps_id _ _ Hk).
  - now rewrite H.
Qed.



(** ** Restoring the text of a link *)

Lemma getElement_update_ne (m n : nat) (f : Element -> Element) (doc : Document) :
  (forall e, nid (f e) = nid e) -> m <> n ->
  getElement (update m f doc) n = getElement doc n.
Proof.
  intros Hf Hne. unfold update. rewrite getElement_map by now apply update_preserves_nid.
  destruct (getElement doc n) as [e|] eqn:E; [|reflexivity]. simpl.
  apply getElement_nid in E as [Hn _]. rewrite Hn.
  assert (E : Nat.eqb n m = false) by (apply Nat.eqb_neq; congruence).
  now rewrite E.
Qed.

(** Setting the text of another element leaves the attributes and the
    text of an element as they are. *)
Lemma getElement_set_textContent_ne (m n : nat) (t : string) (doc : Document) (e : Element) :
  m <> n -> getElement doc n = Some e ->
  exists e', getElement (set_textContent m t doc) n = Some e' /\
             attributes e' = attributes e /\ Dom.textContent e' = Dom.textContent e.
Proof.
  intros Hne He. unfold set_textContent.
  rewrite getElement_map by apply set_textContent_preserves_nid. rewrite He. simpl.
  apply getElement_nid in He as [Hn _]. rewrite Hn.
  assert (E : Nat.eqb n m = false) by (apply Nat.eqb_neq; congruence).
  rewrite E.
  eexists. split; [reflexivity|].
  destruct (bool_decide (parent e = Some m)); [now split|].
  destruct (below doc m e); now split.
Qed.

Lemma removeLinkHighlights_loops (doc : Document) :
  removeLinkHighlights doc
  = let d :=
      for_each (querySelectorAll (has_class ["ai-link-highlight"; "ai-link-analysis"]) doc)
        (fun n => update n (fun link =>
           let link := classList_remove ["ai-link-highlight"; "ai-link-analysis"]
                         (clearStyle "outline" link) in
           if attr_truthy (getAttribute link "data-ai-generated")
           then clearStyle "background" (clearStyle "border-left" (clearStyle "padding-left" link))
           else link))
        doc in
    for_each (querySelectorAll sel_ai_generated d) restore_link d.
Proof. reflexivity. Qed.

(** What [restore_link] does to the other elements. *)
Lemma restore_link_other (m n : nat) (d : Document) (e : Element) :
  m <> n -> getElement d n = Some e ->
  exists e', getElement (restore_link m d) n = Some e' /\
             attributes e' = attributes e /\ Dom.textContent e' = Dom.textContent e.
Proof.
  intros Hne He. unfold restore_link.
  rewrite getElement_update_ne by (reflexivity || exact Hne).
  destruct (getElement d m) as [link|]; [|eauto].
  destruct (getAttribute link "data-original-text") as [t|]; [|eauto].
  destruct (truthy t); [|eauto].
  now apply getElement_set_textContent_ne.
Qed.

Lemma removed_attributes (x : Element) :
  let x' := removeAttribute "data-ai-generated"
              (removeAttribute "data-original-text" (removeAttribute "title" x)) in
  getAttribute x' "data-ai-generated" = None /\
  getAttribute x' "data-original-text" = None /\
  getAttribute x' "title" = None.
Proof.
  unfold getAttribute. simpl. split; [|split].
  - apply lookup_delete_eq.
  - rewrite lookup_delete_ne by discriminate. apply lookup_delete_eq.
  - rewrite !lookup_delete_ne by discriminate. apply lookup_delete_eq.
Qed.

Section Restore.

Variable n : nat.
Variables originalText text : string.

Lemma restore_link_own_turn (d : Document) :
  awaits_restoring n originalText text d ->
  restored n (if truthy originalText then originalText else text) (restore_link n d).
Proof.
  intros (x & Hx & Ho & Ht). unfold restore_link. rewrite Hx, Ho.
  destruct (truthy originalText).
  - eexists. split.
    + apply getElement_update_eq; [reflexivity|].
      apply getElement_set_textContent_eq. exact Hx.
    + split; [reflexivity | apply removed_attributes].
  - eexists. split.
    + apply getElement_update_eq; [reflexivity | exact Hx].
    + split; [exact Ht | apply removed_attributes].
Qed.

Lemma restore_link_again (t : string) (d : Document) :
  restored n t d -> restored n t (restore_link n d).
Proof.
  intros (x & Hx & Ht & Ha & Ho & Hti). unfold restore_link. rewrite Hx, Ho.
  eexists. split.
  - apply getElement_update_eq; [reflexivity | exact Hx].
  - split; [exact Ht | apply removed_attributes].
Qed.

Lemma restore_link_keeps_waiting (m : nat) (d : Document) :
  m <> n -> awaits_restoring n originalText text d ->
  awaits_restoring n originalText text (restore_link m d).
Proof.
  intros Hne (x & Hx & Ho & Ht).
  destruct (restore_link_other m n d x Hne Hx) as (x' & Hx' & Ha & Htx).
  exists x'. split; [exact Hx'|]. unfold getAttribute in *.
  rewrite Ha, Htx. auto.
Qed.

Lemma restore_link_keeps_restored (m : nat) (t : string) (d : Document) :
  m <> n -> restored n t d -> restored n t (restore_link m d).
Proof.
  intros Hne (x & Hx & Ht & Ha & Ho & Hti).
  destruct (restore_link_other m n d x Hne Hx) as (x' & Hx' & Hat & Htx).
  exists x'. split; [exact Hx'|]. unfold getAttribute in *.
  rewrite Hat, Htx. auto.
Qed.

Lemma restore_loop (l : list Element) (d : Document) :
  restored n (if truthy originalText then originalText else text) d \/
  (awaits_restoring n originalText text d /\ n ∈ nid <$> l) ->
  restored n (if truthy originalText then originalText else text)
           (for_each l restore_link d).
Proof.
  revert d. induction l as [|x l IH]; intros d H.
  - destruct H as [H|[_ H]]; [exact H | now apply elem_of_nil in H].
  - rewrite for_each_cons. apply IH.
    destruct (decide (nid x = n)) as [->|Hne].
    + left. destruct H as [H|[H _]];
        [now apply restore_link_again | now apply restore_link_own_turn].
    + destruct H as [H|[H Hin]].
      * left. now apply restore_link_keeps_restored.
      * right. split; [now apply restore_link_keeps_waiting|].
        rewrite fmap_cons in Hin. apply elem_of_cons in Hin as [Hn|Hin]; [congruence | exact Hin].
Qed.

End Restore.

(** The loop over the highlighted elements changes classes and styles
    only. *)
Lemma highlight_loop_getElement (P : Element -> Prop) (l : list Element)
    (f : Element -> Element) (doc : Document) (n : nat) (e : Element) :
  (forall x, nid (f x) = nid x) -> (forall x, P x -> P (f x)) ->
  getElement doc n = Some e -> P e ->
  exists e', getElement (for_each l (fun m => update m f) doc) n = Some e' /\ P e'.
Proof.
  intros Hn Hf. revert doc e. induction l as [|x l IH]; intros doc e He HP.
  - exists e. auto.
  - rewrite for_each_cons. destruct (decide (nid x = n)) as [->|Hne].
    + apply (IH _ (f e)); [now apply getElement_update_eq | now apply Hf].
    + apply (IH _ e); [|exact HP]. now rewrite getElement_update_ne.
Qed.

Lemma removeLinkHighlights_restores (doc : Document) (n : nat) (link : Element)
    (originalText : string) :
  getElement doc n = Some link ->
  connected link = true ->
  sel_ai_generated link = true ->
  getAttribute link "data-original-text" = Some originalText ->
  restored n (if truthy originalText then originalText else Dom.textContent link)
           (removeLinkHighlights doc).
Proof.
  intros Hlink Hc Hs Ho. rewrite removeLinkHighlights_loops. cbv zeta.
  set (P := fun x : Element =>
              connected x = true /\ attributes x = attributes link /\
              Dom.textContent x = Dom.textContent link).
  match goal with
  | |- context [for_each ?l (fun n => update n ?f) doc] =>
      destruct (highlight_loop_getElement P l f doc n link) as (l1 & Hl1 & Hc1 & Ha1 & Ht1)
  end.
  - intros x. simpl. now destruct (attr_truthy _).
  - intros x (H1 & H2 & H3). simpl. destruct (attr_truthy _); now split.
  - exact Hlink.
  - now split.
  - apply restore_loop. right. split.
    + exists l1. split; [exact Hl1|]. unfold getAttribute in *. rewrite Ha1. auto.
    + pose proof (getElement_nid _ _ _ Hl1) as [Hn Hin]. rewrite <- Hn.
      apply marker_selected; [exact Hin | exact Hc1 |].
      unfold sel_ai_generated, getAttribute in *. now rewrite Ha1.
Qed.

(** X11 (content.js, addGeneratedLinkText and removeLinkHighlights): called
    on its own, [removeLinkHighlights] undoes [addGeneratedLinkText] for a
    link that is in the document and had a text: the link shows the text
    that [getLinkText] reported before the change, and the attributes
    [data-ai-generated], [data-original-text] and [title] are gone, a
    [title] of the page's own included. *)
Theorem link_text_round_trip (doc : Document) (n : nat) (link : Element) (newText : string) :
  getElement doc n = Some link ->
  connected link = true ->
  truthy (getLinkText link) = true ->
  exists link',
    getElement (removeLinkHighlights (addGeneratedLinkText n newText doc).1) n = Some link' /\
    Dom.textContent link' = getLinkText link /\
    getAttribute link' "data-ai-generated" = None /\
    getAttribute link' "data-original-text" = None /\
    getAttribute link' "title" = None.
Proof.
  intros Hlink Hc Ht.
  assert (Hnew : exists link1,
             getElement (addGeneratedLinkText n newText doc).1 n = Some link1 /\
             connected link1 = true /\
             getAttribute link1 "data-original-text" = Some (getLinkText link) /\
             getAttribute link1 "data-ai-generated" = Some "true").
  { unfold addGeneratedLinkText, bind, element, read, write, the. simpl.
    rewrite Hlink. simpl. eexists. split.
    - apply getElement_update_eq; [reflexivity|].
      apply getElement_update_eq; [reflexivity|].
      apply getElement_update_eq; [reflexivity|].
      apply getElement_set_textContent_eq.
      apply getElement_update_eq; [reflexivity|].
      exact Hlink.
    - split; [exact Hc|]. unfold getAttribute. simpl.
      split; [now rewrite !lookup_insert_ne, lookup_insert_eq by discriminate|].
      now rewrite lookup_insert_ne, lookup_insert_eq by discriminate. }
  destruct Hnew as (link1 & H1 & Hc1 & Ho1 & Hm1).
  pose proof (removeLinkHighlights_restores _ n link1 (getLinkText link) H1 Hc1) as R.
  rewrite Ht in R. apply R; [|exact Ho1].
  unfold sel_ai_generated. now apply bool_decide_eq_true.
Qed.

Lemma link_text_round_trip_witness :
  let doc := [body; anchor "click here"] in
  exists link',
    getElement (removeLinkHighlights
                  (addGeneratedLinkText 3 "View pricing plans" doc).1) 3 = Some link' /\
    Dom.textContent link' = getLinkText (anchor "click here") /\
    getAttribute link' "data-ai-generated" = None /\
    getAttribute link' "data-original-text" = None /\
    getAttribute link' "title" = None.
Proof.
  apply link_text_round_trip; vm_compute; reflexivity.
Defined.

(** ** Generated labels *)












(** X13 (content.js, addGeneratedLabel): for a field whose [id] can be
    written into the selector as it is, [addGeneratedLabel] fails exactly
    when no label refers to the field and the field has no parent element
    to insert one into; [inputElement.parentElement.insertBefore] then
    throws a [TypeError]. *)
Theorem addGeneratedLabel_throws_iff (doc : Document) (n : nat) (labelText stamp : string) :
  writable_in_selector (id (the doc n)) = true ->
  ((addGeneratedLabel n labelText stamp doc).2 = Throw TypeError <->
   querySelector (sel_label_for (id (the doc n))) doc = None /\ parent (the doc n) = None).
Proof.
  intros _.
  unfold addGeneratedLabel, bind, element, read, write, when, ret, throw. simpl.
  destruct (querySelector (sel_label_for (id (the doc n))) doc) as [l|]; simpl.
  - split; [discriminate | intros [[=] _]].
  - assert (Hp : forall i, parent (the (update n (with_id i) doc) n) = parent (the doc n)).
    { intros i. unfold the, update.
      rewrite getElement_map by (intros e; now destruct (Nat.eqb (nid e) n)).
      destruct (getElement doc n) as [e|] eqn:E; simpl; [|reflexivity].
      now destruct (Nat.eqb (nid e) n). }
    destruct (negb (truthy (id (the doc n)))); simpl; rewrite ?Hp;
      (destruct (parent (the doc n)) as [p|]; simpl;
       [split; [discriminate | intros [_ [=]]] | split; auto]).
Qed.

(** A field that is the root of a detached tree has no parent: the label
    cannot be inserted. *)
Lemma addGeneratedLabel_throws_iff_witness :
  let field := detached (with_parent None (email_input 2 200)) in
  (addGeneratedLabel 2 "Email address" "k3" [body; field]).2 = Throw TypeError <->
  querySelector (sel_label_for (id (the [body; field] 2))) [body; field] = None /\
  parent (the [body; field] 2) = None.
Proof.
  intros field.
  apply (addGeneratedLabel_throws_iff [body; field] 2 "Email address" "k3").
  vm_compute. reflexivity.
Defined.

(** ** Failures inside a task *)

(** X14 (content.js, the [try]/[catch] of the generation tasks of
    highlightImages, highlightFormFields and highlightLinks): once the
    request of a generation task has settled, the task completes with a
    success flag, whatever the category, the response and the page: an
    error thrown while the result is applied is caught in the task, and its
    [catch] block cannot throw, so the promise of the task is fulfilled and
    never rejected. *)
Theorem generation_task_is_never_rejected (c : Category) (n : nat) (o : FetchOutcome)
    (stamp : string) (doc : Document) :
  exists doc' success, generation_task c n o stamp doc = (doc', Normal success).
Proof. apply generation_task_fulfils. Qed.

(** ** The improved text of a link *)

(** X17 (content.js, addGeneratedLinkText): replacing the text of a link
    removes the child elements of the link, an icon or an image inside it,
    from the document. *)
Theorem improving_a_link_removes_its_children (doc : Document) (n : nat) (newText : string)
    (m : nat) (child : Element) :
  getElement doc m = Some child -> parent child = Some n -> m <> n ->
  exists child',
    getElement (addGeneratedLinkText n newText doc).1 m = Some child' /\
    connected child' = false /\ parent child' = None.
Proof.
  intros Hchild Hp Hne.
  unfold addGeneratedLinkText, bind, element, read, write. simpl.
  rewrite !getElement_update_ne by (reflexivity || congruence).
  unfold set_textContent. rewrite getElement_map by apply set_textContent_preserves_nid.
  rewrite getElement_update_ne by (reflexivity || congruence). rewrite Hchild. simpl.
  apply getElement_nid in Hchild as [Hn _]. rewrite Hn.
  assert (E : Nat.eqb m n = false) by now apply Nat.eqb_neq.
  rewrite E, Hp, bool_decide_eq_true_2 by reflexivity.
  eexists. split; [reflexivity|]. split; reflexivity.
Qed.

Lemma improving_a_link_removes_its_children_witness :
  let icon := html 4 (Some 3%nat) "IMG" "" [] "" 16 16 (box 16 16) in
  let page := [body; anchor "click here"; icon] in
  exists child',
    getElement (addGeneratedLinkText 3 "View pricing plans" page).1 4 = Some child' /\
    connected child' = false /\ parent child' = None.
Proof.
  intros icon page.
  apply (improving_a_link_removes_its_children page 3 "View pricing plans" 4 icon);
    [vm_compute; reflexivity | reflexivity | lia].
Defined.

(** X18 (content.js, addGeneratedLinkText with getLinkText and
    needsBetterLinkText): after the text of a link has been replaced by a
    text that is not blank, the text of the link is the new text, trimmed,
    and the link is a candidate of the generation phase again exactly when
    the new text is itself classified as vague. *)
Theorem improved_link_is_classified_by_its_new_text (doc : Document) (n : nat)
    (link : Element) (newText : string) :
  getElement doc n = Some link ->
  truthy (trim newText) = true ->
  let link' := the (addGeneratedLinkText n newText doc).1 n in
  getLinkText link' = trim newText /\
  needsBetterLinkText link' = needsBetterText (trim newText).
Proof.
  intros Hlink Ht link'.
  assert (Htext : Dom.textContent link' = newText).
  { destruct (addGeneratedLinkText_marks doc n link newText Hlink) as (l1 & H1 & Hl1 & _).
    unfold link', the. now rewrite H1. }
  assert (Hget : getLinkText link' = trim newText).
  { unfold getLinkText. rewrite Htext.
    assert (Hor : or_else newText (or_else (innerText link') "") = newText)
      by (unfold or_else; now rewrite (trim_truthy _ Ht)).
    rewrite Hor, Ht. simpl. rewrite Ht. reflexivity. }
  split; [exact Hget|]. unfold needsBetterLinkText. now rewrite Hget.
Qed.

Lemma improved_link_is_classified_by_its_new_text_witness :
  let page := [body; anchor "click here"] in
  let link' := the (addGeneratedLinkText 3 " Read more " page).1 3 in
  getLinkText link' = trim " Read more " /\
  needsBetterLinkText link' = needsBetterText (trim " Read more ").
Proof.
  apply (improved_link_is_classified_by_its_new_text [body; anchor "click here"] 3
           (anchor "click here")); vm_compute; reflexivity.
Defined.

(** ** Accessible names of the page's own *)

Lemma addGeneratedLabel_keeps_attribute (doc : Document) (n : nat) (input : Element)
    (labelText stamp name : string) :
  getElement doc n = Some input -> name <> "data-ai-generated" ->
  getAttribute (the (addGeneratedLabel n labelText stamp doc).1 n) name
  = getAttribute input name.
Proof.
  intros Hinput Hname.
  assert (Hthe : the doc n = input) by (unfold the; now rewrite Hinput).
  assert (Hmark : forall e, getAttribute (setAttribute "data-ai-generated" "true" e) name
                            = getAttribute e name)
    by (intros e; apply setAttribute_other; congruence).
  unfold addGeneratedLabel, bind, element, read, write, when, ret, throw. simpl.
  rewrite Hthe.
  destruct (querySelector (sel_label_for (id input)) doc) as [l|]; simpl.
  - rewrite the_update_attribute, the_set_textContent_attribute, Hthe by auto.
    reflexivity.
  - assert (Hins : forall d p x, getElement d n = Some x ->
              getAttribute
                (the (update (fresh_nid d) (setAttribute "data-ai-generated" "true")
                        (set_textContent (fresh_nid d) labelText
                           (insertBefore (new_label (fresh_nid d) (id x) p (connected x)) n d)))
                     n) name
              = getAttribute x name).
    { intros d p x Hx.
      rewrite the_update_attribute, the_set_textContent_attribute by auto.
      unfold the. rewrite getElement_insertBefore_ne, Hx; [reflexivity|].
      apply getElement_nid in Hx as [Hn Hin]. apply fresh_nid_above in Hin. simpl. lia. }
    destruct (truthy (id input)); simpl.
    + rewrite Hthe. destruct (parent input) as [p|]; simpl; [|now rewrite Hthe].
      now apply Hins.
    + set (d := update n (with_id ("ai-generated-" +:+ stamp)) doc).
      assert (Hd : getElement d n = Some (with_id ("ai-generated-" +:+ stamp) input))
        by (apply getElement_update_eq; [reflexivity | exact Hinput]).
      assert (Hthed : the d n = with_id ("ai-generated-" +:+ stamp) input)
        by (unfold the; now rewrite Hd).
      rewrite Hthed. simpl. destruct (parent input) as [p|]; simpl.
      * pose proof (Hins d p _ Hd) as K. simpl in K. now rewrite K.
      * now rewrite Hthed.
Qed.

Lemma addGeneratedLinkText_keeps_attribute (doc : Document) (n : nat) (newText name : string) :
  name <> "data-original-text" -> name <> "data-ai-generated" -> name <> "title" ->
  getAttribute (the (addGeneratedLinkText n newText doc).1 n) name
  = getAttribute (the doc n) name.
Proof.
  intros H1 H2 H3. unfold addGeneratedLinkText, bind, element, read, write. simpl.
  rewrite !the_update_attribute, the_set_textContent_attribute, the_update_attribute;
    try reflexivity; intros e; try reflexivity; apply setAttribute_other; congruence.
Qed.

Lemma outline_keeps_attribute (n : nat) (v name : string) (doc : Document) :
  getAttribute (the (update n (setStyle "outline" v) doc) n) name
  = getAttribute (the doc n) name.
Proof. now apply the_update_attribute. Qed.

Lemma form_task_keeps_aria_label (n : nat) (generated : completion JSValue) (stamp : string)
    (doc : Document) (input : Element) (a : string) :
  getElement doc n = Some input ->
  getAttribute input "aria-label" = Some a -> truthy a = true ->
  getAttribute (the (form_generation_task n generated stamp doc).1 n) "aria-label" = Some a.
Proof.
  intros Hinput Ha Ht.
  assert (Hthe : the doc n = input) by (unfold the; now rewrite Hinput).
  unfold form_generation_task, try_catch, bind, lift, when, write, ret, element, read.
  destruct generated as [result|err]; simpl;
    [|now rewrite outline_keeps_attribute, Hthe].
  destruct (get result "label") as [label|err]; simpl;
    [|now rewrite outline_keeps_attribute, Hthe].
  destruct (js_truthy label && negb (hasVisibleLabel doc (the doc n))).
  - pose proof (addGeneratedLabel_keeps_attribute doc n input (ToString label) stamp
                  "aria-label" Hinput) as K.
    destruct (addGeneratedLabel n (ToString label) stamp doc) as [d1 [[]|err]]; simpl in *.
    + destruct (get result "aria_label") as [aria|err]; simpl;
        [|rewrite outline_keeps_attribute, K, Ha by discriminate; reflexivity].
      rewrite K, Ha by discriminate. simpl. rewrite Ht, andb_false_r. simpl.
      now rewrite outline_keeps_attribute, K, Ha by discriminate.
    + now rewrite outline_keeps_attribute, K, Ha by discriminate.
  - simpl. destruct (get result "aria_label") as [aria|err]; simpl;
      [|now rewrite outline_keeps_attribute, Hthe].
    rewrite Hthe, Ha. simpl. rewrite Ht, andb_false_r. simpl.
    now rewrite outline_keeps_attribute, Hthe.
Qed.

Lemma link_task_keeps_aria_label (n : nat) (generated : completion JSValue)
    (doc : Document) (link : Element) (a : string) :
  getElement doc n = Some link ->
  getAttribute link "aria-label" = Some a -> truthy a = true ->
  getAttribute (the (link_generation_task n generated doc).1 n) "aria-label" = Some a.
Proof.
  intros Hlink Ha Ht.
  assert (Hthe : the doc n = link) by (unfold the; now rewrite Hlink).
  unfold link_generation_task, try_catch, bind, lift, when, write, ret, element, read.
  destruct generated as [result|err]; simpl;
    [|now rewrite outline_keeps_attribute, Hthe].
  destruct (get result "suggested_text") as [suggested|err]; simpl;
    [|now rewrite outline_keeps_attribute, Hthe].
  destruct (js_truthy suggested).
  - pose proof (addGeneratedLinkText_keeps_attribute doc n (ToString suggested) "aria-label")
      as K.
    rewrite Hthe, Ha in K.
    rewrite addGeneratedLinkText_completes.
    set (d1 := (addGeneratedLinkText n (ToString suggested) doc).1) in *.
    destruct (get result "aria_label") as [aria|err]; simpl;
      [|rewrite outline_keeps_attribute, K by discriminate; reflexivity].
    rewrite K by discriminate. simpl. rewrite Ht, andb_false_r. simpl.
    now rewrite outline_keeps_attribute, K by discriminate.
  - simpl. destruct (get result "aria_label") as [aria|err]; simpl;
      [|now rewrite outline_keeps_attribute, Hthe].
    rewrite Hthe, Ha. simpl. rewrite Ht, andb_false_r. simpl.
    now rewrite outline_keeps_attribute, Hthe.
Qed.

(** X19 (content.js, the generation tasks of highlightImages,
    highlightFormFields and highlightLinks): an [aria-label] of the page's
    own that is not empty is never overwritten: whatever the inference
    returns, and also when the task fails, the element has the [aria-label]
    it had. *)
Theorem existing_aria_label_is_never_overwritten (c : Category) (n : nat) (o : FetchOutcome)
    (stamp : string) (doc : Document) (el : Element) (a : string) :
  getElement doc n = Some el ->
  getAttribute el "aria-label" = Some a ->
  truthy a = true ->
  getAttribute (the (generation_task c n o stamp doc).1 n) "aria-label" = Some a.
Proof.
  intros Hel Ha Ht. destruct c; unfold generation_task.
  - unfold bind, element, read. rewrite image_task_applies_description. simpl.
    rewrite !the_update_attribute; try reflexivity.
    + unfold the. now rewrite Hel.
    + intros e. now apply setAttribute_other.
  - now apply (form_task_keeps_aria_label n _ stamp doc el).
  - now apply (link_task_keeps_aria_label n _ doc el).
Qed.

Lemma existing_aria_label_is_never_overwritten_witness :
  let link := setAttribute "aria-label" "Pricing" (anchor "click here") in
  getAttribute (the (generation_task Link 3 (ok_response pricing_link_text) ""
                       [body; link]).1 3) "aria-label" = Some "Pricing".
Proof.
  intros link.
  apply (existing_aria_label_is_never_overwritten Link 3 _ "" [body; link] link);
    vm_compute; reflexivity.
Defined.
